(** * Lorcana sealed-draft engine: a shallow embedding and its properties

  The development follows the TypeScript sources of the draft application:
  - [Js]         the JavaScript array and string primitives the code relies on;
  - [Random], [RandomUtil]  lib/random.ts ([randomInt], [sampleWithoutReplacement]);
  - [Types]      types.ts;
  - [Clone]      [deepClone] of lib/random.ts, on the types of the draft;
  - [Draft]      lib/draft.ts, the draft state machine;
  - [Tally]      lib/draft.ts, the tally of the picks and the export text;
  - [SavedDecks] components/SavedDecks.tsx ([parseDeckText]);
  - [Shuffle]    lib/random.ts ([shuffle]);
  - [Enrich]     lib/draft.ts, the [baseCard] flags of a saved draft;
  - [App]        App.tsx, the loop of Quick Sim;
  - [DeckUtils]  lib/deckUtils.js, filters, sort orders and groups;
  - [ImportDeck], [DeckBuilder]  components/SavedDecks.tsx, the import of a
                 deck text and the selection of the cards of a deck;
  - [CleanDuplicates]  clean_duplicates.js, the marking of the base cards.

  JavaScript numbers that hold counters, indices and lengths are modelled by
  [Z]; strings by [string], one character per code unit in the range
  0..255.  [Math.random] is an oracle: a stream of 53-bit samples that every
  call consumes from, threaded through the code as explicit state; the
  product of a sample and an integer is rounded to a double as the machine
  does.  An object used as a dictionary is a finite map of its own keys
  together with the names that every object inherits. *)

From Stdlib Require Import ZArith NArith List String Ascii Lia Permutation Sorted.
From Stdlib Require Import DecimalString DecimalPos OrderedTypeEx.
From stdpp Require Import base option list gmap strings.

Local Open Scope Z_scope.

(** ** JavaScript primitives *)

Module Js.

(** Relative start index of [Array.prototype.splice]: a negative start
    counts from the end, and the result is clamped to [0, len]. *)
Definition relative_index (len : nat) (start : Z) : nat :=
  if start <? 0 then Z.to_nat (Z.max (Z.of_nat len + start) 0)
  else Z.to_nat (Z.min start (Z.of_nat len)).

(** [arr.splice(start, 1)]: the removed elements (at most one) and the
    array that is left. *)
Definition splice1 {A} (arr : list A) (start : Z) : list A * list A :=
  let k := relative_index (length arr) start in
  (take 1 (drop k arr), take k arr ++ drop (S k) arr).

(** [arr.splice(start)]: everything from [start] on is removed; the array
    that is left. *)
Definition splice_from {A} (arr : list A) (start : Z) : list A :=
  take (relative_index (length arr) start) arr.

(** [arr[i]] for an integer [i]; [None] is [undefined]. *)
Definition index {A} (arr : list A) (i : Z) : option A :=
  if i <? 0 then None else arr !! Z.to_nat i.

(** [arr[arr.length - 1] = x]: on an empty array this sets the property
    "-1", which is no element of the array. *)
Definition set_last {A} (arr : list A) (x : A) : list A :=
  match arr with
  | [] => []
  | _ => <[Nat.pred (length arr) := x]> arr
  end.

(** [arr.findIndex(p)], with -1 when no element satisfies [p]. *)
Fixpoint findIndex_from {A} (p : A -> bool) (arr : list A) (i : Z) : Z :=
  match arr with
  | [] => -1
  | x :: rest => if p x then i else findIndex_from p rest (i + 1)
  end.

Definition findIndex {A} (p : A -> bool) (arr : list A) : Z :=
  findIndex_from p arr 0.

(** [`${n}`] for an integer [n]. *)
Definition number_to_string (n : Z) : string :=
  NilZero.string_of_int (Z.to_int n).

(** [parts.join(sep)]. *)
Fixpoint join (sep : string) (parts : list string) : string :=
  match parts with
  | [] => EmptyString
  | [p] => p
  | p :: rest => String.append p (String.append sep (join sep rest))
  end.

(** [arr.sort(cmp)].  The sort of JavaScript is stable: [a] comes before
    [b] when [cmp a b < 0], and elements that compare as equal keep their
    order.  With a consistent comparator that fixes the result whatever the
    algorithm; it is computed here by insertion from the right. *)
Fixpoint sort_insert {A} (cmp : A -> A -> Z) (x : A) (sorted : list A) : list A :=
  match sorted with
  | [] => [x]
  | y :: rest => if cmp x y <=? 0 then x :: y :: rest else y :: sort_insert cmp x rest
  end.

Definition sort {A} (cmp : A -> A -> Z) (arr : list A) : list A :=
  foldr (sort_insert cmp) [] arr.

(** White space of [String.prototype.trim] and of the class [\s], among the
    code units 0..255: tab, line feed, vertical tab, form feed, carriage
    return, space and no-break space. *)
Definition is_whitespace (c : ascii) : bool :=
  let n := nat_of_ascii c in
  ((9 <=? n)%nat && (n <=? 13)%nat) || (n =? 32)%nat || (n =? 160)%nat.

(** The class [\d]. *)
Definition is_digit (c : ascii) : bool :=
  let n := nat_of_ascii c in (48 <=? n)%nat && (n <=? 57)%nat.

(** A line terminator, which [.] does not match. *)
Definition is_line_terminator (c : ascii) : bool :=
  let n := nat_of_ascii c in (n =? 10)%nat || (n =? 13)%nat.

Fixpoint trimStart (s : string) : string :=
  match s with
  | String c rest => if is_whitespace c then trimStart rest else s
  | EmptyString => EmptyString
  end.

Fixpoint trimEnd (s : string) : string :=
  match s with
  | String c rest =>
      match trimEnd rest with
      | EmptyString => if is_whitespace c then EmptyString else String c EmptyString
      | rest' => String c rest'
      end
  | EmptyString => EmptyString
  end.

Definition trim (s : string) : string := trimEnd (trimStart s).

(** [s.split(sep)] for a separator that is not empty: [skip] code units of
    a separator just found are still to be passed, and [cur] is the part
    read so far. *)
Fixpoint split_from (sep s : string) (skip : nat) (cur : string) : list string :=
  match s with
  | EmptyString => [cur]
  | String c rest =>
      match skip with
      | S skip' => split_from sep rest skip' cur
      | O =>
          if String.prefix sep s
          then cur :: split_from sep rest (Nat.pred (String.length sep)) EmptyString
          else split_from sep rest O (String.append cur (String c EmptyString))
      end
  end.

Definition split (sep s : string) : list string := split_from sep s O EmptyString.

(** The digits that [parseInt(s, 10)] reads, as a number. *)
Fixpoint digits_value (s : string) (acc : Z) : Z :=
  match s with
  | String c rest =>
      if is_digit c then digits_value rest (10 * acc + (Z.of_nat (nat_of_ascii c) - 48))
      else acc
  | EmptyString => acc
  end.

Definition starts_with_digit (s : string) : bool :=
  match s with
  | String c _ => is_digit c
  | EmptyString => false
  end.

(** [parseInt(s, 10)]: leading white space is skipped, a sign is read, then
    the longest run of digits; [None] is [NaN].  The value is the integer
    that the digits write, which is the number of the code up to 2^53;
    beyond that the code has the double nearest to it. *)
Definition parseInt (s : string) : option Z :=
  match trimStart s with
  | String "-" rest =>
      if starts_with_digit rest then Some (- digits_value rest 0) else None
  | String "+" rest =>
      if starts_with_digit rest then Some (digits_value rest 0) else None
  | t => if starts_with_digit t then Some (digits_value t 0) else None
  end.

(** [arr.slice(from, to)] for [from >= 0]; a negative [to] counts from the
    end. *)
Definition slice {A} (arr : list A) (from to : Z) : list A :=
  let len := Z.of_nat (length arr) in
  let stop := if to <? 0 then Z.max (len + to) 0 else Z.min to len in
  drop (Z.to_nat from) (take (Z.to_nat stop) arr).

(** The names that an object literal inherits from [Object.prototype]:
    looked up in an object used as a dictionary they give a function or an
    object, which is truthy and is not a number. *)
Definition inherited_keys : list string :=
  ["constructor"; "hasOwnProperty"; "isPrototypeOf"; "propertyIsEnumerable";
   "toLocaleString"; "toString"; "valueOf"; "__proto__"; "__defineGetter__";
   "__defineSetter__"; "__lookupGetter__"; "__lookupSetter__"]%string.

End Js.

(** ** lib/random.ts *)

Module Random.

(** The random source: sample number [i] of the stream is the value
    [(r i mod 2^53) / 2^53] that the i-th coming call of [Math.random]
    returns, a number in [0, 1). *)
Definition Rng := nat -> N.

Definition precision : N := 2 ^ 53.

(** Computations that draw from the random source. *)
Definition M (A : Type) : Type := Rng -> A * Rng.

Definition ret {A} (a : A) : M A := fun r => (a, r).

Definition bind {A B} (c : M A) (k : A -> M B) : M B :=
  fun r => let '(a, r') := c r in k a r'.

(** [Math.random()], as the numerator of the sample over [precision]. *)
Definition Math_random : M N :=
  fun r => (r 0%nat mod precision, fun i => r (S i))%N.

(** The double nearest to [p / 2^53], as its numerator over [precision]:
    [p] rounded to 53 significant bits, to the nearest and at a tie to the
    even one.  This is the rounding of the product of a sample and an
    integer, whose exponent stays within that of the normal doubles. *)
Definition round_to_double (p : Z) : Z :=
  let m := Z.abs p in
  let shift := Z.log2 m - 52 in
  if shift <=? 0 then p
  else
    let q := m / 2 ^ shift in
    let rest := m mod 2 ^ shift in
    let half := 2 ^ (shift - 1) in
    let q' := if (half <? rest) || ((rest =? half) && Z.odd q) then q + 1 else q in
    Z.sgn p * (q' * 2 ^ shift).

(** [Math.floor(Math.random() * n)] for an integer [n]: the product is
    rounded to a double before its floor is taken. *)
Definition randomInt (n : Z) : M Z :=
  bind Math_random
    (fun u => ret (round_to_double (Z.of_N u * n) / Z.of_N precision)).

(** [Math.random() < 0.5]. *)
Definition below_half (u : N) : bool := (2 * u <? precision)%N.

End Random.

Notation "x <- c ;; k" := (Random.bind c (fun x => k))
  (at level 100, c at next level, right associativity).

Module RandomUtil.
Import Random.

(** The loop of [sampleWithoutReplacement]: [iters] iterations remain,
    [copy] still holds the undrawn items and [result] the drawn ones. *)
Fixpoint sample_loop {T} (iters : nat) (copy result : list T) : M (list T * list T) :=
  match iters with
  | O => ret (copy, result)
  | S iters' =>
      idx <- randomInt (Z.of_nat (length copy)) ;;
      sample_loop iters'
        (snd (Js.splice1 copy idx))
        (match Js.index copy idx with
         | Some x => result ++ [x]
         | None => result
         end)
  end.

Definition sampleWithoutReplacement {T} (arr : list T) (k : Z) : M (list T) :=
  let max := Z.min k (Z.of_nat (length arr)) in
  p <- sample_loop (Z.to_nat max) arr [] ;;
  ret (snd p).

End RandomUtil.

(** ** types.ts *)

Module Types.

Inductive CardId : Type :=
| IdNumber (n : Z)
| IdString (s : string).

Record Images : Type := mkImages { full : option string }.

(** Optional fields are [option]s: [None] is an absent (or [undefined])
    field. *)
Record Card : Type := mkCard {
  card_id : CardId;
  fullName : string;
  color : string;
  cost : option Z;
  images : option Images;
  card_type : option string;
  keywordAbilities : option (list string);
  baseCard : option bool;
  rarity : option string
}.

Record Pack : Type := mkPack {
  pack_id : string;
  cards : list Card;
  removedLog : list Z
}.

Record RoundState : Type := mkRoundState {
  roundNumber : Z;
  packs : list Pack;
  turn : Z
}.

(** [picked] is the card that [splice] returned, [None] when it returned
    none ([undefined] at run time). *)
Record PickLogEntry : Type := mkPickLogEntry {
  round : Z;
  log_turn : Z;
  packIndex : Z;
  picked : option Card;
  removedCounts : Z
}.

#[warnings="-register-all"]
Inductive DraftState : Type := mkDraftState {
  masterCards : list Card;
  rounds : list RoundState;
  currentRound : Z;
  currentTurn : Z;
  picks : list (option Card);
  log : list PickLogEntry;
  isComplete : bool;
  undoBuffer : option DraftState
}.

Record TallyEntry : Type := mkTallyEntry {
  count : Z;
  tally_fullName : string;
  tally_color : string
}.

End Types.

(** ** lib/random.ts: [deepClone]

    [JSON.parse(JSON.stringify(x))] rebuilds the value node by node.  On the
    typed view of the draft data it copies every record and array; a field
    that is [undefined] is dropped, which is the [None] it already is here. *)

Module Clone.
Import Types.

Definition deepClone_Card (c : Card) : Card :=
  mkCard (card_id c) (fullName c) (color c) (cost c)
    (match images c with Some i => Some (mkImages (full i)) | None => None end)
    (card_type c)
    (match keywordAbilities c with Some ks => Some (map (fun k => k) ks) | None => None end)
    (baseCard c) (rarity c).

Definition deepClone_Pack (p : Pack) : Pack :=
  mkPack (pack_id p) (map deepClone_Card (cards p)) (map (fun n => n) (removedLog p)).

Definition deepClone_RoundState (r : RoundState) : RoundState :=
  mkRoundState (roundNumber r) (map deepClone_Pack (packs r)) (turn r).

Definition deepClone_PickLogEntry (e : PickLogEntry) : PickLogEntry :=
  mkPickLogEntry (round e) (log_turn e) (packIndex e)
    (option_map deepClone_Card (picked e)) (removedCounts e).

Fixpoint deepClone (s : DraftState) : DraftState :=
  match s with
  | mkDraftState master rs cr ct ps lg done buffer =>
      mkDraftState (map deepClone_Card master) (map deepClone_RoundState rs) cr ct
        (map (option_map deepClone_Card) ps) (map deepClone_PickLogEntry lg) done
        (match buffer with
         | Some b => Some (deepClone b)
         | None => None
         end)
  end.

End Clone.

(** ** lib/draft.ts *)

Module Draft.
Import Types Random RandomUtil Clone.

Inductive error : Type := TypeError.

Definition rarityMap : gmap string Z :=
  list_to_map
    [("Common"%string, 1); ("Uncommon"%string, 2); ("Rare"%string, 3);
     ("Super Rare"%string, 4); ("Legendary"%string, 5); ("Epic"%string, 6);
     ("Iconic"%string, 7); ("Enchanted"%string, 8); ("Special"%string, 9)].

(** Numeric rarity value for comparison (higher = rarer):
    [rarityMap[rarity] || 0] after the test [!rarity].  [None] is a result
    that is not a number: for a name that [rarityMap] inherits the lookup
    gives a function or an object, which is truthy and is returned. *)
Definition getRarityValue (rarity : option string) : option Z :=
  match rarity with
  | None => Some 0
  | Some EmptyString => Some 0
  | Some r =>
      match rarityMap !! r with
      | Some v => Some (if v =? 0 then 0 else v)
      | None => if bool_decide (r ∈ Js.inherited_keys) then None else Some 0
      end
  end.

(** One call of the [forEach] callback of [findRarestCardIndex]; the
    accumulator is [(maxRarity, rarestIndices)].  Both comparisons are
    false for a rarity value that is not a number. *)
Definition rarest_step (acc : Z * list Z) (card : Card) (index : Z) : Z * list Z :=
  match getRarityValue (rarity card) with
  | Some rarityValue =>
      if rarityValue >? fst acc then (rarityValue, [index])
      else if rarityValue =? fst acc then (fst acc, snd acc ++ [index])
      else acc
  | None => acc
  end.

Fixpoint rarest_scan (cards : list Card) (index : Z) (acc : Z * list Z) : Z * list Z :=
  match cards with
  | [] => acc
  | card :: rest => rarest_scan rest (index + 1) (rarest_step acc card index)
  end.

(** The index of a rarest card; [Some (-1)] on an empty array, and [None]
    where the array read [rarestIndices[...]] yields [undefined]. *)
Definition findRarestCardIndex (cards : list Card) : M (option Z) :=
  if Z.of_nat (length cards) =? 0 then ret (Some (-1))
  else
    let rarestIndices := snd (rarest_scan cards 0 (-1, [])) in
    if Z.of_nat (length rarestIndices) =? 1 then ret (Js.index rarestIndices 0)
    else
      k <- randomInt (Z.of_nat (length rarestIndices)) ;;
      ret (Js.index rarestIndices k).

(** The six packs of a round, built by the loop [for (i = 1; i <= 6; i++)];
    [n] iterations remain. *)
Fixpoint createPacks (roundNumber i : Z) (n : nat) (masterCards : list Card) : M (list Pack) :=
  match n with
  | O => ret []
  | S n' =>
      cards <- sampleWithoutReplacement masterCards 12 ;;
      rest <- createPacks roundNumber (i + 1) n' masterCards ;;
      ret (mkPack
             (String.append "R" (String.append (Js.number_to_string roundNumber)
                (String.append "P" (Js.number_to_string i))))
             cards [] :: rest)
  end.

Definition createRound (roundNumber : Z) (masterCards : list Card) : M RoundState :=
  packs <- createPacks roundNumber 1 6 masterCards ;;
  ret (mkRoundState roundNumber packs 1).

Definition createNewDraft (masterCards : list Card) : M DraftState :=
  round1 <- createRound 1 masterCards ;;
  ret (mkDraftState masterCards [round1] 1 1 [] [] false None).

(** [(turn - 1) % 6]; the remainder of JavaScript has the sign of the
    dividend. *)
Definition getActivePackIndex (turn : Z) : Z := Z.rem (turn - 1) 6.

Definition set_cards (pack : Pack) (cs : list Card) : Pack :=
  mkPack (pack_id pack) cs (removedLog pack).

(** [ToIntegerOrInfinity] of the start argument of [splice]. *)
Definition to_integer (i : option Z) : Z := default 0 i.

(** The body of the removal loop for a pack other than the active one: the
    pack afterwards and the number of cards removed from it. *)
Definition removeFromPack (pack : Pack) : M (Pack * Z) :=
  if Z.of_nat (length (cards pack)) >? 0 then
    u <- Math_random ;;
    removeIdx <- (if below_half u
                  then k <- randomInt (Z.of_nat (length (cards pack))) ;; ret (Some k)
                  else findRarestCardIndex (cards pack)) ;;
    ret (set_cards pack (snd (Js.splice1 (cards pack) (to_integer removeIdx))), 1)
  else ret (pack, 0).

(** The loop [for (i = 0; i < packs.length; i++)] of [pickCard], at index
    [i] with the packs from [i] on. *)
Fixpoint removal_loop (packIndex i : Z) (packs : list Pack) (removedCount : Z)
  : M (list Pack * Z) :=
  match packs with
  | [] => ret ([], removedCount)
  | pack :: rest =>
      if i =? packIndex then
        p <- removal_loop packIndex (i + 1) rest removedCount ;;
        ret (pack :: fst p, snd p)
      else
        q <- removeFromPack pack ;;
        p <- removal_loop packIndex (i + 1) rest (removedCount + snd q) ;;
        ret (fst q :: fst p, snd p)
  end.

(** The tail of [pickCard]: advance the turn and, past turn 12, open the
    next round or finish the draft.  The warning about packs that are not
    empty at the end of a round is only printed. *)
Definition advance (s : DraftState) : M DraftState :=
  let turn' := currentTurn s + 1 in
  if turn' >? 12 then
    if currentRound s <? 6 then
      nextRound <- createRound (currentRound s + 1) (masterCards s) ;;
      ret (mkDraftState (masterCards s) (rounds s ++ [nextRound]) (currentRound s + 1) 1
             (picks s) (log s) (isComplete s) (undoBuffer s))
    else
      ret (mkDraftState (masterCards s) (rounds s) (currentRound s) turn'
             (picks s) (log s) true (undoBuffer s))
  else
    ret (mkDraftState (masterCards s) (rounds s) (currentRound s) turn'
           (picks s) (log s) (isComplete s) (undoBuffer s)).

(** Pick a card from the active pack.  Reading [packs] of a missing round
    or [cards] of a missing pack throws a [TypeError]; nothing else in the
    function fails. *)
Definition pickCard (state : DraftState) (cardIndex : Z) (r : Rng)
  : error + (DraftState * Rng) :=
  let newState := deepClone state in
  let buffer := deepClone state in
  match last (rounds newState) with
  | None => inl TypeError
  | Some currentRoundState =>
      let packIndex := getActivePackIndex (currentTurn newState) in
      match Js.index (packs currentRoundState) packIndex with
      | None => inl TypeError
      | Some activePack =>
          let spliced := Js.splice1 (cards activePack) cardIndex in
          let pickedCard := head (fst spliced) in
          let packs1 :=
            <[Z.to_nat packIndex := set_cards activePack (snd spliced)]>
              (packs currentRoundState) in
          inr ((p <- removal_loop packIndex 0 packs1 0 ;;
                let logEntry :=
                  mkPickLogEntry (currentRound newState) (currentTurn newState)
                    packIndex pickedCard (snd p) in
                let round' :=
                  mkRoundState (roundNumber currentRoundState) (fst p)
                    (turn currentRoundState) in
                advance
                  (mkDraftState (masterCards newState)
                     (Js.set_last (rounds newState) round')
                     (currentRound newState) (currentTurn newState)
                     (picks newState ++ [pickedCard]) (log newState ++ [logEntry])
                     (isComplete newState) (Some buffer))) r)
      end
  end.

(** Undo the last pick; [None] is the [null] result. *)
Definition undoLastPick (state : DraftState) : option DraftState :=
  match undoBuffer state with
  | None => None
  | Some buffer => Some (deepClone buffer)
  end.

(** Reset the current round. *)
Definition resetRound (state : DraftState) : M DraftState :=
  let newState := deepClone state in
  let currentRoundStartIdx :=
    Js.findIndex (fun entry => round entry =? currentRound newState) (log newState) in
  let picks' :=
    if currentRoundStartIdx =? -1 then picks newState
    else Js.splice_from (picks newState) currentRoundStartIdx in
  let log' :=
    if currentRoundStartIdx =? -1 then log newState
    else Js.splice_from (log newState) currentRoundStartIdx in
  newRound <- createRound (currentRound newState) (masterCards newState) ;;
  ret (mkDraftState (masterCards newState) (Js.set_last (rounds newState) newRound)
         (currentRound newState) 1 picks' log' (isComplete newState) None).

Definition resetDraft (masterCards : list Card) : M DraftState :=
  createNewDraft masterCards.

End Draft.

(** *** The tally of the picks *)

Module Tally.
Import Types.

Section WithLocale.

(** [a.localeCompare(b)]: the collation of the platform, negative, zero or
    positive. *)
Variable localeCompare : string -> string -> Z.

Definition tally_key (card : Card) : string :=
  String.append (fullName card) (String.append "|" (color card)).

(** The [Map] of [getTally], as its entries in insertion order. *)
Fixpoint map_get (key : string) (m : list (string * TallyEntry)) : option TallyEntry :=
  match m with
  | [] => None
  | (k, e) :: rest => if String.eqb k key then Some e else map_get key rest
  end.

(** [existing.count++] on the entry that [map.get(key)] returned. *)
Fixpoint count_up (key : string) (m : list (string * TallyEntry)) : list (string * TallyEntry) :=
  match m with
  | [] => []
  | (k, e) :: rest =>
      if String.eqb k key
      then (k, mkTallyEntry (count e + 1) (tally_fullName e) (tally_color e)) :: rest
      else (k, e) :: count_up key rest
  end.

Definition tally_step (m : list (string * TallyEntry)) (card : Card) : list (string * TallyEntry) :=
  let key := tally_key card in
  match map_get key m with
  | Some _ => count_up key m
  | None => m ++ [(key, mkTallyEntry 1 (fullName card) (color card))]
  end.

Definition tally_map (picks : list Card) : list (string * TallyEntry) :=
  fold_left tally_step picks [].

(** Sort by count desc, then fullName asc. *)
Definition compare_entries (a b : TallyEntry) : Z :=
  if negb (count a =? count b) then count b - count a
  else localeCompare (tally_fullName a) (tally_fullName b).

Definition getTally (picks : list Card) : list TallyEntry :=
  Js.sort compare_entries (map snd (tally_map picks)).

Definition tally_line (t : TallyEntry) : string :=
  String.append (Js.number_to_string (count t)) (String.append " " (tally_fullName t)).

Definition newline : string := String "010" EmptyString.

Definition generateCopyTextWithoutColor (picks : list Card) : string :=
  Js.join newline (map tally_line (getTally picks)).

End WithLocale.

End Tally.

(** ** components/SavedDecks.tsx *)

Module SavedDecks.

Record ParsedEntry : Type := mkParsedEntry {
  parsed_count : Z;
  parsed_fullName : string;
  parsed_color : option string
}.

(** [(.+)$]: the rest of the line, which must not be empty and must hold no
    line terminator. *)
Fixpoint no_line_terminator (s : string) : bool :=
  match s with
  | String c rest => negb (Js.is_line_terminator c) && no_line_terminator rest
  | EmptyString => true
  end.

Definition match_rest (s : string) : option string :=
  match s with
  | EmptyString => None
  | _ => if no_line_terminator s then Some s else None
  end.

(** [\s+(.+)$] after one white space has been consumed: greedily consume
    more, and fall back to matching the rest here. *)
Fixpoint match_spaces (s : string) : option string :=
  match s with
  | String c rest =>
      if Js.is_whitespace c then
        match match_spaces rest with
        | Some g => Some g
        | None => match_rest rest
        end
      else None
  | EmptyString => None
  end.

(** [(\d+)] then [\s+(.+)$]; the digits read so far are [ds].  A shorter run
    of digits never helps: the code unit that follows would be a digit. *)
Fixpoint match_digits (s : string) (ds : string) : option (string * string) :=
  match s with
  | String c rest =>
      if Js.is_digit c then
        match match_digits rest (String.append ds (String c EmptyString)) with
        | Some g => Some g
        | None =>
            match match_spaces rest with
            | Some g2 => Some (String.append ds (String c EmptyString), g2)
            | None => None
            end
        end
      else None
  | EmptyString => None
  end.

(** [line.match(/^(\d+)\s+(.+)$/)], as the two groups. *)
Definition match_new_format (line : string) : option (string * string) :=
  match_digits line EmptyString.

Definition colors : list string :=
  ["Amber"; "Amethyst"; "Emerald"; "Ruby"; "Sapphire"; "Steel"]%string.

Definition includes (l : list string) (s : string) : bool :=
  existsb (String.eqb s) l.

Definition is_empty (s : string) : bool :=
  match s with EmptyString => true | _ => false end.

Definition positive_count (c : option Z) : option Z :=
  match c with
  | Some n => if n >? 0 then Some n else None
  | None => None
  end.

(** The third attempt of the loop body: the format without a color. *)
Definition parse_without_color (parts : list string) : list ParsedEntry :=
  if Z.of_nat (length parts) >=? 2 then
    match positive_count (Js.parseInt (Js.trim (default EmptyString (head parts)))) with
    | Some n =>
        let fullName := Js.trim (Js.join " - " (Js.slice parts 1 (Z.of_nat (length parts)))) in
        if is_empty fullName then [] else [mkParsedEntry n fullName None]
    | None => []
    end
  else [].

(** The second attempt: the old format with a color. *)
Definition parse_old_format (line : string) : list ParsedEntry :=
  let parts := Js.split " - " line in
  if Z.of_nat (length parts) >=? 3 then
    match positive_count (Js.parseInt (Js.trim (default EmptyString (head parts)))) with
    | None => []
    | Some n =>
        let lastPart := Js.trim (default EmptyString (last parts)) in
        if includes colors lastPart then
          let fullName := Js.trim (Js.join " - " (Js.slice parts 1 (-1))) in
          if is_empty fullName then parse_without_color parts
          else [mkParsedEntry n fullName (Some lastPart)]
        else parse_without_color parts
    end
  else parse_without_color parts.

(** The body of the loop over the lines: the entries one line adds. *)
Definition parse_line (line : string) : list ParsedEntry :=
  match match_new_format line with
  | Some (g1, g2) =>
      match positive_count (Js.parseInt g1) with
      | Some n =>
          let fullName := Js.trim g2 in
          if is_empty fullName then parse_old_format line
          else [mkParsedEntry n fullName None]
      | None => parse_old_format line
      end
  | None => parse_old_format line
  end.

Definition parseDeckText (text : string) : list ParsedEntry :=
  let lines :=
    filter (fun line => negb (is_empty (Js.trim line)))
      (Js.split Tally.newline (Js.trim text)) in
  concat (map parse_line lines).

End SavedDecks.


(** * The rest of the code around the draft engine *)

(** ** More JavaScript primitives *)

Module JsMore.

(** [c.toLowerCase()] on one code unit in 0..255: the letters A-Z and the
    accented capitals of Latin-1 (all of 192..222 but the multiplication
    sign 215) move up by 32. *)
Definition lower_char (c : ascii) : ascii :=
  let n := nat_of_ascii c in
  if ((65 <=? n)%nat && (n <=? 90)%nat)
     || ((192 <=? n)%nat && (n <=? 222)%nat && negb (n =? 215)%nat)
  then ascii_of_nat (n + 32)
  else c.

Fixpoint toLowerCase (s : string) : string :=
  match s with
  | String c rest => String (lower_char c) (toLowerCase rest)
  | EmptyString => EmptyString
  end.

(** [arr.includes(x)] for strings and for integers. *)
Definition includes_string (arr : list string) (x : string) : bool :=
  existsb (String.eqb x) arr.

Definition includes_number (arr : list Z) (x : Z) : bool :=
  existsb (Z.eqb x) arr.

(** [arr.find(p)]; [None] is [undefined]. *)
Fixpoint find {A} (p : A -> bool) (arr : list A) : option A :=
  match arr with
  | [] => None
  | x :: rest => if p x then Some x else find p rest
  end.

End JsMore.

(** ** lib/random.ts: [shuffle] *)

Module Shuffle.
Import Random.

(** [[copy[i], copy[j]] = [copy[j], copy[i]]]: both elements are read, then
    [copy[i]] and [copy[j]] are written in this order.  The loop only
    swaps positions inside the array; outside of it nothing is modelled
    and the array is left as it is. *)
Definition swap {T} (copy : list T) (i : nat) (j : Z) : list T :=
  match Js.index copy j, copy !! i with
  | Some at_j, Some at_i => <[Z.to_nat j := at_i]> (<[i := at_j]> copy)
  | _, _ => copy
  end.

(** The loop [for (let i = copy.length - 1; i > 0; i--)]. *)
Fixpoint shuffle_loop {T} (i : nat) (copy : list T) : M (list T) :=
  match i with
  | O => ret copy
  | S i' =>
      j <- randomInt (Z.of_nat i + 1) ;;
      shuffle_loop i' (swap copy i j)
  end.

Definition shuffle {T} (arr : list T) : M (list T) :=
  shuffle_loop (length arr - 1) arr.

End Shuffle.

(** ** lib/draft.ts: enriching a saved draft with [baseCard] *)

Module Enrich.
Import Types Draft.

#[global] Instance CardId_eq_dec : EqDecision CardId.
Proof. solve_decision. Defined.

#[global] Instance CardId_countable : Countable CardId.
Proof.
  refine (inj_countable'
            (fun i => match i with IdNumber n => inl n | IdString s => inr s end)
            (fun x => match x with inl n => IdNumber n | inr s => IdString s end) _).
  intros []; reflexivity.
Defined.

Definition set_baseCard (card : Card) (b : option bool) : Card :=
  mkCard (card_id card) (fullName card) (color card) (cost card) (images card)
    (card_type card) (keywordAbilities card) b (rarity card).

(** The lookup [Map] by id that [masterCards.forEach] fills: a later card
    replaces an earlier one of the same id. *)
Definition build_lookup (masterCards : list Card) : gmap CardId Card :=
  fold_left (fun lookup card => <[card_id card := card]> lookup) masterCards ∅.

Definition enrichCardWithBaseCard (card : Card) (masterCardLookup : gmap CardId Card) : Card :=
  let fallback :=
    match baseCard card with
    | Some _ => card
    | None => set_baseCard card (Some true)
    end in
  match masterCardLookup !! card_id card with
  | Some masterCard =>
      match baseCard masterCard with
      | Some b => set_baseCard card (Some b)
      | None => fallback
      end
  | None => fallback
  end.

(** A pick that is [undefined] (or [null] after a JSON round trip) makes
    the read of [card.id] throw. *)
Definition enrich_picked (lookup : gmap CardId Card) (card : option Card) : error + Card :=
  match card with
  | Some c => inr (enrichCardWithBaseCard c lookup)
  | None => inl TypeError
  end.

(** [arr.map(f)] with a callback that may throw. *)
Fixpoint map_throwing {A B} (f : A -> error + B) (arr : list A) : error + list B :=
  match arr with
  | [] => inr []
  | x :: rest =>
      match f x with
      | inl e => inl e
      | inr y =>
          match map_throwing f rest with
          | inl e => inl e
          | inr ys => inr (y :: ys)
          end
      end
  end.

Definition enrich_pack (lookup : gmap CardId Card) (pack : Pack) : Pack :=
  mkPack (pack_id pack) (map (fun c => enrichCardWithBaseCard c lookup) (cards pack))
    (removedLog pack).

Definition enrich_round (lookup : gmap CardId Card) (rd : RoundState) : RoundState :=
  mkRoundState (roundNumber rd) (map (enrich_pack lookup) (packs rd)) (turn rd).

Definition enrich_entry (lookup : gmap CardId Card) (entry : PickLogEntry)
  : error + PickLogEntry :=
  match enrich_picked lookup (picked entry) with
  | inl e => inl e
  | inr c =>
      inr (mkPickLogEntry (round entry) (log_turn entry) (packIndex entry) (Some c)
             (removedCounts entry))
  end.

Fixpoint enrichDraftStateWithBaseCard (state : DraftState) (masterCards : list Card)
  : error + DraftState :=
  match state with
  | mkDraftState master rs cr ct ps lg done buffer =>
      let lookup := build_lookup masterCards in
      let enrichedMasterCards := map (fun c => enrichCardWithBaseCard c lookup) master in
      match map_throwing (enrich_picked lookup) ps with
      | inl e => inl e
      | inr enrichedPicks =>
          let enrichedRounds := map (enrich_round lookup) rs in
          match map_throwing (enrich_entry lookup) lg with
          | inl e => inl e
          | inr enrichedLog =>
              match buffer with
              | None =>
                  inr (mkDraftState enrichedMasterCards enrichedRounds cr ct
                         (map Some enrichedPicks) enrichedLog done None)
              | Some b =>
                  match enrichDraftStateWithBaseCard b masterCards with
                  | inl e => inl e
                  | inr b' =>
                      inr (mkDraftState enrichedMasterCards enrichedRounds cr ct
                             (map Some enrichedPicks) enrichedLog done (Some b'))
                  end
              end
          end
      end
  end.

End Enrich.

(** ** App.tsx: Quick Sim *)

Module App.
Import Types Random Draft.

(** The loop of [handleQuickSim]: pick the first card until the draft is
    complete, and stop where the active pack is empty.  [fuel] bounds the
    number of times the loop condition is tested; [None] is a run that has
    not ended within it. *)
Fixpoint handleQuickSim (fuel : nat) (currentState : DraftState) (r : Rng)
  : option (error + DraftState * Rng) :=
  match fuel with
  | O => None
  | S fuel' =>
      if isComplete currentState then Some (inr (currentState, r))
      else
        match last (rounds currentState) with
        | None => Some (inl TypeError)
        | Some currentRoundState =>
            match Js.index (packs currentRoundState)
                    (getActivePackIndex (currentTurn currentState)) with
            | None => Some (inl TypeError)
            | Some activePack =>
                if Z.of_nat (length (cards activePack)) >? 0 then
                  match pickCard currentState 0 r with
                  | inr (s', r') => handleQuickSim fuel' s' r'
                  | inl e => Some (inl e)
                  end
                else Some (inr (currentState, r))
            end
        end
  end.

End App.

(** ** lib/deckUtils.js *)

Module DeckUtils.
Import Types.

Definition TYPE_ORDER : list string := ["Character"; "Action"; "Song"]%string.

Definition is_empty (s : string) : bool :=
  match s with EmptyString => true | _ => false end.

(** Normalize the card type into one of the primary groups. *)
Definition resolveCardType (card : Card) : string :=
  let baseType := Js.trim (default EmptyString (card_type card)) in
  if is_empty baseType then "Other"%string
  else
    let normalized := JsMore.toLowerCase baseType in
    if String.eqb normalized "character" then "Character"%string
    else if String.eqb normalized "action" then "Action"%string
    else if String.eqb normalized "song" then "Song"%string
    else baseType.

(** Whether a card has a keyword (case-insensitive). *)
Definition hasKeyword (card : Card) (keyword : string) : bool :=
  match keywordAbilities card with
  | None => false
  | Some ks =>
      if Z.of_nat (length ks) =? 0 then false
      else
        let target := JsMore.toLowerCase keyword in
        existsb (fun k => String.eqb (JsMore.toLowerCase k) target) ks
  end.

(** The filters; every field may be left out. *)
Record CardFilters : Type := mkCardFilters {
  filter_colors : option (list string);
  filter_costs : option (list Z);
  filter_types : option (list string);
  evasiveOnly : option bool
}.

(** The default [{}] of a [filters] argument that is left out. *)
Definition no_filters : CardFilters := mkCardFilters None None None None.

Definition matchesFilters (card : Card) (filters : CardFilters) : bool :=
  let colors := default [] (filter_colors filters) in
  let costs := default [] (filter_costs filters) in
  let types := default [] (filter_types filters) in
  let evasive := default false (evasiveOnly filters) in
  if (Z.of_nat (length colors) >? 0) && negb (JsMore.includes_string colors (color card))
  then false
  else
    let cost := match cost card with Some n => n | None => -1 end in
    if (Z.of_nat (length costs) >? 0) && negb (JsMore.includes_number costs cost)
    then false
    else
      let cardType := resolveCardType card in
      if (Z.of_nat (length types) >? 0) && negb (JsMore.includes_string types cardType)
      then false
      else if evasive && negb (hasKeyword card "Evasive") then false
      else true.

Definition filterCards (cards : list Card) (filters : CardFilters) : list Card :=
  List.filter (fun card => matchesFilters card filters) cards.

(** The sort options.  The fallback [comparators[sortOption] ||
    comparators['default']] is for a value that is none of them; the
    argument left out is ['default']. *)
Inductive SortOption : Type := SortDefault | CostAsc | CostDesc | ByName | ByColor.

(** A group of cards of one type. *)
Record Group : Type := mkGroup {
  group_type : string;
  group_cards : list Card
}.

Record DisplayGroups : Type := mkDisplayGroups {
  filteredCards : list Card;
  groups : list Group
}.

Section WithLocale.

Variable localeCompare : string -> string -> Z.

Definition MAX_SAFE_INTEGER : Z := 2 ^ 53 - 1.

Definition getCost (card : Card) : Z :=
  match cost card with
  | Some n => n
  | None => MAX_SAFE_INTEGER
  end.

(** The comparators.  The cost difference is taken exactly; a sort looks
    at its sign only. *)
Definition compare_cost_asc (a b : Card) : Z :=
  let costDiff := getCost a - getCost b in
  if negb (costDiff =? 0) then costDiff
  else localeCompare (fullName a) (fullName b).

Definition compare_cost_desc (a b : Card) : Z :=
  let costDiff := getCost b - getCost a in
  if negb (costDiff =? 0) then costDiff
  else localeCompare (fullName a) (fullName b).

Definition compare_name (a b : Card) : Z :=
  localeCompare (fullName a) (fullName b).

Definition compare_color (a b : Card) : Z :=
  let colorDiff := localeCompare (color a) (color b) in
  if negb (colorDiff =? 0) then colorDiff
  else compare_cost_asc a b.

Definition getSortComparator (sortOption : SortOption) : Card -> Card -> Z :=
  match sortOption with
  | SortDefault => compare_cost_asc
  | CostAsc => compare_cost_asc
  | CostDesc => compare_cost_desc
  | ByName => compare_name
  | ByColor => compare_color
  end.

Definition sortCards (cards : list Card) (sortOption : SortOption) : list Card :=
  Js.sort (getSortComparator sortOption) cards.

(** The [Map] of buckets, as its entries in insertion order. *)
Definition Buckets : Type := list (string * list Card).

Fixpoint bucket_get (type : string) (buckets : Buckets) : option (list Card) :=
  match buckets with
  | [] => None
  | (k, cs) :: rest => if String.eqb k type then Some cs else bucket_get type rest
  end.

(** [buckets.delete(type)]. *)
Fixpoint bucket_delete (type : string) (buckets : Buckets) : Buckets :=
  match buckets with
  | [] => []
  | (k, cs) :: rest =>
      if String.eqb k type then rest else (k, cs) :: bucket_delete type rest
  end.

(** [if (!buckets.has(type)) buckets.set(type, []);
    buckets.get(type).push(card)]. *)
Fixpoint bucket_push (type : string) (card : Card) (buckets : Buckets) : Buckets :=
  match buckets with
  | [] => [(type, [card])]
  | (k, cs) :: rest =>
      if String.eqb k type then (k, cs ++ [card]) :: rest
      else (k, cs) :: bucket_push type card rest
  end.

Definition fill_buckets (cards : list Card) : Buckets :=
  fold_left (fun buckets card => bucket_push (resolveCardType card) card buckets) cards [].

(** One call of the callback of [TYPE_ORDER.forEach]; the state is the
    groups so far and the buckets that are left. *)
Definition take_primary (sortOption : SortOption) (acc : list Group * Buckets) (type : string)
  : list Group * Buckets :=
  match bucket_get type (snd acc) with
  | Some cs =>
      (fst acc ++ [mkGroup type (sortCards cs sortOption)], bucket_delete type (snd acc))
  | None => acc
  end.

(** One call of the callback of [remainingTypes.forEach]; the type is a
    key of the map, so that [buckets.get(type)] is an array. *)
Definition take_remaining (sortOption : SortOption) (buckets : Buckets)
    (orderedGroups : list Group) (type : string) : list Group :=
  match bucket_get type buckets with
  | Some cs => orderedGroups ++ [mkGroup type (sortCards cs sortOption)]
  | None => orderedGroups
  end.

(** Group cards by type, the primary types first and in their order. *)
Definition groupCardsByType (cards : list Card) (sortOption : SortOption) : list Group :=
  let buckets := fill_buckets cards in
  let primary := fold_left (take_primary sortOption) TYPE_ORDER ([], buckets) in
  let remainingTypes := Js.sort localeCompare (map fst (snd primary)) in
  fold_left (take_remaining sortOption (snd primary)) remainingTypes (fst primary).

(** Grouped and filtered cards for the display. *)
Definition buildDisplayGroups (cards : list Card) (filters : CardFilters)
    (sortOption : SortOption) : DisplayGroups :=
  let filtered := filterCards cards filters in
  mkDisplayGroups filtered (groupCardsByType filtered sortOption).

End WithLocale.

End DeckUtils.

(** ** components/SavedDecks.tsx: importing a deck *)

Module ImportDeck.
Import Types SavedDecks.

(** [masterCards.find(...)] for a parsed entry: by name and color when the
    entry has a color, else by name only. *)
Definition find_match (masterCards : list Card) (name : string) (col : option string)
  : option Card :=
  match col with
  | Some c =>
      if is_empty c
      then JsMore.find (fun card => String.eqb (fullName card) name) masterCards
      else JsMore.find (fun card => String.eqb (fullName card) name
                                    && String.eqb (color card) c) masterCards
  | None => JsMore.find (fun card => String.eqb (fullName card) name) masterCards
  end.

(** The line reported for an entry without a match; the second code unit
    is the multiplication sign. *)
Definition unmatched_line (entry : ParsedEntry) : string :=
  String.append (Js.number_to_string (parsed_count entry))
    (String "215" (String " "
       (String.append (parsed_fullName entry)
          (match parsed_color entry with
           | Some c => if is_empty c then EmptyString else String.append " - " c
           | None => EmptyString
           end)))).

(** The body of the loop over the parsed entries; the state is the cards
    and the unmatched lines so far.  The matched card is pushed [count]
    times. *)
Definition match_entry (masterCards : list Card) (acc : list Card * list string)
    (entry : ParsedEntry) : list Card * list string :=
  match find_match masterCards (parsed_fullName entry) (parsed_color entry) with
  | Some matchedCard =>
      (fst acc ++ replicate (Z.to_nat (parsed_count entry)) matchedCard, snd acc)
  | None => (fst acc, snd acc ++ [unmatched_line entry])
  end.

Definition match_cards (masterCards : list Card) (parsed : list ParsedEntry)
  : list Card * list string :=
  fold_left (match_entry masterCards) parsed ([], []).

(** What the handler comes to: one of its error messages, a return
    without one, or the call of [saveDraft] with a name and a draft state,
    together with the unmatched lines that are reported afterwards. *)
Inductive Outcome : Type :=
| CardDataNotLoaded
| NoDeckText
| NoValidCards
| NoCardsMatched
| Cancelled
| SaveDraft (name : string) (draftState : DraftState) (unmatched : list string).

(** [handleImportDeck], as a function of the card data, the text pasted
    and the answer to the prompt for a name ([None] when the prompt is
    dismissed).  What follows the call of [saveDraft] is left out. *)
Definition handleImportDeck (masterCards : option (list Card)) (importText : string)
    (answer : option string) : Outcome :=
  match masterCards with
  | None => CardDataNotLoaded
  | Some master =>
      if Z.of_nat (length master) =? 0 then CardDataNotLoaded
      else if is_empty (Js.trim importText) then NoDeckText
      else
        let parsed := parseDeckText importText in
        if Z.of_nat (length parsed) =? 0 then NoValidCards
        else
          let out := match_cards master parsed in
          if Z.of_nat (length (fst out)) =? 0 then NoCardsMatched
          else
            match answer with
            | None => Cancelled
            | Some draftName =>
                if is_empty draftName || is_empty (Js.trim draftName) then Cancelled
                else
                  SaveDraft (Js.trim draftName)
                    (mkDraftState master [] 6 13 (map Some (fst out)) [] true None)
                    (snd out)
            end
  end.

End ImportDeck.

(** ** components/SavedDecks.tsx: building a deck from a draft *)

Module DeckBuilder.
Import Types.

Definition MAX_DECK_SIZE : Z := 40.

Record Status : Type := mkStatus {
  tone : string;
  message : string
}.

(** The update of the selection in [handleToggleCard] of
    [SavedDraftDetail], with the status it sets ([None] for [null]). *)
Definition handleToggleCard (prev : list Z) (index : Z) : list Z * option Status :=
  if JsMore.includes_number prev index
  then (List.filter (fun i => negb (i =? index)) prev, None)
  else if Z.of_nat (length prev) >=? MAX_DECK_SIZE
  then (prev,
        Some (mkStatus "error"
                (String.append "You can only select up to "
                   (String.append (Js.number_to_string MAX_DECK_SIZE) " cards."))))
  else (prev ++ [index], None).

(** [selectedIndices.map(idx => cards[idx]).filter(Boolean)]. *)
Definition selectedCards (cards : list (option Card)) (selectedIndices : list Z) : list Card :=
  omap (fun idx => match Js.index cards idx with
                   | Some (Some card) => Some card
                   | _ => None
                   end) selectedIndices.

(** The indices that the effect of [EditDeckCards] selects: for every
    card of the deck the first pick of the same name and color, if there is
    one.  [None]: without picks the effect returns and sets nothing. *)
Definition initial_step (availableCards : list Card) (indices : list Z) (deckCard : Card)
  : list Z :=
  let index :=
    Js.findIndex (fun c => String.eqb (fullName c) (fullName deckCard)
                           && String.eqb (color c) (color deckCard)) availableCards in
  if negb (index =? -1) then indices ++ [index] else indices.

Definition initial_indices (availableCards currentDeckCards : list Card)
  : option (list Z) :=
  if Z.of_nat (length availableCards) =? 0 then None
  else Some (fold_left (initial_step availableCards) currentDeckCards []).

End DeckBuilder.

(** ** clean_duplicates.js

    The script marks, among the cards of a name, the one of the lowest
    rarity as the base card.  Reading and writing the JSON files is left
    out: [processedCards] is the array it writes, as a function of the
    array it reads. *)

Module CleanDuplicates.
Import Types.

(** Rarity hierarchy (lowest to highest). *)
Definition RARITY_ORDER : gmap string Z :=
  list_to_map
    [("Common"%string, 1); ("Uncommon"%string, 2); ("Rare"%string, 3);
     ("Super Rare"%string, 4); ("Legendary"%string, 5)].

(** The names that [RARITY_ORDER] inherits from [Object.prototype]: looked
    up in it they give a function or an object, not a number. *)
Definition inherited_keys : list string := Js.inherited_keys.

(** [RARITY_ORDER[rarity] || 999].  [None] is a result that is not a
    number: what the object inherits is truthy. *)
Definition getRarityValue (rarity : string) : option Z :=
  match RARITY_ORDER !! rarity with
  | Some v => Some (if v =? 0 then 999 else v)
  | None => if bool_decide (rarity ∈ inherited_keys) then None else Some 999
  end.

(** The difference of the two values; [None] is [NaN]. *)
Definition compareRarity (rarity1 rarity2 : string) : option Z :=
  match getRarityValue rarity1, getRarityValue rarity2 with
  | Some v1, Some v2 => Some (v1 - v2)
  | _, _ => None
  end.

(** An entry [{ card, index }] of a group. *)
Record Entry : Type := mkEntry {
  entry_card : Card;
  entry_index : nat
}.

Definition is_empty (s : string) : bool :=
  match s with EmptyString => true | _ => false end.

(** The [Map] from names to entries, as its entries in insertion order. *)
Definition Groups : Type := list (string * list Entry).

(** [if (!map.has(name)) map.set(name, []); map.get(name).push(entry)]. *)
Fixpoint group_push (name : string) (e : Entry) (m : Groups) : Groups :=
  match m with
  | [] => [(name, [e])]
  | (k, es) :: rest =>
      if String.eqb k name then (k, es ++ [e]) :: rest
      else (k, es) :: group_push name e rest
  end.

(** The callback of [data.cards.forEach]: a card without a name is
    skipped. *)
Definition group_step (m : Groups) (e : Entry) : Groups :=
  let name := fullName (entry_card e) in
  if is_empty name then m else group_push name e m.

(** The cards with the indices that [forEach] passes, from [index] on. *)
Fixpoint entries_from (index : nat) (cards : list Card) : list Entry :=
  match cards with
  | [] => []
  | card :: rest => mkEntry card index :: entries_from (S index) rest
  end.

Definition cardsByFullName (cards : list Card) : Groups :=
  fold_left group_step (entries_from 0 cards) [].

(** [card.rarity || 'Common']. *)
Definition rarity_or_common (card : Card) : string :=
  match rarity card with
  | Some r => if is_empty r then "Common"%string else r
  | None => "Common"%string
  end.

(** The comparator of the sort of a group: lower rarity first. *)
Definition compare_entries (a b : Entry) : option Z :=
  compareRarity (rarity_or_common (entry_card a)) (rarity_or_common (entry_card b)).

(** [Array.prototype.sort] takes a comparator result of [NaN] as [+0]. *)
Definition sort_compare (a b : Entry) : Z :=
  match compare_entries a b with
  | Some v => v
  | None => 0
  end.

(** [processedCards[index].baseCard = b], for an index of the array. *)
Definition set_flag (b : bool) (index : nat) (processed : list Card) : list Card :=
  alter (fun card => Enrich.set_baseCard card (Some b)) index processed.

(** The callback of [cardsByFullName.forEach]; a group is never empty. *)
Definition mark_group (processed : list Card) (group : string * list Entry) : list Card :=
  let cardEntries := snd group in
  if Z.of_nat (length cardEntries) >? 1 then
    match Js.sort sort_compare cardEntries with
    | first :: others =>
        fold_left (fun p e => set_flag false (entry_index e) p) others
          (set_flag true (entry_index first) processed)
    | [] => processed
    end
  else
    match cardEntries with
    | e :: _ => set_flag true (entry_index e) processed
    | [] => processed
    end.

Definition processedCards (cards : list Card) : list Card :=
  fold_left mark_group (cardsByFullName cards) cards.

End CleanDuplicates.
(** * Vocabulary of the statements *)

Import Types Random RandomUtil Clone Draft.

(** What a freshly drawn pack is: its size, and that it is drawn from the
    pool without replacement (together with the cards left undrawn it is a
    rearrangement of the pool). *)
Definition drawn_from (pool : list Card) (pack : Pack) : Prop :=
  length (cards pack) = Nat.min 12 (length pool)
  /\ exists rest, cards pack ++ rest ≡ₚ pool.

(** The specification's view of the rarity branch: the rank of a card, the
    greatest rank in a pack, and the positions that hold it.  A rank is a
    number, or [None] for a rarity whose value is not a number; such a card
    has no part in the comparison of the ranks. *)
Definition rank (card : Card) : option Z := getRarityValue (rarity card).

Definition max_rank_from (m : Z) (cards : list Card) : Z :=
  fold_left Z.max (omap rank cards) m.

Definition max_rank (cards : list Card) : Z := max_rank_from (-1) cards.

Definition has_rank (v : Z) (card : Card) : bool :=
  match rank card with
  | Some v' => v' =? v
  | None => false
  end.

Fixpoint indices_at (v : Z) (cards : list Card) (i : Z) : list Z :=
  match cards with
  | [] => []
  | card :: rest => (if has_rank v card then [i] else []) ++ indices_at v rest (i + 1)
  end.

Definition rarest_indices (cards : list Card) : list Z :=
  indices_at (max_rank cards) cards 0.

(** The card at a position is one of greatest rank: its rank is a number
    and no card of the pack has a greater one. *)
Definition greatest_rank (cards : list Card) (k : Z) : Prop :=
  exists c v,
    Js.index cards k = Some c /\ rank c = Some v
    /\ Forall (fun c' => forall v', rank c' = Some v' -> v' <= v) cards.

(** The part of the unit interval that a sample selects: [chosen v n k]
    when the product of the sample [v / 2^53] and [n], as the machine
    rounds it, lies in [k, k + 1). *)
Definition chosen (v : N) (n : nat) (k : Z) : Prop :=
  k * Z.of_N precision <= round_to_double (Z.of_N v * Z.of_nat n)
    < (k + 1) * Z.of_N precision.

(** The mixed removal policy in the specification's words, for the contents
    of a pack before and after, given the sample [u] that decides the
    branch and the sample [v] that decides the choice (numerators over
    [precision]): nothing happens to an empty pack; below one half the card
    at position [k] goes, where [v] selects the k-th of [length before]
    equal parts of the unit interval; otherwise the card goes that is the
    j-th of those of greatest rank, the only one or else the one whose part
    [v] selects.  The last case is that of a pack in which no rank is a
    number: the choice among no positions reads nothing, and the first card
    goes. *)
Inductive mixed_removal (u v : N) (before after : list Card) : Prop :=
| removal_skipped :
    before = [] -> after = [] -> mixed_removal u v before after
| removal_random (k : Z) :
    before <> [] -> (2 * u < precision)%N ->
    0 <= k < Z.of_nat (length before) ->
    chosen v (length before) k ->
    after = delete (Z.to_nat k) before ->
    mixed_removal u v before after
| removal_rarest (j k : Z) :
    before <> [] -> (precision <= 2 * u)%N ->
    Js.index (rarest_indices before) j = Some k ->
    (length (rarest_indices before) = 1%nat
     \/ chosen v (length (rarest_indices before)) j) ->
    after = delete (Z.to_nat k) before ->
    mixed_removal u v before after
| removal_unranked :
    before <> [] -> (precision <= 2 * u)%N ->
    rarest_indices before = [] ->
    after = delete 0%nat before ->
    mixed_removal u v before after.

Definition sample (r : Rng) (i : nat) : N := (r i mod precision)%N.

(** The samples that the removal from a pack draws, given the sample [u]
    that decides the branch: none for an empty pack, the branch sample
    alone when one card is of greatest rank, and else a second one for the
    choice. *)
Definition samples_drawn (u : N) (before : list Card) : nat :=
  match before with
  | [] => 0
  | _ :: _ =>
      if below_half u then 2
      else if (length (rarest_indices before) =? 1)%nat then 1 else 2
  end.

(** The place in the stream at which the removal loop, at index [i] with
    the packs from [i] on, comes to the pack [j] places further. *)
Fixpoint stream_offset (packIndex i : Z) (packs : list Pack) (r : Rng) (j : nat) : nat :=
  match j, packs with
  | S j', pack :: rest =>
      let used :=
        if i =? packIndex then 0%nat else samples_drawn (sample r 0) (cards pack) in
      (used + stream_offset packIndex (i + 1) rest (fun k => r (used + k)%nat) j')%nat
  | _, _ => 0%nat
  end.

(** Pack sizes after the loop, and the count it returns, as functions of
    the sizes before. *)
Fixpoint sizes_after (packIndex i : Z) (sizes : list nat) : list nat :=
  match sizes with
  | [] => []
  | n :: rest =>
      (if i =? packIndex then n else Nat.pred n) :: sizes_after packIndex (i + 1) rest
  end.

Fixpoint removed_total (packIndex i : Z) (sizes : list nat) : Z :=
  match sizes with
  | [] => 0
  | n :: rest =>
      (if i =? packIndex then 0 else if (0 <? n)%nat then 1 else 0)
      + removed_total packIndex (i + 1) rest
  end.

Definition pack_sizes (packs : list Pack) : list nat :=
  map (fun p => length (cards p)) packs.

(** The pack a pick is taken from, if the state has one. *)
Definition active_pack (s : DraftState) : option Pack :=
  match last (rounds s) with
  | Some rd => Js.index (packs rd) (getActivePackIndex (currentTurn s))
  | None => None
  end.

(** The state that [pickCard] hands to [advance]. *)
Definition picked_state (s : DraftState) (cardIndex : Z) (rd : RoundState) (ap : Pack)
    (out : list Pack * Z) : DraftState :=
  let pickedCard := head (fst (Js.splice1 (cards ap) cardIndex)) in
  mkDraftState (masterCards s)
    (Js.set_last (rounds s) (mkRoundState (roundNumber rd) (fst out) (turn rd)))
    (currentRound s) (currentTurn s)
    (picks s ++ [pickedCard])
    (log s ++ [mkPickLogEntry (currentRound s) (currentTurn s)
                 (getActivePackIndex (currentTurn s)) pickedCard (snd out)])
    (isComplete s) (Some s).

Definition packs_after_pick (cardIndex : Z) (rd : RoundState) (ap : Pack)
    (packIndex : Z) : list Pack :=
  <[Z.to_nat packIndex := set_cards ap (snd (Js.splice1 (cards ap) cardIndex))]> (packs rd).

(** The picks that the board offers: the draft is not complete and the
    index is a position in the active pack. *)
Definition valid_index (s : DraftState) (i : Z) : bool :=
  negb (isComplete s)
  && match active_pack s with
     | Some ap => (0 <=? i) && (i <? Z.of_nat (length (cards ap)))
     | None => false
     end.

(** A run of picks, every one of them valid when it is made. *)
Fixpoint pick_all (s : DraftState) (indices : list Z) (r : Rng) : option (DraftState * Rng) :=
  match indices with
  | [] => Some (s, r)
  | i :: rest =>
      if valid_index s i then
        match pickCard s i r with
        | inr (s', r') => pick_all s' rest r'
        | inl _ => None
        end
      else None
  end.

Definition all_packs (k : nat) (rd : RoundState) : Prop :=
  pack_sizes (packs rd) = replicate 6 k.

(** The draft in round [q + 1] at turn [t + 1], over the pool [pool]. *)
Record in_progress (pool : list Card) (q t : nat) (s : DraftState) : Prop := {
  ip_pool : masterCards s = pool;
  ip_open : isComplete s = false;
  ip_round : currentRound s = Z.of_nat q + 1;
  ip_turn : currentTurn s = Z.of_nat t + 1;
  ip_picks : length (picks s) = (12 * q + t)%nat;
  ip_log : length (log s) = (12 * q + t)%nat;
  ip_rounds :
    exists done cur,
      rounds s = done ++ [cur] /\ length done = q
      /\ Forall (all_packs 0) done /\ all_packs (12 - t) cur
}.

Record finished (s : DraftState) : Prop := {
  fin_complete : isComplete s = true;
  fin_picks : length (picks s) = 72%nat;
  fin_log : length (log s) = 72%nat;
  fin_rounds : length (rounds s) = 6%nat;
  fin_empty : Forall (all_packs 0) (rounds s)
}.

(** The draft after [n] picks. *)
Definition reached (pool : list Card) (n : nat) (s : DraftState) : Prop :=
  (exists q t, n = (12 * q + t)%nat /\ (t < 12)%nat /\ (q < 6)%nat /\ in_progress pool q t s)
  \/ (n = 72%nat /\ finished s).

(** A pool of twelve cards, a pool of three, and a stream of samples for
    the examples. *)
Definition demo_card (n : nat) : Card :=
  mkCard (IdNumber (Z.of_nat n))
    (String.append "Card " (Js.number_to_string (Z.of_nat n))) "Amber"
    (Some (Z.of_nat (n mod 5))) None (Some "Character"%string) None (Some true)
    (Some (if (n mod 3 =? 0)%nat then "Rare" else "Common")%string).

Definition demo_pool : list Card := map demo_card (seq 0 12).

Definition small_pool : list Card := map demo_card (seq 0 3).

Definition demo_rng : Rng := fun i => (N.of_nat i * 1234567890123457 + 4503599627370496)%N.

Definition demo_start : DraftState := fst (createNewDraft demo_pool demo_rng).

Definition demo_start_rng : Rng := snd (createNewDraft demo_pool demo_rng).

(** The state of the demo draft after a run of picks, valid or not. *)
Fixpoint demo_picks (s : DraftState) (indices : list Z) (r : Rng) : option DraftState :=
  match indices with
  | [] => Some s
  | i :: rest =>
      match pickCard s i r with
      | inr (s', r') => demo_picks s' rest r'
      | inl _ => None
      end
  end.

Definition demo_after (indices : list Z) : option DraftState :=
  demo_picks demo_start indices demo_start_rng.

(** Cards whose rarity is a name that every object inherits, and a card
    without a rarity. *)
Definition odd_card (n : Z) (name : string) (r : option string) : Card :=
  mkCard (IdNumber n) name "Ruby" None None None None None r.

Definition unranked_pack : Pack :=
  mkPack "R1P2"
    [odd_card 1 "First" (Some "constructor"%string);
     odd_card 2 "Second" (Some "constructor"%string)] [].

Definition half_ranked_pack : Pack :=
  mkPack "R1P3"
    [odd_card 1 "First" (Some "constructor"%string); odd_card 3 "Third" None] [].

Definition rarity_names : list string :=
  ["Common"; "Uncommon"; "Rare"; "Super Rare"; "Legendary"; "Epic"; "Iconic";
   "Enchanted"; "Special"]%string.

(** The draft of the examples in round 2 at turn 7. *)
Definition demo_round2_turn7 : DraftState :=
  default demo_start (demo_after (replicate 18 0)).

(** The order of the tally: count descending, then name ascending. *)
Definition tally_order (localeCompare : string -> string -> Z) (a b : TallyEntry) : Prop :=
  count a > count b
  \/ (count a = count b /\ localeCompare (tally_fullName a) (tally_fullName b) <= 0).

Definition bump (e : TallyEntry) : TallyEntry :=
  mkTallyEntry (count e + 1) (tally_fullName e) (tally_color e).

Definition first_entry (c : Card) : TallyEntry :=
  mkTallyEntry 1 (fullName c) (color c).

(** The picks that fall under a key, and the entry the specification
    expects for them: their number, under the names of the first. *)
Definition same_key (k : string) (c : Card) : bool :=
  String.eqb (Tally.tally_key c) k.

Definition entry_for (k : string) (picks : list Card) : option TallyEntry :=
  match List.filter (same_key k) picks with
  | [] => None
  | c0 :: rest =>
      Some (mkTallyEntry (Z.of_nat (length (c0 :: rest))) (fullName c0) (color c0))
  end.

(** A collation for the examples: comparison of the strings code unit by
    code unit. *)
Definition code_unit_compare (a b : string) : Z :=
  match String.compare a b with
  | Lt => -1
  | Eq => 0
  | Gt => 1
  end.

(** Strings without the separator of the tally key. *)
Definition bar_free (s : string) : bool :=
  forallb (fun ch => negb (Ascii.eqb ch "|")) (list_ascii_of_string s).

(** The picks of one group: the same name and the same color. *)
Definition same_group (name col : string) (c : Card) : bool :=
  String.eqb (fullName c) name && String.eqb (color c) col.

Definition tally_card (name col : string) : Card :=
  mkCard (IdNumber 0) name col None None None None None None.

Definition scenario_E_picks : list Card :=
  [tally_card "Card B" "Ruby"; tally_card "Card A" "Amber"; tally_card "Card A" "Amber"].

(** Strings of decimal digits, and the legacy line of an exported entry. *)
Fixpoint all_digits (s : string) : bool :=
  match s with
  | String c rest => Js.is_digit c && all_digits rest
  | EmptyString => true
  end.

Definition legacy_line (n : Z) (name col : string) : string :=
  String.append (Js.number_to_string n)
    (String.append " - " (String.append name (String.append " - " col))).


(** ** Vocabulary of the further properties *)

(** The states that the operations of the engine lead to from a new draft
    over [pool]: picks at any index, valid or not, undos and resets of the
    round. *)
Inductive reachable (pool : list Card) : DraftState -> Prop :=
| reach_new (r : Rng) :
    reachable pool (fst (createNewDraft pool r))
| reach_pick (s : DraftState) (i : Z) (r : Rng) (s' : DraftState) (r' : Rng) :
    reachable pool s -> pickCard s i r = inr (s', r') -> reachable pool s'
| reach_undo (s s' : DraftState) :
    reachable pool s -> undoLastPick s = Some s' -> reachable pool s'
| reach_reset (s : DraftState) (r : Rng) :
    reachable pool s -> reachable pool (fst (resetRound s r)).

(** A pick is a card of the pool, or the [undefined] of a pick at an index
    outside the pack. *)
Definition from_pool (pool : list Card) (pick : option Card) : Prop :=
  match pick with
  | Some c => In c pool
  | None => True
  end.

(** A pack of a draft over [pool] holds at most twelve cards, and no card
    more often than the pool does. *)
Definition fits (pool : list Card) (p : Pack) : Prop :=
  cards p ⊆+ pool /\ (length (cards p) <= 12)%nat.

(** What every state of a draft over [pool] satisfies, its undo buffer
    apart. *)
Record sound (pool : list Card) (s : DraftState) : Prop := {
  sound_pool : masterCards s = pool;
  sound_turn : 1 <= currentTurn s;
  sound_round : 1 <= currentRound s <= 6;
  sound_rounds : Z.of_nat (length (rounds s)) = currentRound s;
  sound_packs : Forall (fun rd => length (packs rd) = 6%nat) (rounds s);
  sound_cards : Forall (fun rd => Forall (fits pool) (packs rd)) (rounds s);
  sound_log : map picked (log s) = picks s;
  sound_picks : Forall (from_pool pool) (picks s);
  sound_done : 12 < currentTurn s -> isComplete s = true
}.

(** The same of the state and of every state kept in its chain of undo
    buffers. *)
Fixpoint well_formed (pool : list Card) (s : DraftState) : Prop :=
  match s with
  | mkDraftState master rs cr ct ps lg done buffer =>
      sound pool (mkDraftState master rs cr ct ps lg done buffer)
      /\ match buffer with
         | Some b => well_formed pool b
         | None => True
         end
  end.

(** A draft over a pool of [m] cards, fewer than twelve, after [t] valid
    picks: still in its first round, with [m - t] cards in every pack. *)
Record short_of_cards (pool : list Card) (t : nat) (s : DraftState) : Prop := {
  short_pool : masterCards s = pool;
  short_open : isComplete s = false;
  short_round : currentRound s = 1;
  short_turn : currentTurn s = Z.of_nat t + 1;
  short_picks : length (picks s) = t;
  short_bound : (t <= length pool)%nat;
  short_rounds : exists cur, rounds s = [cur] /\ all_packs (length pool - t) cur
}.

(** Whether an optional value is there. *)
Definition defined {A} (x : option A) : bool :=
  match x with
  | Some _ => true
  | None => false
  end.

(** Every pick of the state and of its log is a card, and so in every
    state of the chain of undo buffers. *)
Fixpoint picks_defined (s : DraftState) : bool :=
  match s with
  | mkDraftState _ _ _ _ ps lg _ buffer =>
      forallb defined ps
      && forallb (fun e => defined (picked e)) lg
      && match buffer with
         | Some b => picks_defined b
         | None => true
         end
  end.

(** Every card of the state has its [baseCard] flag. *)
Definition flagged (c : Card) : bool := defined (baseCard c).

Definition pick_flagged (p : option Card) : bool :=
  match p with
  | Some c => flagged c
  | None => false
  end.

Fixpoint all_flagged (s : DraftState) : bool :=
  match s with
  | mkDraftState master rs _ _ ps lg _ buffer =>
      forallb flagged master
      && forallb (fun rd => forallb (fun p => forallb flagged (cards p)) (packs rd)) rs
      && forallb pick_flagged ps
      && forallb (fun e => pick_flagged (picked e)) lg
      && match buffer with
         | Some b => all_flagged b
         | None => true
         end
  end.

(** The state with the [baseCard] flag of every card erased. *)
Definition without_flag (c : Card) : Card := Enrich.set_baseCard c None.

Definition pack_without_flags (p : Pack) : Pack :=
  mkPack (pack_id p) (map without_flag (cards p)) (removedLog p).

Definition round_without_flags (rd : RoundState) : RoundState :=
  mkRoundState (roundNumber rd) (map pack_without_flags (packs rd)) (turn rd).

Definition entry_without_flags (e : PickLogEntry) : PickLogEntry :=
  mkPickLogEntry (round e) (log_turn e) (packIndex e) (option_map without_flag (picked e))
    (removedCounts e).

Fixpoint without_flags (s : DraftState) : DraftState :=
  match s with
  | mkDraftState master rs cr ct ps lg done buffer =>
      mkDraftState (map without_flag master) (map round_without_flags rs) cr ct
        (map (option_map without_flag) ps) (map entry_without_flags lg) done
        (match buffer with
         | Some b => Some (without_flags b)
         | None => None
         end)
  end.

(** The card with another type. *)
Definition with_type (card : Card) (t : string) : Card :=
  mkCard (card_id card) (fullName card) (color card) (cost card) (images card)
    (Some t) (keywordAbilities card) (baseCard card) (rarity card).

(** The cards of one type. *)
Definition of_type (t : string) (card : Card) : bool :=
  String.eqb (DeckUtils.resolveCardType card) t.

(** The orders of the sort options, in words: by cost with the cards
    without a cost last, then by name; by cost descending, then by name; by
    name; by color, then by cost and name. *)
Definition by_cost_then_name (localeCompare : string -> string -> Z) (a b : Card) : Prop :=
  DeckUtils.getCost a < DeckUtils.getCost b
  \/ (DeckUtils.getCost a = DeckUtils.getCost b
      /\ localeCompare (fullName a) (fullName b) <= 0).

Definition sort_order (localeCompare : string -> string -> Z)
    (sortOption : DeckUtils.SortOption) (a b : Card) : Prop :=
  match sortOption with
  | DeckUtils.SortDefault | DeckUtils.CostAsc => by_cost_then_name localeCompare a b
  | DeckUtils.CostDesc =>
      DeckUtils.getCost a > DeckUtils.getCost b
      \/ (DeckUtils.getCost a = DeckUtils.getCost b
          /\ localeCompare (fullName a) (fullName b) <= 0)
  | DeckUtils.ByName => localeCompare (fullName a) (fullName b) <= 0
  | DeckUtils.ByColor =>
      localeCompare (color a) (color b) < 0
      \/ (localeCompare (color a) (color b) = 0 /\ by_cost_then_name localeCompare a b)
  end.

(** A collation that is a consistent order: exchanging the arguments
    exchanges the sign, and "at most" is transitive. *)
Definition consistent (localeCompare : string -> string -> Z) : Prop :=
  (forall a b, localeCompare a b < 0 <-> localeCompare b a > 0)
  /\ (forall a b c, localeCompare a b <= 0 -> localeCompare b c <= 0 ->
      localeCompare a c <= 0).

(** The group of the cards of one type, in the order of the sort option,
    and the primary types that occur among the cards. *)
Definition type_group (localeCompare : string -> string -> Z) (cards : list Card)
    (sortOption : DeckUtils.SortOption) (t : string) : DeckUtils.Group :=
  DeckUtils.mkGroup t (DeckUtils.sortCards localeCompare (List.filter (of_type t) cards) sortOption).

Definition primary_types (cards : list Card) : list string :=
  List.filter (fun t => existsb (of_type t) cards) DeckUtils.TYPE_ORDER.

(** The group that a bucket gives, if the type has one. *)
Definition bucket_groups (localeCompare : string -> string -> Z)
    (sortOption : DeckUtils.SortOption) (buckets : DeckUtils.Buckets) (t : string)
  : list DeckUtils.Group :=
  match DeckUtils.bucket_get t buckets with
  | Some cs => [DeckUtils.mkGroup t (DeckUtils.sortCards localeCompare cs sortOption)]
  | None => []
  end.

(** A name that the export and the import keep as it is: not empty,
    without white space around it and without a line terminator in it. *)
Definition plain_name (s : string) : bool :=
  negb (SavedDecks.is_empty s) && String.eqb (Js.trim s) s && SavedDecks.no_line_terminator s.

(** What an import reads from the line of a tally entry. *)
Definition parsed_entry (t : TallyEntry) : SavedDecks.ParsedEntry :=
  SavedDecks.mkParsedEntry (count t) (tally_fullName t) None.

(** A well-formed entry of a parsed deck text. *)
Definition entry_ok (e : SavedDecks.ParsedEntry) : Prop :=
  1 <= SavedDecks.parsed_count e
  /\ SavedDecks.parsed_fullName e <> EmptyString
  /\ Js.trim (SavedDecks.parsed_fullName e) = SavedDecks.parsed_fullName e
  /\ match SavedDecks.parsed_color e with
     | Some col => In col SavedDecks.colors
     | None => True
     end.

(** The selection after a run of toggles, from the empty selection. *)
Definition toggle_all (indices : list Z) : list Z :=
  fold_left (fun prev index => fst (DeckBuilder.handleToggleCard prev index)) indices [].

(** A string that starts and ends with code units that are no white
    space. *)
Definition solid (s : string) : Prop :=
  (exists c rest, s = String c rest /\ Js.is_whitespace c = false) /\ Js.trimEnd s = s.

(** A card that an entry of a parsed deck text is matched by: it has the
    name of the entry, and its color when the entry has one. *)
Definition entry_matches (e : SavedDecks.ParsedEntry) (c : Card) : bool :=
  String.eqb (fullName c) (SavedDecks.parsed_fullName e)
  && match SavedDecks.parsed_color e with
     | Some col => SavedDecks.is_empty col || String.eqb (color c) col
     | None => true
     end.

Definition has_match (masterCards : list Card) (e : SavedDecks.ParsedEntry) : bool :=
  existsb (entry_matches e) masterCards.

(** The names that a tally stands for, each as often as its count says. *)
Definition tally_names (tally : list TallyEntry) : list string :=
  flat_map (fun t => replicate (Z.to_nat (count t)) (tally_fullName t)) tally.

(** A pick that stands for a card of a deck: the same name and color. *)
Definition same_card (deckCard c : Card) : bool :=
  String.eqb (fullName c) (fullName deckCard) && String.eqb (color c) (color deckCard).

(** The sum of the counts of a tally. *)
Definition total_count (tally : list TallyEntry) : Z :=
  fold_right (fun t acc => count t + acc) 0 tally.

(** What a pick may do to a pack: take cards away, at most one, and leave
    the rest in their order. *)
Definition pack_shrinks (p p' : Pack) : Prop :=
  pack_id p' = pack_id p
  /\ removedLog p' = removedLog p
  /\ cards p' `sublist_of` cards p
  /\ (length (cards p) <= S (length (cards p')))%nat.

(** A card whose rarity is not a name inherited from [Object.prototype]:
    its rarity value is a number. *)
Definition plain_rarity (c : Card) : Prop :=
  CleanDuplicates.rarity_or_common c ∉ CleanDuplicates.inherited_keys.

Definition plain_entries (es : list CleanDuplicates.Entry) : Prop :=
  Forall (fun e => plain_rarity (CleanDuplicates.entry_card e)) es.

(** The rarity value that the cleaning script sorts a card of a plain
    rarity by. *)
Definition rarity_value (c : Card) : Z :=
  match CleanDuplicates.getRarityValue (CleanDuplicates.rarity_or_common c) with
  | Some v => v
  | None => 999
  end.

(** The base card of a name: the card at [i] is the base card when no card
    of its name has a lower rarity value and none before it has the same
    one. *)
Definition is_base (cards : list Card) (i : nat) (c : Card) : Prop :=
  forall j c', cards !! j = Some c' -> fullName c' = fullName c ->
    rarity_value c < rarity_value c' \/ (rarity_value c = rarity_value c' /\ (i <= j)%nat).

(** The flags that the cleaning of a group sets, in the order in which it
    sets them. *)
Definition group_marks (es : list CleanDuplicates.Entry) : list (nat * bool) :=
  match Js.sort CleanDuplicates.sort_compare es with
  | first :: others =>
      (CleanDuplicates.entry_index first, true)
      :: map (fun e => (CleanDuplicates.entry_index e, false)) others
  | [] => []
  end.

Definition apply_marks (marks : list (nat * bool)) (processed : list Card) : list Card :=
  fold_left (fun p m => CleanDuplicates.set_flag (snd m) (fst m) p) marks processed.

(** The entries of a name, and the group of a name in the map. *)
Definition name_is (name : string) (e : CleanDuplicates.Entry) : bool :=
  String.eqb (fullName (CleanDuplicates.entry_card e)) name.

Definition named (e : CleanDuplicates.Entry) : bool :=
  negb (CleanDuplicates.is_empty (fullName (CleanDuplicates.entry_card e))).

Fixpoint group_get (name : string) (m : CleanDuplicates.Groups)
  : option (list CleanDuplicates.Entry) :=
  match m with
  | [] => None
  | (k, es) :: rest => if String.eqb k name then Some es else group_get name rest
  end.

(** The entry that comes first in the sorted group: the first of those of
    the lowest rarity value. *)
Definition entry_value (e : CleanDuplicates.Entry) : Z :=
  rarity_value (CleanDuplicates.entry_card e).

Definition leads (es : list CleanDuplicates.Entry) (m : CleanDuplicates.Entry) : Prop :=
  In m es
  /\ forall e, In e es ->
       entry_value m < entry_value e
       \/ (entry_value m = entry_value e
           /\ (CleanDuplicates.entry_index m <= CleanDuplicates.entry_index e)%nat).

(** The cards of the unit tests of lib/deckUtils.js. *)
Definition test_card (n : Z) (name col : string) (cst : Z) (ty : string)
    (keywords : option (list string)) : Card :=
  mkCard (IdNumber n) name col (Some cst) (Some (mkImages None)) (Some ty) keywords None None.

Definition sampleCards : list Card :=
  [test_card 1 "Anna - Friendly Face" "Amber" 2 "Character" None;
   test_card 2 "Fire the Cannons!" "Ruby" 3 "Action" None;
   test_card 3 "Part of Your World" "Sapphire" 1 "Song" None;
   test_card 4 "Tinker Bell - Evasive Ally" "Amethyst" 4 "Character"
     (Some ["Evasive"%string]);
   test_card 5 "Mirror - Mystic Artifact" "Emerald" 5 "Item" None].

(** Cards of the set data, one name in three printings. *)
Definition printed (n : Z) (name : string) (r : option string) : Card :=
  mkCard (IdNumber n) name "Amber" None None None None None r.

Definition printings : list Card :=
  [printed 1 "Elsa - Snow Queen" (Some "Rare"%string);
   printed 2 "Elsa - Snow Queen" (Some "Common"%string);
   printed 3 "Olaf - Friendly Snowman" None;
   printed 4 "Elsa - Snow Queen" (Some "Common"%string)].

(** A bound on the picks that are left in a draft. *)
Definition turns_left (s : DraftState) : Z :=
  (6 - currentRound s) * 13 + (13 - currentTurn s).
(** * Properties *)

Arguments precision : simpl never.
Arguments Math_random : simpl never.
Arguments randomInt : simpl never.
Arguments sampleWithoutReplacement : simpl never.
Arguments Js.splice1 : simpl never.
Arguments Js.index : simpl never.

(** ** JavaScript primitives *)

Section JsFacts.
Context {A : Type}.
Implicit Types (arr : list A) (i : Z).

Lemma relative_index_in_range (len : nat) i :
  0 <= i <= Z.of_nat len -> Js.relative_index len i = Z.to_nat i.
Proof.
  intros Hi. unfold Js.relative_index.
  destruct (Z.ltb_spec i 0); [lia | f_equal; lia].
Qed.

Lemma relative_index_beyond (len : nat) i :
  Z.of_nat len <= i -> Js.relative_index len i = len.
Proof.
  intros Hi. unfold Js.relative_index.
  destruct (Z.ltb_spec i 0); lia.
Qed.

Lemma index_in_range arr i :
  0 <= i < Z.of_nat (length arr) -> exists x, Js.index arr i = Some x.
Proof.
  intros Hi. unfold Js.index.
  destruct (Z.ltb_spec i 0); [lia |].
  destruct (lookup_lt_is_Some_2 arr (Z.to_nat i)) as [x Hx]; [lia | eauto].
Qed.

Lemma index_Some arr i x :
  Js.index arr i = Some x -> 0 <= i < Z.of_nat (length arr) /\ arr !! Z.to_nat i = Some x.
Proof.
  unfold Js.index. destruct (Z.ltb_spec i 0); [discriminate |].
  intros Hx. split; [| exact Hx].
  apply lookup_lt_Some in Hx. lia.
Qed.

(** Inside the array, [splice(i, 1)] returns the element at [i] and leaves
    the array without it. *)
Lemma splice1_in_range arr i x :
  Js.index arr i = Some x ->
  Js.splice1 arr i = ([x], delete (Z.to_nat i) arr).
Proof.
  intros Hx. apply index_Some in Hx as [Hi Hx].
  unfold Js.splice1. rewrite relative_index_in_range by lia.
  rewrite delete_take_drop. f_equal.
  rewrite (drop_S _ _ _ Hx). reflexivity.
Qed.

(** At or past the end it returns nothing and leaves the array as it is. *)
Lemma splice1_beyond arr i :
  Z.of_nat (length arr) <= i -> Js.splice1 arr i = ([], arr).
Proof.
  intros Hi. unfold Js.splice1. rewrite relative_index_beyond by lia.
  rewrite drop_all. simpl.
  rewrite firstn_all, (drop_ge arr (S (length arr))) by lia.
  rewrite app_nil_r. reflexivity.
Qed.

(** Whatever the index, the element returned is the one at the relative
    index, if there is one. *)
Lemma splice1_head arr i :
  head (fst (Js.splice1 arr i)) = arr !! Js.relative_index (length arr) i.
Proof.
  unfold Js.splice1. cbn [fst]. generalize (Js.relative_index (length arr) i).
  induction arr as [| x arr IH]; intros [| k]; simpl; try reflexivity.
  apply IH.
Qed.

Lemma splice1_lengths arr i :
  (length (snd (Js.splice1 arr i)) + length (fst (Js.splice1 arr i)) = length arr)%nat.
Proof.
  unfold Js.splice1. simpl.
  rewrite length_app, !length_take, !length_drop. lia.
Qed.

Lemma set_last_snoc arr x y : Js.set_last (arr ++ [x]) y = arr ++ [y].
Proof.
  unfold Js.set_last. destruct (arr ++ [x]) eqn:E.
  - destruct arr; discriminate.
  - rewrite <- E. rewrite length_app. simpl.
    replace (Nat.pred (length arr + 1)) with (length arr + 0)%nat by lia.
    rewrite insert_app_r. reflexivity.
Qed.

Lemma findIndex_from_spec (p : A -> bool) arr (start : Z) :
  (Js.findIndex_from p arr start = -1 \/ start <= Js.findIndex_from p arr start)
  /\ (0 <= start ->
      let k := Js.findIndex_from p arr start in
      (k = -1 -> Forall (fun x => p x = false) arr)
      /\ (k <> -1 ->
          exists x, arr !! Z.to_nat (k - start) = Some x /\ p x = true
            /\ Forall (fun y => p y = false) (take (Z.to_nat (k - start)) arr))).
Proof.
  revert start. induction arr as [| a arr IH]; intros start; simpl.
  - split; [left; reflexivity |]. intros _. split; [constructor | congruence].
  - destruct (p a) eqn:Hp.
    + split; [right; lia |]. intros Hs. split; [lia |]. intros _.
      exists a. replace (start - start) with 0 by lia. simpl. auto.
    + destruct (IH (start + 1)) as [Hrange IH'].
      split; [destruct Hrange; [left; assumption | right; lia] |].
      intros Hs. destruct IH' as [Hnone Hsome]; [lia |]. split.
      * intros Hk. constructor; auto.
      * intros Hk. destruct (Hsome Hk) as (x & Hx & Hpx & Hbefore).
        destruct Hrange as [? | Hrange]; [contradiction |].
        replace (Z.to_nat (Js.findIndex_from p arr (start + 1) - start))
          with (S (Z.to_nat (Js.findIndex_from p arr (start + 1) - (start + 1)))) by lia.
        exists x. simpl. repeat split; auto.
Qed.

End JsFacts.

(** ** The random source *)

Lemma bind_run {A B} (c : M A) (k : A -> M B) (r : Rng) :
  bind c k r = k (fst (c r)) (snd (c r)).
Proof. unfold bind. destruct (c r). reflexivity. Qed.

Lemma ret_run {A} (a : A) (r : Rng) : ret a r = (a, r).
Proof. reflexivity. Qed.

Lemma Math_random_range (r : Rng) : (fst (Math_random r) < precision)%N.
Proof. unfold Math_random. simpl. apply N.mod_lt. discriminate. Qed.

(** Rounding to a double is odd, and it moves a number by at most half a
    unit in the last of its 53 places: by at most the [2^53]-th part of
    the number. *)
Lemma round_to_double_opp (p : Z) : round_to_double (- p) = - round_to_double p.
Proof.
  unfold round_to_double. rewrite Z.abs_opp, Z.sgn_opp.
  destruct (Z.log2 (Z.abs p) - 52 <=? 0); [reflexivity |]. cbv zeta. lia.
Qed.

Lemma round_to_double_close (p : Z) :
  0 <= p ->
  0 <= round_to_double p
  /\ Z.abs (round_to_double p - p) * Z.of_N precision <= p.
Proof.
  intros Hp. unfold round_to_double. rewrite (Z.abs_eq p Hp).
  destruct (Z.leb_spec (Z.log2 p - 52) 0) as [Hsmall | Hbig].
  { split; [exact Hp |]. replace (p - p) with 0 by lia. simpl. exact Hp. }
  cbv zeta. set (shift := Z.log2 p - 52) in *.
  assert (Hpos : 0 < p).
  { destruct (Z.eq_dec p 0) as [-> | Hne]; [| lia]. cbn in shift. lia. }
  rewrite (Z.sgn_pos p Hpos), Z.mul_1_l.
  destruct (Z.log2_spec p Hpos) as [Hlow _].
  assert (Hexp : 2 ^ Z.log2 p = 2 ^ (shift - 1) * Z.of_N precision).
  { replace (Z.log2 p) with ((shift - 1) + 53) by lia.
    rewrite Z.pow_add_r by lia. reflexivity. }
  assert (Hdouble : 2 ^ shift = 2 * 2 ^ (shift - 1)).
  { replace shift with (1 + (shift - 1)) at 1 by lia.
    rewrite Z.pow_add_r by lia. reflexivity. }
  assert (Hhalf : 0 < 2 ^ (shift - 1)) by (apply Z.pow_pos_nonneg; lia).
  pose proof (Z.div_mod p (2 ^ shift) ltac:(lia)) as Hdiv.
  pose proof (Z.mod_pos_bound p (2 ^ shift) ltac:(lia)) as Hrest.
  assert (Hq : 0 <= p / 2 ^ shift) by (apply Z.div_pos; lia).
  rewrite Hexp in Hlow. rewrite Hdouble in *.
  set (h := 2 ^ (shift - 1)) in *. set (q := p / (2 * h)) in *.
  set (rest := p mod (2 * h)) in *.
  assert (HK : Z.of_N precision = 9007199254740992) by reflexivity.
  rewrite HK in *. clearbody q rest h. clear Hexp Hdouble.
  assert (Hqh : 0 <= 2 * h * q) by nia.
  assert (Hround : forall up : bool,
            (up = true -> h <= rest) -> (up = false -> rest <= h) ->
            0 <= (if up then q + 1 else q) * (2 * h)
            /\ Z.abs ((if up then q + 1 else q) * (2 * h) - p) * 9007199254740992 <= p).
  { intros up Hup Hdown.
    replace ((if up then q + 1 else q) * (2 * h))
      with (2 * h * q + (if up then 2 * h else 0)) by (destruct up; lia).
    revert Hdiv Hqh. generalize (2 * h * q). intros x Hdiv Hx.
    destruct up; [specialize (Hup eq_refl) | specialize (Hdown eq_refl)]; split; lia. }
  apply Hround.
  - intros Hup. apply orb_true_iff in Hup as [Hup | Hup]; [apply Z.ltb_lt in Hup; lia |].
    apply andb_true_iff in Hup as [Hup _]. apply Z.eqb_eq in Hup. lia.
  - intros Hdown. apply orb_false_iff in Hdown as [Hdown _].
    apply Z.ltb_ge in Hdown. exact Hdown.
Qed.

(** [randomInt n] is an index below [n]: the result is [k] when the
    product of the sample and [n], rounded, lies in [k, k + 1); one sample
    is drawn. *)
Lemma randomInt_run (n : Z) (r : Rng) :
  randomInt n r
  = (round_to_double (Z.of_N (fst (Math_random r)) * n) / Z.of_N precision,
     snd (Math_random r)).
Proof. unfold randomInt. rewrite bind_run, ret_run. reflexivity. Qed.

Lemma randomInt_spec (n : Z) (r : Rng) :
  0 < n ->
  let u := Z.of_N (fst (Math_random r)) in
  let k := fst (randomInt n r) in
  0 <= k < n
  /\ k * Z.of_N precision <= round_to_double (u * n) < (k + 1) * Z.of_N precision
  /\ snd (randomInt n r) = snd (Math_random r).
Proof.
  intros Hn. rewrite randomInt_run. cbn [fst snd].
  pose proof (Math_random_range r) as Hu.
  assert (Hp : 0 <= Z.of_N (fst (Math_random r)) * n) by nia.
  destruct (round_to_double_close _ Hp) as [Hlow Hclose].
  assert (HK : Z.of_N precision = 9007199254740992) by reflexivity.
  assert (Hu' : Z.of_N (fst (Math_random r)) <= 9007199254740991).
  { apply N2Z.inj_lt in Hu. rewrite HK in Hu. lia. }
  rewrite HK in *. clear HK Hu.
  revert Hp Hlow Hclose Hu'. generalize (Z.of_N (fst (Math_random r))). intros u Hp.
  generalize (round_to_double (u * n)). intros m Hlow Hclose Hu.
  pose proof (Z.mul_div_le m 9007199254740992 ltac:(lia)).
  pose proof (Z.mul_succ_div_gt m 9007199254740992 ltac:(lia)).
  assert (Hm : m < n * 9007199254740992) by nia.
  assert (0 <= m / 9007199254740992) by (apply Z.div_pos; lia).
  assert (m / 9007199254740992 < n) by (apply Z.div_lt_upper_bound; lia).
  repeat split; lia.
Qed.

Lemma randomInt_range (n : Z) (r : Rng) : 0 < n -> 0 <= fst (randomInt n r) < n.
Proof. intros Hn. apply (randomInt_spec n r Hn). Qed.

(** ** [deepClone] copies faithfully *)

Lemma deepClone_Card_id (c : Card) : deepClone_Card c = c.
Proof.
  destruct c as [i n col co im ty ks b ra]. unfold deepClone_Card. simpl.
  destruct im as [[f] |]; destruct ks as [ks |]; simpl; rewrite ?map_id; reflexivity.
Qed.

Lemma map_id_ext {A} (f : A -> A) (l : list A) :
  (forall x, f x = x) -> map f l = l.
Proof. intros Hf. induction l; simpl; congruence. Qed.

Lemma deepClone_Pack_id (p : Pack) : deepClone_Pack p = p.
Proof.
  destruct p. unfold deepClone_Pack. simpl.
  rewrite (map_id_ext deepClone_Card) by apply deepClone_Card_id.
  rewrite map_id. reflexivity.
Qed.

Lemma deepClone_RoundState_id (rd : RoundState) : deepClone_RoundState rd = rd.
Proof.
  destruct rd. unfold deepClone_RoundState. simpl.
  rewrite (map_id_ext deepClone_Pack) by apply deepClone_Pack_id. reflexivity.
Qed.

Lemma deepClone_PickLogEntry_id (e : PickLogEntry) : deepClone_PickLogEntry e = e.
Proof.
  destruct e as [? ? ? pk ?]. unfold deepClone_PickLogEntry. simpl.
  destruct pk; simpl; rewrite ?deepClone_Card_id; reflexivity.
Qed.

Lemma deepClone_id : forall s : DraftState, deepClone s = s.
Proof.
  fix IH 1. intros [m rs cr ct ps lg d b]. simpl.
  rewrite (map_id_ext deepClone_Card) by apply deepClone_Card_id.
  rewrite (map_id_ext deepClone_RoundState) by apply deepClone_RoundState_id.
  rewrite (map_id_ext deepClone_PickLogEntry) by apply deepClone_PickLogEntry_id.
  rewrite (map_id_ext (option_map deepClone_Card))
    by (intros [c |]; simpl; rewrite ?deepClone_Card_id; reflexivity).
  destruct b as [b |]; [rewrite (IH b) |]; reflexivity.
Qed.

Arguments deepClone : simpl never.

(** ** Sampling without replacement and pack creation *)

Section Sampling.
Context {T : Type}.

Lemma sample_loop_S (iters : nat) (copy result : list T) (r : Rng) :
  sample_loop (S iters) copy result r =
  sample_loop iters
    (snd (Js.splice1 copy (fst (randomInt (Z.of_nat (length copy)) r))))
    (match Js.index copy (fst (randomInt (Z.of_nat (length copy)) r)) with
     | Some x => result ++ [x]
     | None => result
     end)
    (snd (randomInt (Z.of_nat (length copy)) r)).
Proof.
  cbn [sample_loop]. rewrite bind_run. reflexivity.
Qed.

(** Each iteration moves one item from [copy] to [result]: the index drawn
    is always inside [copy], so no [undefined] is ever pushed. *)
Lemma sample_loop_spec (iters : nat) :
  forall (copy result : list T) (r : Rng),
    (iters <= length copy)%nat ->
    let out := fst (sample_loop iters copy result r) in
    length (snd out) = (length result + iters)%nat
    /\ snd out ++ fst out ≡ₚ result ++ copy.
Proof.
  induction iters as [| iters IH]; intros copy result r Hlen.
  - simpl. split; [lia | reflexivity].
  - rewrite sample_loop_S.
    destruct (randomInt_range (Z.of_nat (length copy)) r) as [Hlo Hhi]; [lia |].
    set (idx := fst (randomInt (Z.of_nat (length copy)) r)) in *.
    destruct (index_in_range copy idx) as [x Hx]; [lia |].
    rewrite Hx, (splice1_in_range _ _ _ Hx). cbn [snd].
    apply index_Some in Hx as [_ Hx].
    specialize (IH (delete (Z.to_nat idx) copy) (result ++ [x])
                  (snd (randomInt (Z.of_nat (length copy)) r))).
    destruct IH as [IHlen IHperm].
    { rewrite length_delete by eauto. lia. }
    cbv zeta. split.
    + rewrite IHlen, length_app. simpl. lia.
    + rewrite IHperm, <- app_assoc. simpl.
      apply Permutation_app_head. symmetry. apply delete_Permutation, Hx.
Qed.

Lemma sampleWithoutReplacement_spec (arr : list T) (k : Z) (r : Rng) :
  let result := fst (sampleWithoutReplacement arr k r) in
  Z.of_nat (length result) = Z.max 0 (Z.min k (Z.of_nat (length arr)))
  /\ exists rest, result ++ rest ≡ₚ arr.
Proof.
  unfold sampleWithoutReplacement. rewrite bind_run, ret_run. cbn [fst].
  pose proof (sample_loop_spec (Z.to_nat (Z.min k (Z.of_nat (length arr)))) arr [] r) as H.
  destruct (sample_loop _ arr [] r) as [[copy result] r']. simpl in *.
  destruct H as [Hlen Hperm]; [lia |]. split; [lia |].
  exists copy. exact Hperm.
Qed.

End Sampling.

Lemma createPacks_spec (n : nat) :
  forall (roundNumber i : Z) (pool : list Card) (r : Rng),
    let packs := fst (createPacks roundNumber i n pool r) in
    length packs = n /\ Forall (drawn_from pool) packs.
Proof.
  induction n as [| n IH]; intros roundNumber i pool r.
  - simpl. split; [reflexivity | constructor].
  - cbn [createPacks]. rewrite !bind_run, ret_run. cbn [fst length].
    destruct (sampleWithoutReplacement_spec pool 12 r) as [Hlen Hrest].
    destruct (IH roundNumber (i + 1) pool (snd (sampleWithoutReplacement pool 12 r)))
      as [IHlen IHall].
    split; [lia |]. constructor; [| exact IHall].
    unfold drawn_from. cbn [cards]. split; [lia | exact Hrest].
Qed.

Lemma createRound_spec (roundNumber : Z) (pool : list Card) (r : Rng) :
  let rd := fst (createRound roundNumber pool r) in
  Types.roundNumber rd = roundNumber /\ turn rd = 1
  /\ length (packs rd) = 6%nat /\ Forall (drawn_from pool) (packs rd).
Proof.
  unfold createRound. rewrite bind_run, ret_run. cbn.
  destruct (createPacks_spec 6 roundNumber 1 pool r) as [Hlen Hall]. auto.
Qed.

(** A pack drawn from a pool that is smaller than the pack size holds the
    whole pool. *)
Lemma drawn_from_small_pool (pool : list Card) (pack : Pack) :
  drawn_from pool pack -> (length pool < 12)%nat -> cards pack ≡ₚ pool.
Proof.
  intros [Hlen [rest Hperm]] Hsmall.
  assert (Hrest : length rest = 0%nat).
  { apply Permutation_length in Hperm. rewrite length_app in Hperm. lia. }
  destruct rest; [| discriminate].
  rewrite app_nil_r in Hperm. exact Hperm.
Qed.

(** ** Rarity ranks *)

Lemma rarityMap_values (r : string) (v : Z) : rarityMap !! r = Some v -> 1 <= v <= 9.
Proof.
  unfold rarityMap. intros H. apply elem_of_list_to_map_2 in H.
  repeat (apply elem_of_cons in H as [H | H]; [inversion H; lia |]).
  apply elem_of_nil in H. contradiction.
Qed.

Lemma getRarityValue_range (rarity : option string) (v : Z) :
  getRarityValue rarity = Some v -> 0 <= v <= 9.
Proof.
  destruct rarity as [[| c r] |]; cbn [getRarityValue]; try (intros [= <-]; lia).
  destruct (rarityMap !! String c r) as [w |] eqn:E.
  - apply rarityMap_values in E. intros [= <-]. destruct (w =? 0); lia.
  - destruct (bool_decide _); [discriminate | intros [= <-]; lia].
Qed.

Lemma max_rank_from_cons (m : Z) (c : Card) (cards : list Card) :
  max_rank_from m (c :: cards)
  = max_rank_from (match rank c with Some v => Z.max m v | None => m end) cards.
Proof. unfold max_rank_from. cbn. destruct (rank c); reflexivity. Qed.

Lemma max_rank_from_ge (cards : list Card) : forall m, m <= max_rank_from m cards.
Proof.
  induction cards as [| c cards IH]; intros m; [unfold max_rank_from; simpl; lia |].
  rewrite max_rank_from_cons. destruct (rank c) as [v |].
  - specialize (IH (Z.max m v)). lia.
  - apply IH.
Qed.

Lemma max_rank_from_upper (cards : list Card) :
  forall m, Forall (fun c => forall v, rank c = Some v -> v <= max_rank_from m cards) cards.
Proof.
  induction cards as [| c cards IH]; intros m; constructor.
  - intros v Hv. rewrite max_rank_from_cons, Hv.
    pose proof (max_rank_from_ge cards (Z.max m v)). lia.
  - rewrite max_rank_from_cons. apply IH.
Qed.

Lemma max_rank_from_attained (cards : list Card) :
  forall m,
    max_rank_from m cards = m
    \/ Exists (fun c => rank c = Some (max_rank_from m cards)) cards.
Proof.
  induction cards as [| c cards IH]; intros m; [left; reflexivity |].
  rewrite max_rank_from_cons. destruct (rank c) as [v |] eqn:Hv.
  - destruct (IH (Z.max m v)) as [H | H]; [| right; apply Exists_cons_tl, H].
    rewrite H. destruct (Z.max_spec m v) as [[_ E] | [_ E]]; rewrite E; [| auto].
    right. apply Exists_cons_hd. exact Hv.
  - destruct (IH m) as [H | H]; [left; exact H | right; apply Exists_cons_tl, H].
Qed.

Lemma has_rank_spec (v : Z) (c : Card) : has_rank v c = true <-> rank c = Some v.
Proof.
  unfold has_rank. destruct (rank c) as [v' |]; [| split; discriminate].
  rewrite Z.eqb_eq. split; [intros -> | intros [= ->]]; reflexivity.
Qed.

Lemma indices_at_spec (v : Z) (cards : list Card) :
  forall (i k : Z),
    k ∈ indices_at v cards i <->
    exists c, i <= k /\ cards !! Z.to_nat (k - i) = Some c /\ rank c = Some v.
Proof.
  induction cards as [| c cards IH]; intros i k; simpl.
  - split; [intros H; apply elem_of_nil in H; contradiction |].
    intros (c & _ & H & _). discriminate.
  - rewrite elem_of_app, IH. split.
    + intros [H | (c' & Hi & Hc' & Hr)].
      * destruct (has_rank v c) eqn:Hc; [| apply elem_of_nil in H; contradiction].
        apply list_elem_of_singleton in H. subst k. apply has_rank_spec in Hc.
        exists c. replace (i - i) with 0 by lia. simpl. auto with zarith.
      * exists c'. split; [lia |]. split; [| exact Hr].
        replace (Z.to_nat (k - i)) with (S (Z.to_nat (k - (i + 1)))) by lia. exact Hc'.
    + intros (c' & Hi & Hc' & Hr).
      destruct (Z.eq_dec k i) as [-> | Hne].
      * left. replace (i - i) with 0 in Hc' by lia. simpl in Hc'.
        injection Hc' as ->. rewrite (proj2 (has_rank_spec v c') Hr).
        apply list_elem_of_singleton. reflexivity.
      * right. exists c'. split; [lia |]. split; [| exact Hr].
        replace (Z.to_nat (k - i)) with (S (Z.to_nat (k - (i + 1)))) in Hc' by lia.
        exact Hc'.
Qed.

(** The positions listed are exactly those of the cards of greatest rank. *)
Lemma rarest_indices_spec (cards : list Card) (k : Z) :
  k ∈ rarest_indices cards <-> greatest_rank cards k.
Proof.
  unfold rarest_indices, greatest_rank. rewrite indices_at_spec. split.
  - intros (c & Hk & Hc & Hr). exists c, (max_rank cards). split; [| split].
    + unfold Js.index. destruct (Z.ltb_spec k 0); [lia |].
      replace (k - 0) with k in Hc by lia. exact Hc.
    + exact Hr.
    + apply max_rank_from_upper.
  - intros (c & v & Hc & Hv & Hmax). apply index_Some in Hc as [Hk Hc].
    exists c. split; [lia |]. split; [replace (k - 0) with k by lia; exact Hc |].
    rewrite Hv. f_equal.
    pose proof (max_rank_from_upper cards (-1)) as Hup.
    rewrite Forall_forall in Hup, Hmax.
    apply list_elem_of_lookup_2 in Hc. specialize (Hup c Hc v Hv).
    pose proof (getRarityValue_range _ _ Hv) as Hrange.
    destruct (max_rank_from_attained cards (-1)) as [H | H];
      [unfold max_rank in *; lia |].
    apply Exists_exists in H as (c' & Hin & Hc').
    specialize (Hmax c' Hin _ Hc'). unfold max_rank in *. lia.
Qed.

(** No position is listed exactly when no rank of the pack is a number. *)
Lemma rarest_indices_nil (cards : list Card) :
  rarest_indices cards = [] <-> Forall (fun c => rank c = None) cards.
Proof.
  split.
  - intros Hnil. apply Forall_forall. intros c Hin.
    destruct (rank c) as [v |] eqn:Hv; [exfalso | reflexivity].
    destruct (max_rank_from_attained cards (-1)) as [H | H].
    + pose proof (max_rank_from_upper cards (-1)) as Hup. rewrite Forall_forall in Hup.
      specialize (Hup c Hin v Hv). pose proof (getRarityValue_range _ _ Hv). lia.
    + apply Exists_exists in H as (c' & Hin' & Hc').
      apply list_elem_of_lookup_1 in Hin' as [j Hj].
      assert (Hmem : Z.of_nat j ∈ rarest_indices cards).
      { unfold rarest_indices. apply indices_at_spec. exists c'.
        split; [lia |]. split; [| exact Hc'].
        replace (Z.to_nat (Z.of_nat j - 0)) with j by lia. exact Hj. }
      rewrite Hnil in Hmem. apply elem_of_nil in Hmem. exact Hmem.
  - intros Hall. destruct (rarest_indices cards) as [| k rest] eqn:E; [reflexivity |].
    assert (Hmem : k ∈ rarest_indices cards) by (rewrite E; apply list_elem_of_here).
    apply rarest_indices_spec in Hmem as (c & v & Hc & Hv & _).
    apply index_Some in Hc as [_ Hc]. apply list_elem_of_lookup_2 in Hc.
    rewrite Forall_forall in Hall. rewrite (Hall c Hc) in Hv. discriminate.
Qed.

(** The scan of [findRarestCardIndex] computes the greatest rank and the
    positions that hold it. *)
Lemma rarest_scan_spec (cards : list Card) :
  forall (i m : Z) (l : list Z),
    rarest_scan cards i (m, l) =
    (max_rank_from m cards,
     (if m =? max_rank_from m cards then l else [])
       ++ indices_at (max_rank_from m cards) cards i).
Proof.
  induction cards as [| c cards IH]; intros i m l.
  - simpl. unfold max_rank_from. simpl. rewrite Z.eqb_refl, app_nil_r. reflexivity.
  - cbn [rarest_scan indices_at]. unfold rarest_step, has_rank. cbn [fst snd].
    fold (rank c). rewrite max_rank_from_cons. destruct (rank c) as [v |].
    + pose proof (max_rank_from_ge cards (Z.max m v)) as Hge.
      destruct (Z.gtb_spec v m) as [Hgt | Hle].
      * rewrite IH. replace (Z.max m v) with v in * by lia.
        f_equal. destruct (Z.eqb_spec m (max_rank_from v cards)); [lia |].
        reflexivity.
      * destruct (Z.eqb_spec v m) as [Heq | Hne].
        -- rewrite IH. replace (Z.max m v) with m in * by lia.
           f_equal. rewrite Heq.
           destruct (m =? max_rank_from m cards); [rewrite <- app_assoc |]; reflexivity.
        -- rewrite IH. replace (Z.max m v) with m in * by lia.
           f_equal. destruct (Z.eqb_spec v (max_rank_from m cards)); [lia |].
           reflexivity.
    + rewrite IH. reflexivity.
Qed.

Lemma rarest_scan_rarest_indices (cards : list Card) :
  snd (rarest_scan cards 0 (-1, [])) = rarest_indices cards.
Proof.
  rewrite rarest_scan_spec. cbn [snd].
  fold (max_rank cards). fold (rarest_indices cards).
  destruct (-1 =? max_rank cards); reflexivity.
Qed.

Lemma randomInt_nothing (r : Rng) : randomInt 0 r = (0, snd (Math_random r)).
Proof.
  rewrite randomInt_run, Z.mul_0_r. reflexivity.
Qed.

(** On a pack that is not empty [findRarestCardIndex] returns a position of
    greatest rank: the only one without drawing, or else the one that a
    draw of [randomInt] selects among them; and nothing, after a draw, when
    there is none. *)
Lemma findRarestCardIndex_spec (cards : list Card) (r : Rng) :
  cards <> [] ->
  let rarest := rarest_indices cards in
  (exists k,
     rarest = [k] /\ findRarestCardIndex cards r = (Some k, r))
  \/ (exists j k,
        (1 < length rarest)%nat
        /\ chosen (fst (Math_random r)) (length rarest) j
        /\ Js.index rarest j = Some k
        /\ findRarestCardIndex cards r = (Some k, snd (Math_random r)))
  \/ (rarest = [] /\ findRarestCardIndex cards r = (None, snd (Math_random r))).
Proof.
  intros Hne rarest. unfold findRarestCardIndex.
  destruct (Z.eqb_spec (Z.of_nat (length cards)) 0) as [H0 | _].
  { destruct cards; [contradiction | simpl in H0; lia]. }
  rewrite (rarest_scan_rarest_indices cards). fold rarest.
  destruct (Z.eqb_spec (Z.of_nat (length rarest)) 1) as [H1 | H1].
  - left. destruct rarest as [| k [| k' rest]] eqn:E; simpl in H1; try lia.
    exists k. rewrite ret_run. split; reflexivity.
  - right. rewrite bind_run, ret_run. destruct rarest as [| k0 rest] eqn:E.
    + right. split; [reflexivity |]. cbn [length]. rewrite randomInt_nothing. reflexivity.
    + left. rewrite <- E in *.
      assert (Hlen : (1 < length rarest)%nat).
      { rewrite E in *. destruct rest; simpl in *; lia. }
      destruct (randomInt_spec (Z.of_nat (length rarest)) r) as (Hrange & Hpart & Hrng);
        [lia |].
      destruct (index_in_range rarest _ Hrange) as [k Hk].
      exists (fst (randomInt (Z.of_nat (length rarest)) r)), k.
      split; [exact Hlen |]. split; [exact Hpart |]. split; [exact Hk |].
      rewrite Hk, Hrng. reflexivity.
Qed.

(** ** The removal loop *)

Lemma Math_random_sample (r : Rng) :
  fst (Math_random r) = sample r 0 /\ fst (Math_random (snd (Math_random r))) = sample r 1.
Proof. split; reflexivity. Qed.

Lemma removeFromPack_spec (pack : Pack) (r : Rng) :
  let out := fst (removeFromPack pack r) in
  pack_id (fst out) = pack_id pack
  /\ removedLog (fst out) = removedLog pack
  /\ mixed_removal (sample r 0) (sample r 1) (cards pack) (cards (fst out))
  /\ length (cards (fst out)) = Nat.pred (length (cards pack))
  /\ snd out = (if (0 <? length (cards pack))%nat then 1 else 0).
Proof.
  unfold removeFromPack.
  destruct (Z.gtb_spec (Z.of_nat (length (cards pack))) 0) as [Hpos | Hzero].
  - assert (Hne : cards pack <> []) by (intros E; rewrite E in Hpos; simpl in Hpos; lia).
    rewrite bind_run. destruct (Math_random_sample r) as [Hu Hv].
    assert (Hlt : (0 <? length (cards pack))%nat = true) by (apply Nat.ltb_lt; lia).
    rewrite Hlt. rewrite Hu. unfold below_half.
    destruct (N.ltb_spec (2 * sample r 0) precision) as [Hhalf | Hhalf].
    + rewrite !bind_run, !ret_run. cbn [fst snd to_integer default from_option id set_cards pack_id removedLog cards].
      destruct (randomInt_spec (Z.of_nat (length (cards pack))) (snd (Math_random r)) Hpos)
        as (Hrange & Hpart & _).
      set (k := fst (randomInt (Z.of_nat (length (cards pack))) (snd (Math_random r)))) in *.
      destruct (index_in_range (cards pack) k Hrange) as [x Hx].
      rewrite (splice1_in_range _ _ _ Hx). cbn [snd].
      repeat split.
      * eapply removal_random with (k := k); eauto.
      * apply index_Some in Hx as [_ Hx]. rewrite length_delete by eauto. lia.
    + rewrite bind_run, ret_run. cbn [fst snd set_cards pack_id removedLog cards].
      destruct (findRarestCardIndex_spec (cards pack) (snd (Math_random r)) Hne)
        as [(k & Hone & ->) | [(j & k & Hlen & Hpart & Hk & ->) | (Hnone & ->)]];
        cbn [fst to_integer default from_option id].
      * assert (Hin : k ∈ rarest_indices (cards pack))
          by (rewrite Hone; apply list_elem_of_here).
        apply rarest_indices_spec in Hin as (c & _ & Hc & _).
        rewrite (splice1_in_range _ _ _ Hc). cbn [snd]. repeat split.
        -- eapply removal_rarest with (j := 0) (k := k); eauto;
             rewrite Hone; [reflexivity | left; reflexivity].
        -- apply index_Some in Hc as [_ Hc]. rewrite length_delete by eauto. lia.
      * assert (Hin : k ∈ rarest_indices (cards pack)).
        { apply index_Some in Hk as [_ Hk]. eapply list_elem_of_lookup_2, Hk. }
        apply rarest_indices_spec in Hin as (c & _ & Hc & _).
        rewrite (splice1_in_range _ _ _ Hc). cbn [snd]. repeat split.
        -- eapply removal_rarest with (j := j) (k := k); eauto.
        -- apply index_Some in Hc as [_ Hc]. rewrite length_delete by eauto. lia.
      * destruct (cards pack) as [| c0 rest] eqn:Hcards; [contradiction |].
        assert (Hc : Js.index (c0 :: rest) 0 = Some c0) by reflexivity.
        rewrite (splice1_in_range _ _ _ Hc). cbn [snd]. repeat split.
        apply removal_unranked; auto.
  - assert (Hnil : cards pack = []) by (destruct (cards pack); [reflexivity | simpl in Hzero; lia]).
    rewrite ret_run, Hnil. cbn. repeat split; try reflexivity.
    + rewrite Hnil. apply removal_skipped; reflexivity.
    + rewrite Hnil. reflexivity.
Qed.

Lemma removal_loop_cons (packIndex i : Z) (pack : Pack) (rest : list Pack) (c : Z) (r : Rng) :
  removal_loop packIndex i (pack :: rest) c r =
  if i =? packIndex then
    let out := removal_loop packIndex (i + 1) rest c r in
    (pack :: fst (fst out), snd (fst out), snd out)
  else
    let q := removeFromPack pack r in
    let out := removal_loop packIndex (i + 1) rest (c + snd (fst q)) (snd q) in
    (fst (fst q) :: fst (fst out), snd (fst out), snd out).
Proof.
  cbn [removal_loop]. destruct (i =? packIndex); rewrite ?bind_run, ?ret_run; reflexivity.
Qed.

Lemma removal_loop_sizes (packIndex : Z) (packs : list Pack) :
  forall (i c : Z) (r : Rng),
    let out := fst (removal_loop packIndex i packs c r) in
    pack_sizes (fst out) = sizes_after packIndex i (pack_sizes packs)
    /\ snd out = c + removed_total packIndex i (pack_sizes packs).
Proof.
  induction packs as [| pack rest IH]; intros i c r.
  - simpl. split; [reflexivity | lia].
  - rewrite removal_loop_cons. cbn [pack_sizes map sizes_after removed_total].
    fold (pack_sizes rest). destruct (i =? packIndex).
    + destruct (IH (i + 1) c r) as [Hs Hc]. cbn.
      split; [f_equal; exact Hs | rewrite Hc; lia].
    + destruct (removeFromPack_spec pack r) as (_ & _ & _ & Hlen & Hcount).
      destruct (IH (i + 1) (c + snd (fst (removeFromPack pack r)))
                  (snd (removeFromPack pack r))) as [Hs Hc].
      cbn. split; [f_equal; [exact Hlen | exact Hs] |].
      rewrite Hc, Hcount. destruct (length (cards pack)); simpl; lia.
Qed.

(** Removing from one pack draws the samples that [samples_drawn]
    counts. *)
Lemma removeFromPack_rng (pack : Pack) (r : Rng) :
  forall i,
    snd (removeFromPack pack r) i = r (samples_drawn (sample r 0) (cards pack) + i)%nat.
Proof.
  intros i. unfold removeFromPack.
  destruct (Z.gtb_spec (Z.of_nat (length (cards pack))) 0) as [Hpos | Hzero].
  - assert (Hne : cards pack <> []) by (intros E; rewrite E in Hpos; simpl in Hpos; lia).
    assert (Hdrawn : samples_drawn (sample r 0) (cards pack)
                     = if below_half (sample r 0) then 2%nat
                       else if (length (rarest_indices (cards pack)) =? 1)%nat
                            then 1%nat else 2%nat).
    { destruct (cards pack); [contradiction | reflexivity]. }
    rewrite Hdrawn, bind_run. destruct (Math_random_sample r) as [-> _].
    destruct (below_half (sample r 0)).
    + rewrite !bind_run, !ret_run, randomInt_run. reflexivity.
    + rewrite bind_run, ret_run. cbn [fst snd].
      destruct (findRarestCardIndex_spec (cards pack) (snd (Math_random r)) Hne)
        as [(k & Hone & ->) | [(j & k & Hlen & _ & _ & ->) | (Hnone & ->)]].
      * rewrite Hone. reflexivity.
      * destruct (Nat.eqb_spec (length (rarest_indices (cards pack))) 1); [lia |].
        reflexivity.
      * rewrite Hnone. reflexivity.
  - assert (Hnil : cards pack = [])
      by (destruct (cards pack); [reflexivity | simpl in Hzero; lia]).
    rewrite Hnil. reflexivity.
Qed.

Lemma sample_shift (r r1 : Rng) (c n : nat) :
  (forall i, r1 i = r (c + i)%nat) -> sample r1 n = sample r (c + n).
Proof. intros H. unfold sample. rewrite H. reflexivity. Qed.

Lemma stream_offset_ext (packIndex : Z) (packs : list Pack) :
  forall (i : Z) (r1 r2 : Rng) (j : nat),
    (forall k, r1 k = r2 k) ->
    stream_offset packIndex i packs r1 j = stream_offset packIndex i packs r2 j.
Proof.
  induction packs as [| pack rest IH]; intros i r1 r2 j Hext; [destruct j; reflexivity |].
  destruct j as [| j]; [reflexivity |]. cbn [stream_offset]. cbv zeta.
  assert (Hs : sample r1 0 = sample r2 0) by (unfold sample; rewrite Hext; reflexivity).
  rewrite Hs. f_equal. apply IH. intros k. apply Hext.
Qed.

(** The loop leaves the active pack alone and applies the removal policy to
    every other pack, each with the two samples that are next in the
    stream when its turn comes. *)
Lemma removal_loop_each (packIndex : Z) (packs : list Pack) :
  forall (i c : Z) (r : Rng) (j : nat) (p : Pack),
    packs !! j = Some p ->
    let n := stream_offset packIndex i packs r j in
    exists p',
      fst (fst (removal_loop packIndex i packs c r)) !! j = Some p'
      /\ pack_id p' = pack_id p /\ removedLog p' = removedLog p
      /\ (i + Z.of_nat j = packIndex -> p' = p)
      /\ (i + Z.of_nat j <> packIndex ->
          mixed_removal (sample r n) (sample r (S n)) (cards p) (cards p')).
Proof.
  induction packs as [| pack rest IH]; intros i c r j p Hj; [discriminate |].
  rewrite removal_loop_cons. destruct j as [| j].
  - injection Hj as ->. cbn [stream_offset]. cbv zeta.
    destruct (Z.eqb_spec i packIndex) as [He | Hne].
    + exists p. cbn. repeat split; auto. intros H. lia.
    + destruct (removeFromPack_spec p r) as (Hid & Hlog & Hrem & _).
      exists (fst (fst (removeFromPack p r))). cbn. repeat split; auto.
      intros H. lia.
  - simpl in Hj. cbn [stream_offset]. cbv zeta. destruct (i =? packIndex).
    + destruct (IH (i + 1) c r j p Hj) as (p' & Hp' & Hid & Hlog & Hsame & Hother).
      exists p'. cbn [fst snd lookup list_lookup]. cbn.
      rewrite (stream_offset_ext packIndex rest (i + 1) _ r j) by reflexivity.
      repeat split; auto.
      * intros H. apply Hsame. lia.
      * intros H. apply Hother. lia.
    + destruct (IH (i + 1) (c + snd (fst (removeFromPack pack r)))
                  (snd (removeFromPack pack r)) j p Hj)
        as (p' & Hp' & Hid & Hlog & Hsame & Hother).
      pose proof (removeFromPack_rng pack r) as Hk.
      set (used := samples_drawn (sample r 0) (cards pack)) in *.
      rewrite (stream_offset_ext packIndex rest (i + 1) _ (fun k => r (used + k)%nat) j Hk)
        in Hother.
      set (n := stream_offset packIndex (i + 1) rest (fun k => r (used + k)%nat) j) in *.
      exists p'. cbn. repeat split; auto.
      * intros H. apply Hsame. lia.
      * intros H. rewrite <- (sample_shift r _ used n Hk).
        replace (S (used + n)) with (used + S n)%nat by lia.
        rewrite <- (sample_shift r _ used (S n) Hk). apply Hother. lia.
Qed.

Lemma sizes_after_outside (packIndex : Z) (k m : nat) :
  forall i, packIndex < i ->
    sizes_after packIndex i (replicate k m) = replicate k (Nat.pred m)
    /\ (0 < m -> removed_total packIndex i (replicate k m) = Z.of_nat k)%nat.
Proof.
  induction k as [| k IH]; intros i Hi; simpl; [auto |].
  destruct (Z.eqb_spec i packIndex); [lia |].
  destruct (IH (i + 1)) as [Hs Hc]; [lia |]. rewrite Hs. split; [reflexivity |].
  intros Hm. rewrite (Hc Hm). destruct m; [lia | simpl; lia].
Qed.

(** When every pack holds [m] cards and the pick has taken one from the
    active pack, the loop leaves every pack with [m - 1] cards and counts
    one removal for each of the other packs. *)
Lemma sizes_after_pick (m : nat) :
  forall (j k : nat) (i : Z),
    (j < k)%nat ->
    sizes_after (i + Z.of_nat j) i (<[j := Nat.pred m]> (replicate k m))
      = replicate k (Nat.pred m)
    /\ ((0 < m)%nat ->
        removed_total (i + Z.of_nat j) i (<[j := Nat.pred m]> (replicate k m))
          = Z.of_nat k - 1).
Proof.
  induction j as [| j IH]; intros k i Hjk; destruct k as [| k]; try lia.
  - cbn [replicate insert list_insert sizes_after removed_total].
    replace (i + Z.of_nat 0) with i by lia. rewrite Z.eqb_refl.
    destruct (sizes_after_outside i k m (i + 1)) as [Hs Hc]; [lia |].
    rewrite Hs. split; [reflexivity |]. intros Hm. rewrite (Hc Hm). lia.
  - cbn [replicate insert list_insert sizes_after removed_total].
    destruct (Z.eqb_spec i (i + Z.of_nat (S j))); [lia |].
    replace (i + Z.of_nat (S j)) with ((i + 1) + Z.of_nat j) by lia.
    destruct (IH k (i + 1)) as [Hs Hc]; [lia |].
    split; [f_equal; exact Hs |]. intros Hm. specialize (Hc Hm).
    assert (Hlt : (0 <? m)%nat = true) by (apply Nat.ltb_lt; lia).
    rewrite Hlt. etransitivity; [apply (f_equal (Z.add 1)); exact Hc | lia].
Qed.

Lemma pack_sizes_insert (packs : list Pack) (j : nat) (p : Pack) :
  pack_sizes (<[j := p]> packs) = <[j := length (cards p)]> (pack_sizes packs).
Proof.
  revert j. induction packs as [| q packs IH]; intros j; [reflexivity |].
  destruct j; simpl; [reflexivity |]. f_equal. apply IH.
Qed.

Lemma pack_sizes_lookup (packs : list Pack) (j m : nat) (p : Pack) :
  pack_sizes packs !! j = Some m -> packs !! j = Some p -> length (cards p) = m.
Proof.
  revert j. induction packs as [| q packs IH]; intros j; [discriminate |].
  destruct j; simpl.
  - intros [= <-] [= <-]. reflexivity.
  - apply IH.
Qed.

(** ** One pick *)

Lemma pickCard_run (s : DraftState) (i : Z) (r : Rng) (rd : RoundState) (ap : Pack) :
  last (rounds s) = Some rd ->
  Js.index (packs rd) (getActivePackIndex (currentTurn s)) = Some ap ->
  let packIndex := getActivePackIndex (currentTurn s) in
  let loop := removal_loop packIndex 0 (packs_after_pick i rd ap packIndex) 0 r in
  pickCard s i r = inr (advance (picked_state s i rd ap (fst loop)) (snd loop)).
Proof.
  intros Hrd Hap. unfold pickCard. rewrite !deepClone_id, Hrd, Hap.
  rewrite bind_run. reflexivity.
Qed.

Lemma pickCard_throws (s : DraftState) (i : Z) (r : Rng) (e : error) :
  pickCard s i r = inl e -> active_pack s = None.
Proof.
  unfold pickCard, active_pack. rewrite !deepClone_id.
  destruct (last (rounds s)) as [rd |]; [| reflexivity].
  destruct (Js.index (packs rd) _); [discriminate | reflexivity].
Qed.

(** What [advance] changes. *)
Lemma advance_frame (s : DraftState) (r : Rng) :
  let s' := fst (advance s r) in
  masterCards s' = masterCards s /\ picks s' = picks s /\ log s' = log s
  /\ undoBuffer s' = undoBuffer s.
Proof.
  unfold advance.
  destruct (currentTurn s + 1 >? 12); [destruct (currentRound s <? 6) |];
    rewrite ?bind_run, ?ret_run; cbn; auto.
Qed.

Lemma advance_within_round (s : DraftState) (r : Rng) :
  currentTurn s + 1 <= 12 ->
  advance s r =
  (mkDraftState (masterCards s) (rounds s) (currentRound s) (currentTurn s + 1)
     (picks s) (log s) (isComplete s) (undoBuffer s), r).
Proof.
  intros H. unfold advance. destruct (Z.gtb_spec (currentTurn s + 1) 12); [lia |].
  reflexivity.
Qed.

Lemma advance_next_round (s : DraftState) (r : Rng) :
  12 < currentTurn s + 1 -> currentRound s < 6 ->
  fst (advance s r) =
  mkDraftState (masterCards s)
    (rounds s ++ [fst (createRound (currentRound s + 1) (masterCards s) r)])
    (currentRound s + 1) 1 (picks s) (log s) (isComplete s) (undoBuffer s).
Proof.
  intros Ht Hr. unfold advance. destruct (Z.gtb_spec (currentTurn s + 1) 12); [| lia].
  destruct (Z.ltb_spec (currentRound s) 6); [| lia].
  rewrite bind_run, ret_run. reflexivity.
Qed.

Lemma advance_complete (s : DraftState) (r : Rng) :
  12 < currentTurn s + 1 -> 6 <= currentRound s ->
  advance s r =
  (mkDraftState (masterCards s) (rounds s) (currentRound s) (currentTurn s + 1)
     (picks s) (log s) true (undoBuffer s), r).
Proof.
  intros Ht Hr. unfold advance. destruct (Z.gtb_spec (currentTurn s + 1) 12); [| lia].
  destruct (Z.ltb_spec (currentRound s) 6); [lia |]. reflexivity.
Qed.

(** A pick at a valid index while the six packs of the round hold [m] cards
    each: the card at the index is picked, every pack is left with [m - 1]
    cards, and five removals are logged. *)
Lemma pickCard_valid (s : DraftState) (i : Z) (r : Rng)
    (done : list RoundState) (cur : RoundState) (m a : nat) :
  rounds s = done ++ [cur] ->
  getActivePackIndex (currentTurn s) = Z.of_nat a -> (a < 6)%nat ->
  pack_sizes (packs cur) = replicate 6 m ->
  0 <= i < Z.of_nat m ->
  exists (pk : Card) (cur' : RoundState) (r1 : Rng),
    pickCard s i r =
    inr (advance
           (mkDraftState (masterCards s) (done ++ [cur']) (currentRound s) (currentTurn s)
              (picks s ++ [Some pk])
              (log s ++ [mkPickLogEntry (currentRound s) (currentTurn s) (Z.of_nat a)
                           (Some pk) 5])
              (isComplete s) (Some s)) r1)
    /\ pack_sizes (packs cur') = replicate 6 (Nat.pred m).
Proof.
  intros Hrounds Ha Ha6 Hsizes Hi.
  assert (Hlast : last (rounds s) = Some cur) by (rewrite Hrounds; apply last_snoc).
  assert (Hlen : length (packs cur) = 6%nat).
  { unfold pack_sizes in Hsizes. apply (f_equal length) in Hsizes.
    rewrite length_map, length_replicate in Hsizes. exact Hsizes. }
  destruct (index_in_range (packs cur) (Z.of_nat a)) as [ap Hap]; [lia |].
  assert (Hapm : length (cards ap) = m).
  { apply index_Some in Hap as [_ Hap]. rewrite Nat2Z.id in Hap.
    eapply pack_sizes_lookup; [| exact Hap].
    rewrite Hsizes. apply lookup_replicate_2. exact Ha6. }
  destruct (index_in_range (cards ap) i) as [pk Hpk]; [lia |].
  rewrite <- Ha in Hap. rewrite (pickCard_run s i r cur ap Hlast Hap). cbv zeta.
  set (loop := removal_loop _ 0 _ 0 r).
  destruct (removal_loop_sizes (getActivePackIndex (currentTurn s))
              (packs_after_pick i cur ap (getActivePackIndex (currentTurn s))) 0 0 r)
    as [Hs Hc].
  fold loop in Hs, Hc.
  assert (Hafter : pack_sizes (packs_after_pick i cur ap (getActivePackIndex (currentTurn s)))
                   = <[a := Nat.pred m]> (replicate 6 m)).
  { unfold packs_after_pick. rewrite pack_sizes_insert, Hsizes, Ha, Nat2Z.id.
    f_equal. unfold set_cards. cbn [cards].
    rewrite (splice1_in_range _ _ _ Hpk). cbn [snd].
    apply index_Some in Hpk as [_ Hpk]. rewrite length_delete by eauto. lia. }
  rewrite Hafter, Ha in Hs, Hc.
  destruct (sizes_after_pick m a 6 0 Ha6) as [Hs' Hc'].
  replace (0 + Z.of_nat a) with (Z.of_nat a) in Hs', Hc' by lia.
  rewrite Hs' in Hs. rewrite Hc' in Hc by lia.
  exists pk, (mkRoundState (roundNumber cur) (fst (fst loop)) (turn cur)), (snd loop).
  split; [| exact Hs].
  unfold picked_state. rewrite Hrounds, set_last_snoc.
  rewrite (splice1_in_range _ _ _ Hpk). cbn [fst head].
  rewrite Hc, Ha. reflexivity.
Qed.

(** ** Runs of valid picks *)

Lemma reached_bound (pool : list Card) (n : nat) (s : DraftState) :
  reached pool n s -> (n <= 72)%nat.
Proof. intros [(q & t & -> & Ht & Hq & _) | [-> _]]; lia. Qed.

Lemma createNewDraft_run (pool : list Card) (r : Rng) :
  createNewDraft pool r =
  (mkDraftState pool [fst (createRound 1 pool r)] 1 1 [] [] false None,
   snd (createRound 1 pool r)).
Proof. unfold createNewDraft. rewrite bind_run, ret_run. reflexivity. Qed.

Lemma drawn_packs_full (pool : list Card) (packs : list Pack) :
  (12 <= length pool)%nat -> length packs = 6%nat -> Forall (drawn_from pool) packs ->
  pack_sizes packs = replicate 6 12%nat.
Proof.
  intros Hpool Hlen Hall.
  assert (H : Forall (fun p => length (cards p) = 12%nat) packs).
  { eapply Forall_impl; [exact Hall |]. intros p [Hp _]. lia. }
  unfold pack_sizes. clear Hall Hpool.
  do 7 (destruct packs as [| ? packs]; try discriminate).
  repeat (apply Forall_cons in H as [? H]).
  simpl. repeat f_equal; assumption.
Qed.

Lemma createRound_full (roundNumber : Z) (pool : list Card) (r : Rng) :
  (12 <= length pool)%nat -> all_packs 12 (fst (createRound roundNumber pool r)).
Proof.
  intros Hpool. destruct (createRound_spec roundNumber pool r) as (_ & _ & Hlen & Hall).
  apply (drawn_packs_full pool); assumption.
Qed.

Lemma createNewDraft_in_progress (pool : list Card) (r : Rng) :
  (12 <= length pool)%nat -> in_progress pool 0 0 (fst (createNewDraft pool r)).
Proof.
  intros Hpool. rewrite createNewDraft_run. cbn [fst].
  constructor; cbn; try reflexivity.
  exists [], (fst (createRound 1 pool r)). repeat split; auto.
  apply createRound_full, Hpool.
Qed.

Lemma getActivePackIndex_turn (t : nat) :
  (t < 12)%nat ->
  exists a, getActivePackIndex (Z.of_nat t + 1) = Z.of_nat a /\ (a < 6)%nat.
Proof.
  intros Ht. unfold getActivePackIndex.
  replace (Z.of_nat t + 1 - 1) with (Z.of_nat t) by lia.
  destruct (Z.rem_bound_pos (Z.of_nat t) 6) as [Hlo Hhi]; [lia | lia |].
  exists (Z.to_nat (Z.rem (Z.of_nat t) 6)). split; lia.
Qed.

Lemma in_progress_active (pool : list Card) (q t : nat) (s : DraftState) :
  in_progress pool q t s -> (t < 12)%nat ->
  exists ap, active_pack s = Some ap /\ length (cards ap) = (12 - t)%nat.
Proof.
  intros [_ _ _ Hturn _ _ (done & cur & Hrounds & _ & _ & Hcur)] Ht.
  destruct (getActivePackIndex_turn t Ht) as (a & Ha & Ha6).
  unfold active_pack. rewrite Hrounds, last_snoc, Hturn, Ha.
  assert (Hlen : length (packs cur) = 6%nat).
  { unfold all_packs, pack_sizes in Hcur. apply (f_equal length) in Hcur.
    rewrite length_map, length_replicate in Hcur. exact Hcur. }
  destruct (index_in_range (packs cur) (Z.of_nat a)) as [ap Hap]; [lia |].
  exists ap. split; [exact Hap |].
  apply index_Some in Hap as [_ Hap]. rewrite Nat2Z.id in Hap.
  eapply pack_sizes_lookup; [| exact Hap].
  rewrite Hcur. apply lookup_replicate_2. exact Ha6.
Qed.

(** One valid pick takes the draft from [n] picks to [n + 1]. *)
Lemma pickCard_step (pool : list Card) (n : nat) (s : DraftState) (i : Z) (r : Rng) :
  (12 <= length pool)%nat ->
  reached pool n s -> valid_index s i = true ->
  exists s' r', pickCard s i r = inr (s', r') /\ reached pool (S n) s'.
Proof.
  intros Hpool [(q & t & -> & Ht & Hq & Hip) | [_ Hfin]] Hvalid.
  2: { unfold valid_index in Hvalid. rewrite (fin_complete _ Hfin) in Hvalid. discriminate. }
  destruct (in_progress_active _ _ _ _ Hip Ht) as (ap & Hap & Hapm).
  unfold valid_index in Hvalid. rewrite Hap, Hapm in Hvalid.
  apply andb_true_iff in Hvalid as [_ Hvalid].
  apply andb_true_iff in Hvalid as [Hi0 Hi1].
  apply Z.leb_le in Hi0. apply Z.ltb_lt in Hi1.
  destruct Hip as [Hmaster Hopen Hround Hturn Hpicks Hlog (done & cur & Hrounds & Hdone & Hzero & Hcur)].
  destruct (getActivePackIndex_turn t Ht) as (a & Ha & Ha6). rewrite <- Hturn in Ha.
  destruct (pickCard_valid s i r done cur (12 - t) a Hrounds Ha Ha6 Hcur)
    as (pk & cur' & r1 & Hpick & Hcur'); [lia |].
  rewrite Hpick. set (mid := mkDraftState _ _ _ _ _ _ _ _).
  destruct (advance mid r1) as [s' r'] eqn:Hadv.
  exists s', r'. split; [reflexivity |].
  destruct (Nat.eq_dec t 11%nat) as [-> | Ht11].
  - (* the last turn of the round *)
    replace (Nat.pred (12 - 11)) with 0%nat in Hcur' by lia.
    destruct (Nat.eq_dec q 5%nat) as [-> | Hq5].
    + right. split; [lia |].
      rewrite advance_complete in Hadv by (subst mid; cbn; lia).
      injection Hadv as <- _. subst mid.
      constructor; cbn; rewrite ?length_app; cbn; try lia.
      apply Forall_app. split; [exact Hzero |]. constructor; [exact Hcur' | constructor].
    + left. exists (S q), 0%nat. split; [lia |]. split; [lia |]. split; [lia |].
      pose proof (advance_next_round mid r1) as Hnext.
      rewrite Hadv in Hnext. cbn [fst] in Hnext.
      rewrite Hnext by (subst mid; cbn; lia). subst mid.
      constructor; cbn; rewrite ?length_app; cbn; try lia; try assumption.
      exists (done ++ [cur']), (fst (createRound (currentRound s + 1) (masterCards s) r1)).
      repeat split.
      * rewrite length_app. simpl. lia.
      * apply Forall_app. split; [exact Hzero |]. constructor; [exact Hcur' | constructor].
      * rewrite Hmaster. apply createRound_full, Hpool.
  - left. exists q, (S t). split; [lia |]. split; [lia |]. split; [lia |].
    rewrite advance_within_round in Hadv by (subst mid; cbn; lia).
    injection Hadv as <- _. subst mid.
    constructor; cbn; rewrite ?length_app; cbn; try lia; try assumption.
    exists done, cur'. repeat split; auto.
    unfold all_packs. rewrite Hcur'. f_equal. lia.
Qed.

Lemma pick_all_reached (pool : list Card) :
  (12 <= length pool)%nat ->
  forall (indices : list Z) (n : nat) (s : DraftState) (r : Rng) (s' : DraftState) (r' : Rng),
    reached pool n s -> pick_all s indices r = Some (s', r') ->
    reached pool (n + length indices) s'.
Proof.
  intros Hpool. induction indices as [| i rest IH]; intros n s r s' r' Hreach Hrun.
  - simpl in *. injection Hrun as <- _. rewrite Nat.add_0_r. exact Hreach.
  - cbn [pick_all] in Hrun. destruct (valid_index s i) eqn:Hvalid; [| discriminate].
    destruct (pickCard_step pool n s i r Hpool Hreach Hvalid) as (s1 & r1 & Hpick & Hreach1).
    rewrite Hpick in Hrun. specialize (IH _ _ _ _ _ Hreach1 Hrun).
    simpl. rewrite Nat.add_succ_r. exact IH.
Qed.

Lemma first_card_valid (pool : list Card) (n : nat) (s : DraftState) :
  reached pool n s -> (n < 72)%nat -> valid_index s 0 = true.
Proof.
  intros [(q & t & -> & Ht & Hq & Hip) | [-> _]] Hn; [| lia].
  destruct (in_progress_active _ _ _ _ Hip Ht) as (ap & Hap & Hapm).
  unfold valid_index. rewrite (ip_open _ _ _ _ Hip), Hap, Hapm. simpl.
  apply Z.ltb_lt. lia.
Qed.

(** Picking the first card again and again is a run of valid picks up to
    the end of the draft. *)
Lemma pick_all_first_cards (pool : list Card) :
  (12 <= length pool)%nat ->
  forall (k n : nat) (s : DraftState) (r : Rng),
    reached pool n s -> (n + k <= 72)%nat -> is_Some (pick_all s (replicate k 0) r).
Proof.
  intros Hpool. induction k as [| k IH]; intros n s r Hreach Hk.
  - simpl. eauto.
  - cbn [replicate pick_all]. rewrite (first_card_valid pool n s Hreach) by lia.
    destruct (pickCard_step pool n s 0 r Hpool Hreach) as (s1 & r1 & Hpick & Hreach1).
    { apply (first_card_valid pool n s Hreach). lia. }
    rewrite Hpick. apply (IH (S n)); [exact Hreach1 | lia].
Qed.

Lemma pickCard_undo (s : DraftState) (i : Z) (r : Rng) (s' : DraftState) (r' : Rng) :
  pickCard s i r = inr (s', r') -> undoBuffer s' = Some s /\ undoLastPick s' = Some s.
Proof.
  intros Hpick. assert (Hbuf : undoBuffer s' = Some s).
  { unfold pickCard in Hpick. rewrite !deepClone_id in Hpick.
    destruct (last (rounds s)) as [rd |]; [| discriminate].
    destruct (Js.index (packs rd) _) as [ap |]; [| discriminate].
    injection Hpick as Hpick. rewrite bind_run in Hpick.
    match type of Hpick with advance ?mid ?r1 = _ =>
      destruct (advance_frame mid r1) as (_ & _ & _ & Hb); rewrite Hpick in Hb end.
    exact Hb. }
  split; [exact Hbuf |]. unfold undoLastPick. rewrite Hbuf, deepClone_id. reflexivity.
Qed.

(** ** C1: picks that the board would not offer *)

(** C1, as the code has it.  [pickCard] validates nothing and has no
    failure of its own: whatever the index, and whether or not the draft is
    complete, a state with a current round and an active pack yields a new
    state that keeps the given one, untouched, as its undo buffer, that
    records one more pick and one more log entry (the card at the index
    that [splice] resolves, or none when the index is at or past the end of
    the pack) and whose turn has advanced.  Only a state without a round or
    without the active pack makes the call throw. *)
Theorem pickCard_validates_nothing (s : DraftState) (i : Z) (r : Rng) :
  match pickCard s i r with
  | inl _ => active_pack s = None
  | inr (s', _) =>
      exists ap e,
        active_pack s = Some ap
        /\ undoBuffer s' = Some s
        /\ picks s' = picks s ++ [cards ap !! Js.relative_index (length (cards ap)) i]
        /\ log s' = log s ++ [e]
        /\ picked e = cards ap !! Js.relative_index (length (cards ap)) i
        /\ round e = currentRound s /\ log_turn e = currentTurn s
        /\ (currentTurn s' = currentTurn s + 1
            \/ (currentTurn s' = 1 /\ currentRound s' = currentRound s + 1))
  end.
Proof.
  destruct (pickCard s i r) as [e | [s' r']] eqn:Hpick.
  - eapply pickCard_throws, Hpick.
  - destruct (pickCard_undo _ _ _ _ _ Hpick) as [Hbuf _].
    unfold active_pack.
    destruct (last (rounds s)) as [rd |] eqn:Hrd.
    2: { unfold pickCard in Hpick. rewrite !deepClone_id, Hrd in Hpick. discriminate. }
    destruct (Js.index (packs rd) (getActivePackIndex (currentTurn s))) as [ap |] eqn:Hap.
    2: { unfold pickCard in Hpick. rewrite !deepClone_id, Hrd, Hap in Hpick. discriminate. }
    rewrite (pickCard_run s i r rd ap Hrd Hap) in Hpick. cbv zeta in Hpick.
    injection Hpick as Hpick.
    match type of Hpick with advance ?mid ?r1 = _ =>
      pose proof (advance_frame mid r1) as (_ & Hpicks & Hlog & _);
      assert (Hturn : currentTurn (fst (advance mid r1)) = currentTurn mid + 1
                      \/ (currentTurn (fst (advance mid r1)) = 1
                          /\ currentRound (fst (advance mid r1)) = currentRound mid + 1))
    end.
    { unfold advance.
      destruct (_ >? 12); [destruct (_ <? 6) |]; rewrite ?bind_run, ?ret_run; cbn; auto. }
    rewrite Hpick in Hpicks, Hlog, Hturn. cbn in Hpicks, Hlog, Hturn.
    rewrite splice1_head in Hpicks, Hlog.
    eexists ap, _. repeat split; eauto.
Qed.

(** C1 fails on the code: in the fresh demo draft every pack holds twelve
    cards, so index 12 is no position of the active pack; the call returns
    all the same, with an empty pick appended, an entry logged, a card
    gone from each of the other packs and the turn advanced.  So does a pick
    from the completed draft. *)
Lemma invalid_pick_changes_state :
  valid_index demo_start 12 = false
  /\ match demo_after [12] with
     | Some s' =>
         picks s' = [None] /\ length (log s') = 1%nat /\ currentTurn s' = 2
         /\ map (fun rd => pack_sizes (packs rd)) (rounds s')
            = [[12; 11; 11; 11; 11; 11]%nat]
     | None => False
     end
  /\ match demo_after (replicate 72 0), demo_after (replicate 73 0) with
     | Some s, Some s' =>
         isComplete s = true /\ length (picks s) = 72%nat /\ currentTurn s = 13
         /\ length (picks s') = 73%nat /\ length (log s') = 73%nat /\ currentTurn s' = 14
     | _, _ => False
     end.
Proof. vm_compute. repeat split; reflexivity. Qed.

(** ** C5: pick, then undo *)

(** C5.  A pick at a valid index of a draft that is not complete succeeds,
    and undoing it gives back the state before the pick, field for field. *)
Theorem undo_after_pick_restores (s : DraftState) (i : Z) (r : Rng) :
  valid_index s i = true ->
  exists s' r', pickCard s i r = inr (s', r') /\ undoLastPick s' = Some s.
Proof.
  intros Hvalid. destruct (pickCard s i r) as [e | [s' r']] eqn:Hpick.
  - apply pickCard_throws in Hpick. unfold valid_index in Hvalid.
    rewrite Hpick, andb_false_r in Hvalid. discriminate.
  - exists s', r'. split; [reflexivity |]. eapply pickCard_undo, Hpick.
Qed.

Lemma undo_after_pick_restores_witness :
  valid_index demo_start 3 = true
  /\ exists s' r', pickCard demo_start 3 demo_start_rng = inr (s', r')
                   /\ undoLastPick s' = Some demo_start.
Proof.
  assert (H : valid_index demo_start 3 = true) by (vm_compute; reflexivity).
  split; [exact H | exact (undo_after_pick_restores demo_start 3 demo_start_rng H)].
Defined.

(** ** C2: undo after undo *)

(** C2, as the code has it.  An undo that succeeds returns the buffered
    snapshot as it is, together with the undo buffer that the snapshot
    itself carries; a second undo in a row fails exactly when the snapshot
    carries none.  Since [pickCard] snapshots the whole state, buffer
    included, the state that undo returns after a pick is the state the
    pick was made from, and a further undo behaves as it would have there. *)
Theorem undo_returns_snapshot_with_its_buffer (s u : DraftState) :
  undoLastPick s = Some u ->
  undoBuffer s = Some u
  /\ (undoLastPick u = None <-> undoBuffer u = None)
  /\ forall (s0 : DraftState) (i : Z) (r r' : Rng),
       pickCard s0 i r = inr (s, r') -> u = s0 /\ undoLastPick u = undoLastPick s0.
Proof.
  intros Hundo. unfold undoLastPick in Hundo.
  destruct (undoBuffer s) as [b |] eqn:Hb; [| discriminate].
  rewrite deepClone_id in Hundo. injection Hundo as ->.
  split; [reflexivity |]. split.
  - unfold undoLastPick. destruct (undoBuffer u); split; congruence.
  - intros s0 i r r' Hpick. apply pickCard_undo in Hpick as [Hbuf _].
    rewrite Hbuf in Hb. injection Hb as ->. auto.
Qed.

Lemma undo_returns_snapshot_with_its_buffer_witness :
  match demo_after [0] with
  | Some s =>
      undoLastPick s = Some demo_start
      /\ undoBuffer s = Some demo_start
      /\ (undoLastPick demo_start = None <-> undoBuffer demo_start = None)
  | None => False
  end.
Proof.
  destruct (demo_after [0]) as [s |] eqn:E; [| vm_compute in E; discriminate].
  assert (H : undoLastPick s = Some demo_start).
  { unfold demo_after in E. cbn [demo_picks] in E.
    destruct (pickCard demo_start 0 demo_start_rng) as [e | [s' r']] eqn:Hpick;
      [discriminate |].
    injection E as <-. eapply pickCard_undo, Hpick. }
  destruct (undo_returns_snapshot_with_its_buffer s demo_start H) as (H1 & H2 & _).
  auto.
Defined.

(** C2 fails on the code: after two picks an undo returns a state that
    still carries an undo buffer, and a second undo in a row succeeds. *)
Lemma second_undo_succeeds :
  (demo_after [0; 0] ≫= undoLastPick) ≫= undoBuffer <> None
  /\ (demo_after [0; 0] ≫= undoLastPick) ≫= undoLastPick = Some demo_start.
Proof. vm_compute. split; [discriminate | reflexivity]. Qed.

(** ** C3 and C9: rounds run from twelve cards a pack to none *)

(** C9.  In a fresh draft over a pool of at least twelve cards every index
    below 12 is a valid pick, and one such pick leaves the draft in round 1
    with one round whose six packs, the active one and the five others,
    hold eleven cards each, and with one log entry, which counts five
    removals. *)
Theorem first_pick_leaves_eleven (pool : list Card) (r : Rng) (i : Z) :
  (12 <= length pool)%nat -> 0 <= i < 12 ->
  let start := createNewDraft pool r in
  valid_index (fst start) i = true
  /\ exists s' r' rd e,
       pickCard (fst start) i (snd start) = inr (s', r')
       /\ currentRound s' = 1 /\ currentTurn s' = 2 /\ rounds s' = [rd]
       /\ pack_sizes (packs rd) = replicate 6 11%nat
       /\ log s' = [e] /\ removedCounts e = 5.
Proof.
  intros Hpool Hi. cbv zeta.
  pose proof (createNewDraft_in_progress pool r Hpool) as Hip.
  destruct (in_progress_active _ _ _ _ Hip) as (ap0 & Hap0 & Hlen0); [lia |].
  assert (Hvalid : valid_index (fst (createNewDraft pool r)) i = true).
  { unfold valid_index. rewrite (ip_open _ _ _ _ Hip), Hap0, Hlen0. simpl.
    apply andb_true_iff. split; [apply Z.leb_le | apply Z.ltb_lt]; lia. }
  split; [exact Hvalid |].
  rewrite createNewDraft_run. cbn [fst snd].
  set (s0 := mkDraftState pool _ 1 1 [] [] false None).
  destruct (pickCard_valid s0 i (snd (createRound 1 pool r)) []
              (fst (createRound 1 pool r)) 12 0)
    as (pk & cur' & r1 & Hpick & Hcur'); try reflexivity; try lia.
  { apply (createRound_full 1 pool r Hpool). }
  rewrite advance_within_round in Hpick by (cbn; lia). cbn in Hpick.
  eexists _, r1, cur', _. split; [exact Hpick |]. cbn.
  repeat split; try reflexivity. exact Hcur'.
Qed.

Lemma first_pick_leaves_eleven_witness :
  (12 <= length demo_pool)%nat /\ 0 <= 7 < 12
  /\ valid_index demo_start 7 = true
  /\ exists s' r' rd e,
       pickCard demo_start 7 demo_start_rng = inr (s', r')
       /\ currentRound s' = 1 /\ currentTurn s' = 2 /\ rounds s' = [rd]
       /\ pack_sizes (packs rd) = replicate 6 11%nat
       /\ log s' = [e] /\ removedCounts e = 5.
Proof.
  assert (H12 : (12 <= length demo_pool)%nat) by (vm_compute; lia).
  assert (H7 : 0 <= 7 < 12) by lia.
  split; [exact H12 |]. split; [exact H7 |].
  exact (first_pick_leaves_eleven demo_pool demo_rng 7 H12 H7).
Defined.

(** C3.  Over a pool of at least twelve cards a draft can be played to the
    end by valid picks (the first card will always do), and for every run
    of valid picks from the fresh draft: it has at most 72 picks; after the
    twelve picks of each round so far the packs of the rounds played are
    all empty and the six packs of the round that starts hold twelve cards
    each; after 72 picks the draft is complete with 72 cards picked and
    every pack of all six rounds empty. *)
Theorem rounds_start_full_and_end_empty (pool : list Card) (r : Rng) :
  (12 <= length pool)%nat ->
  let start := createNewDraft pool r in
  is_Some (pick_all (fst start) (replicate 72 0) (snd start))
  /\ forall (indices : list Z) (s : DraftState) (r' : Rng),
       pick_all (fst start) indices (snd start) = Some (s, r') ->
       (length indices <= 72)%nat
       /\ length (picks s) = length indices
       /\ (forall q, (q < 6)%nat -> length indices = (12 * q)%nat ->
           exists done cur,
             rounds s = done ++ [cur] /\ length done = q
             /\ Forall (all_packs 0) done /\ all_packs 12 cur)
       /\ (length indices = 72%nat ->
           isComplete s = true /\ length (picks s) = 72%nat
           /\ length (rounds s) = 6%nat /\ Forall (all_packs 0) (rounds s)).
Proof.
  intros Hpool start.
  assert (Hstart : reached pool 0 (fst start)).
  { left. exists 0%nat, 0%nat. split; [lia |]. split; [lia |]. split; [lia |].
    apply createNewDraft_in_progress, Hpool. }
  split.
  - apply (pick_all_first_cards pool Hpool 72 0); [exact Hstart | lia].
  - intros indices s r' Hrun.
    pose proof (pick_all_reached pool Hpool indices 0 _ _ _ _ Hstart Hrun) as Hreach.
    cbn [Nat.add] in Hreach. pose proof (reached_bound _ _ _ Hreach) as Hbound.
    split; [exact Hbound |].
    destruct Hreach as [(q & t & Hn & Ht & Hq & Hip) | [Hn Hfin]].
    + split; [rewrite (ip_picks _ _ _ _ Hip); lia |]. split; [| lia].
      intros q' Hq' Hn'. assert (q' = q /\ t = 0%nat) as [-> ->] by lia.
      destruct (ip_rounds _ _ _ _ Hip) as (done & cur & H1 & H2 & H3 & H4).
      exists done, cur. auto.
    + destruct Hfin as [H1 H2 H3 H4 H5].
      split; [lia |]. split; [intros q Hq Hq'; lia | auto].
Qed.

Lemma rounds_start_full_and_end_empty_witness :
  (12 <= length demo_pool)%nat
  /\ exists s r',
       pick_all demo_start (replicate 72 0) demo_start_rng = Some (s, r')
       /\ isComplete s = true /\ length (picks s) = 72%nat
       /\ length (rounds s) = 6%nat /\ Forall (all_packs 0) (rounds s).
Proof.
  assert (H12 : (12 <= length demo_pool)%nat) by (vm_compute; lia).
  split; [exact H12 |].
  destruct (rounds_start_full_and_end_empty demo_pool demo_rng H12) as [Hsome Hall].
  fold demo_start demo_start_rng in Hsome, Hall.
  destruct (pick_all demo_start (replicate 72 0) demo_start_rng) as [[s r'] |] eqn:E.
  - exists s, r'. split; [reflexivity |].
    destruct (Hall _ _ _ E) as (_ & _ & _ & Hfin). apply Hfin. reflexivity.
  - destruct Hsome as [x Hx]. discriminate.
Defined.

(** ** C10: pack creation *)

(** C10.  Pack creation is total: for every pool a round has six packs,
    each of [min 12 (length pool)] cards drawn from the pool without
    replacement (with the cards left undrawn it is a rearrangement of the
    pool); over a pool of fewer than twelve cards each pack is a
    rearrangement of the whole pool. *)
Theorem packs_are_drawn_without_replacement (pool : list Card) (roundNumber : Z) (r : Rng) :
  let rd := fst (createRound roundNumber pool r) in
  length (packs rd) = 6%nat
  /\ Forall (fun pack =>
               length (cards pack) = Nat.min 12 (length pool)
               /\ (exists rest, cards pack ++ rest ≡ₚ pool)
               /\ ((length pool < 12)%nat -> cards pack ≡ₚ pool))
       (packs rd)
  /\ forall k : Z,
       let pack := fst (sampleWithoutReplacement pool k r) in
       Z.of_nat (length pack) = Z.max 0 (Z.min k (Z.of_nat (length pool)))
       /\ exists rest, pack ++ rest ≡ₚ pool.
Proof.
  cbv zeta. destruct (createRound_spec roundNumber pool r) as (_ & _ & Hlen & Hall).
  split; [exact Hlen |]. split.
  - eapply Forall_impl; [exact Hall |]. intros pack Hpack.
    destruct Hpack as [Hl Hrest] eqn:E. split; [exact Hl |]. split; [exact Hrest |].
    intros Hsmall. apply (drawn_from_small_pool pool pack); [split |]; assumption.
  - intros k. apply sampleWithoutReplacement_spec.
Qed.

Lemma packs_are_drawn_without_replacement_witness :
  Forall (fun pack => length (cards pack) = 3%nat /\ cards pack ≡ₚ small_pool)
    (packs (fst (createRound 1 small_pool demo_rng))).
Proof.
  destruct (packs_are_drawn_without_replacement small_pool 1 demo_rng) as (_ & H & _).
  eapply Forall_impl; [exact H |]. intros pack (Hlen & _ & Hperm).
  split; [exact Hlen |]. apply Hperm. vm_compute. lia.
Defined.

(** ** C4: the removal policy *)

Lemma getRarityValue_unknown (name : string) :
  name ∉ rarity_names -> name ∉ Js.inherited_keys -> getRarityValue (Some name) = Some 0.
Proof.
  intros Hname Hplain. destruct name as [| c name]; [reflexivity |].
  cbn [getRarityValue]. unfold rarityMap.
  rewrite (not_elem_of_list_to_map_1 _ (String c name)) by exact Hname.
  rewrite (bool_decide_eq_false_2 _ Hplain). reflexivity.
Qed.

Lemma getRarityValue_inherited (name : string) :
  name ∈ Js.inherited_keys -> getRarityValue (Some name) = None.
Proof.
  unfold Js.inherited_keys. intros Hname.
  repeat (apply elem_of_cons in Hname as [-> | Hname]; [vm_compute; reflexivity |]).
  apply elem_of_nil in Hname. contradiction.
Qed.

Lemma stream_offset_insert (packIndex : Z) (packs : list Pack) :
  forall (i : Z) (r : Rng) (j a : nat) (p : Pack),
    i + Z.of_nat a = packIndex ->
    stream_offset packIndex i (<[a := p]> packs) r j = stream_offset packIndex i packs r j.
Proof.
  induction packs as [| pack rest IH]; intros i r j a p Ha; [reflexivity |].
  destruct j as [| j]; [destruct a; reflexivity |].
  destruct a as [| a]; cbn [insert list_insert stream_offset]; cbv zeta.
  - replace (i =? packIndex) with true by (symmetry; apply Z.eqb_eq; lia). reflexivity.
  - f_equal. apply IH. lia.
Qed.

Lemma removal_loop_length (packIndex : Z) (packs : list Pack) :
  forall (i c : Z) (r : Rng),
    length (fst (fst (removal_loop packIndex i packs c r))) = length packs.
Proof.
  induction packs as [| pack rest IH]; intros i c r; [reflexivity |].
  rewrite removal_loop_cons. destruct (i =? packIndex); cbn; rewrite IH; reflexivity.
Qed.

Lemma advance_rounds (s : DraftState) (r : Rng) :
  rounds (fst (advance s r)) = rounds s
  \/ exists next, rounds (fst (advance s r)) = rounds s ++ [next].
Proof.
  unfold advance.
  destruct (_ >? 12); [destruct (_ <? 6) |]; rewrite ?bind_run, ?ret_run; cbn; eauto.
Qed.

(** C4 is not met by the code.  "constructor" is none of the nine
    rarities, and its value is not rank 0: it is not a number.  So in the
    rarity branch (a first sample that is not below one half) two cards of
    this rarity do not tie: [findRarestCardIndex] returns no index and,
    whatever the second sample, the first of them goes, where the claim
    has the sample choose between the two.  And next to a card without a
    rarity, which has rank 0, the card of this rarity is never the one
    that goes. *)
Theorem inherited_rarity_is_not_rank_zero (r : Rng) :
  (precision <= 2 * sample r 0)%N ->
  (("constructor"%string ∉ rarity_names)
   /\ getRarityValue (Some "constructor"%string) = None
   /\ getRarityValue None = Some 0)
  /\ fst (findRarestCardIndex (cards unranked_pack) r) = None
  /\ cards (fst (fst (removeFromPack unranked_pack r)))
     = [odd_card 2 "Second" (Some "constructor"%string)]
  /\ cards (fst (fst (removeFromPack half_ranked_pack r)))
     = [odd_card 1 "First" (Some "constructor"%string)].
Proof.
  intros Hhalf.
  assert (Hbranch : below_half (fst (Math_random r)) = false).
  { unfold below_half. apply N.ltb_ge. exact Hhalf. }
  split; [| split; [| split]].
  - split; [| split; vm_compute; reflexivity].
    intros Hin. unfold rarity_names in Hin.
    repeat (apply elem_of_cons in Hin as [Hin | Hin]; [discriminate |]).
    apply elem_of_nil in Hin. exact Hin.
  - destruct (findRarestCardIndex_spec (cards unranked_pack) r)
      as [(k & Hone & _) | [(j & k & Hlen & _) | (_ & ->)]];
      [discriminate | vm_compute in Hone; discriminate | vm_compute in Hlen; lia |].
    reflexivity.
  - unfold removeFromPack. cbn [unranked_pack cards length].
    change (Z.of_nat 2 >? 0) with true. cbv iota.
    rewrite bind_run, Hbranch, bind_run, ret_run. cbn [fst snd].
    destruct (findRarestCardIndex_spec (cards unranked_pack) (snd (Math_random r)))
      as [(k & Hone & _) | [(j & k & Hlen & _) | (_ & Hrun)]];
      [discriminate | vm_compute in Hone; discriminate | vm_compute in Hlen; lia |].
    cbn [unranked_pack cards] in Hrun. rewrite Hrun. reflexivity.
  - unfold removeFromPack. cbn [half_ranked_pack cards length].
    change (Z.of_nat 2 >? 0) with true. cbv iota.
    rewrite bind_run, Hbranch, bind_run, ret_run. cbn [fst snd].
    destruct (findRarestCardIndex_spec (cards half_ranked_pack) (snd (Math_random r)))
      as [(k & Hone & Hrun) | [(j & k & Hlen & _) | (Hnone & _)]];
      [discriminate | | vm_compute in Hlen; lia | vm_compute in Hnone; discriminate].
    vm_compute in Hone. injection Hone as <-.
    cbn [half_ranked_pack cards] in Hrun. rewrite Hrun. reflexivity.
Qed.

Lemma inherited_rarity_is_not_rank_zero_witness :
  (precision <= 2 * sample demo_rng 0)%N
  /\ cards (fst (fst (removeFromPack unranked_pack demo_rng)))
     = [odd_card 2 "Second" (Some "constructor"%string)]
  /\ cards (fst (fst (removeFromPack half_ranked_pack demo_rng)))
     = [odd_card 1 "First" (Some "constructor"%string)].
Proof.
  assert (Hhalf : (precision <= 2 * sample demo_rng 0)%N) by (vm_compute; discriminate).
  split; [exact Hhalf |].
  destruct (inherited_rarity_is_not_rank_zero demo_rng Hhalf)
    as (_ & _ & Hfirst & Hsecond).
  split; [exact Hfirst | exact Hsecond].
Defined.

(** X30.  The removal policy of a pick, as the code has it.  The ranks are
    Common 1, Uncommon 2, Rare 3, Super Rare 4, Legendary 5, Epic 6,
    Iconic 7, Enchanted 8, Special 9, and 0 for a rarity that is missing or
    is none of these, unless it is a name that every object inherits: then
    the value is not a number.  The positions that the rarity branch
    chooses among are exactly those of the cards whose rank is a number
    that no rank in the pack exceeds, and there is none exactly when no
    rank in the pack is a number.  On every pick that returns, the round
    keeps its number of packs and every pack but the active one has gone
    through the mixed removal with the two samples that are next in the
    stream at its turn, after those that the packs before it drew: skipped
    when empty, and otherwise without exactly one card, the one that the
    second sample selects among all positions when the first sample is
    below one half, and among the positions of greatest rank when it is
    not; the first card when there is no such position. *)
Theorem mixed_removal_policy :
  (map (fun name => getRarityValue (Some name)) rarity_names
   = map Some [1; 2; 3; 4; 5; 6; 7; 8; 9]
   /\ getRarityValue None = Some 0
   /\ (forall name, name ∉ rarity_names -> name ∉ Js.inherited_keys ->
         getRarityValue (Some name) = Some 0)
   /\ (forall name, name ∈ Js.inherited_keys -> getRarityValue (Some name) = None))
  /\ (forall (cs : list Card) (k : Z), k ∈ rarest_indices cs <-> greatest_rank cs k)
  /\ (forall cs : list Card,
        rarest_indices cs = [] <-> Forall (fun c => rank c = None) cs)
  /\ forall (s : DraftState) (i : Z) (r : Rng) (s' : DraftState) (r' : Rng) (rd : RoundState),
       pickCard s i r = inr (s', r') -> last (rounds s) = Some rd ->
       exists rd',
         rounds s' !! Nat.pred (length (rounds s)) = Some rd'
         /\ length (packs rd') = length (packs rd)
         /\ forall (j : nat) (p : Pack),
              packs rd !! j = Some p ->
              Z.of_nat j <> getActivePackIndex (currentTurn s) ->
              let n := stream_offset (getActivePackIndex (currentTurn s)) 0 (packs rd) r j in
              exists p',
                packs rd' !! j = Some p'
                /\ mixed_removal (sample r n) (sample r (S n)) (cards p) (cards p').
Proof.
  split; [| split; [| split]].
  - split; [vm_compute; reflexivity |]. split; [reflexivity |].
    split; [apply getRarityValue_unknown | apply getRarityValue_inherited].
  - apply rarest_indices_spec.
  - apply rarest_indices_nil.
  - intros s i r s' r' rd Hpick Hrd.
    destruct (Js.index (packs rd) (getActivePackIndex (currentTurn s))) as [ap |] eqn:Hap.
    2: { unfold pickCard in Hpick. rewrite !deepClone_id, Hrd, Hap in Hpick. discriminate. }
    rewrite (pickCard_run s i r rd ap Hrd Hap) in Hpick. cbv zeta in Hpick.
    injection Hpick as Hpick.
    set (packIndex := getActivePackIndex (currentTurn s)) in *.
    set (packs1 := packs_after_pick i rd ap packIndex) in *.
    set (loop := removal_loop packIndex 0 packs1 0 r) in *.
    apply last_Some in Hrd as [done Hrounds].
    exists (mkRoundState (roundNumber rd) (fst (fst loop)) (turn rd)).
    assert (Hlen1 : length packs1 = length (packs rd)).
    { unfold packs1, packs_after_pick. apply length_insert. }
    split; [| split].
    + pose proof (advance_rounds (picked_state s i rd ap (fst loop)) (snd loop)) as Hadv.
      rewrite Hpick in Hadv. cbn [fst] in Hadv.
      unfold picked_state in Hadv. cbn [rounds] in Hadv.
      rewrite Hrounds, set_last_snoc in Hadv. rewrite Hrounds, length_app. cbn [length].
      replace (Nat.pred (length done + 1)) with (length done) by lia.
      destruct Hadv as [-> | [next ->]]; [| rewrite <- app_assoc];
        apply list_lookup_middle; reflexivity.
    + cbn [packs]. unfold loop. rewrite removal_loop_length. exact Hlen1.
    + intros j p Hj Hne. cbn [packs].
      apply index_Some in Hap as [Hrange _].
      assert (Hj1 : packs1 !! j = Some p).
      { unfold packs1, packs_after_pick. rewrite list_lookup_insert_ne; [exact Hj |]. lia. }
      destruct (removal_loop_each packIndex packs1 0 0 r j p Hj1)
        as (p' & Hp' & _ & _ & _ & Hother).
      unfold packs1, packs_after_pick in Hother.
      rewrite stream_offset_insert in Hother by lia.
      exists p'. split; [exact Hp' | apply Hother; lia].
Qed.

Lemma mixed_removal_policy_witness :
  exists s' r' rd',
    pickCard demo_start 0 demo_start_rng = inr (s', r')
    /\ rounds s' !! 0%nat = Some rd'
    /\ forall (j : nat) (p : Pack),
         packs (fst (createRound 1 demo_pool demo_rng)) !! j = Some p -> Z.of_nat j <> 0 ->
         let n := stream_offset 0 0 (packs (fst (createRound 1 demo_pool demo_rng)))
                    demo_start_rng j in
         exists p',
           packs rd' !! j = Some p'
           /\ mixed_removal (sample demo_start_rng n) (sample demo_start_rng (S n))
                (cards p) (cards p').
Proof.
  destruct (pickCard demo_start 0 demo_start_rng) as [e | [s' r']] eqn:Hpick;
    [vm_compute in Hpick; discriminate |].
  destruct mixed_removal_policy as (_ & _ & _ & H).
  destruct (H demo_start 0 demo_start_rng s' r' (fst (createRound 1 demo_pool demo_rng)) Hpick)
    as (rd' & Hrd' & _ & Hpacks); [reflexivity |].
  exists s', r', rd'. split; [reflexivity |]. split; [exact Hrd' | exact Hpacks].
Defined.

(** ** C6: resetting the round *)

Lemma resetRound_run (s : DraftState) (r : Rng) :
  let k := Js.findIndex (fun entry => round entry =? currentRound s) (log s) in
  fst (resetRound s r) =
  mkDraftState (masterCards s)
    (Js.set_last (rounds s) (fst (createRound (currentRound s) (masterCards s) r)))
    (currentRound s) 1
    (if k =? -1 then picks s else Js.splice_from (picks s) k)
    (if k =? -1 then log s else Js.splice_from (log s) k)
    (isComplete s) None.
Proof. unfold resetRound. rewrite !deepClone_id, bind_run, ret_run. reflexivity. Qed.

(** C6.  [resetRound] keeps the log up to the first entry of the current
    round and drops that entry and everything after it, cuts the picks at
    the same position, sets the turn to 1, puts six freshly drawn packs in
    the place of the current round, clears the undo buffer, and leaves the
    round number, the pool, the completion flag and the earlier rounds as
    they are. *)
Theorem resetRound_effect (s : DraftState) (r : Rng)
    (done : list RoundState) (old : RoundState) :
  rounds s = done ++ [old] ->
  let s' := fst (resetRound s r) in
  (exists kept removed,
     log s = kept ++ removed /\ log s' = kept
     /\ Forall (fun e => round e <> currentRound s) kept
     /\ ((removed = [] /\ picks s' = picks s)
         \/ (exists e rest, removed = e :: rest /\ round e = currentRound s
                            /\ picks s' = take (length kept) (picks s))))
  /\ currentTurn s' = 1 /\ undoBuffer s' = None
  /\ currentRound s' = currentRound s /\ masterCards s' = masterCards s
  /\ isComplete s' = isComplete s
  /\ exists fresh,
       rounds s' = done ++ [fresh]
       /\ roundNumber fresh = currentRound s /\ turn fresh = 1
       /\ length (packs fresh) = 6%nat
       /\ Forall (drawn_from (masterCards s)) (packs fresh).
Proof.
  intros Hrounds s'. subst s'. rewrite resetRound_run. cbv zeta. cbn.
  split.
  - set (p := fun entry : PickLogEntry => round entry =? currentRound s).
    destruct (findIndex_from_spec p (log s) 0) as [Hrange Hk].
    destruct Hk as [Hnone Hsome]; [lia |]. fold (Js.findIndex p (log s)) in *.
    set (k := Js.findIndex p (log s)) in *.
    destruct (Z.eqb_spec k (-1)) as [Hk | Hk].
    + exists (log s), []. rewrite app_nil_r. repeat split; auto.
      eapply Forall_impl; [exact (Hnone Hk) |]. intros e He. unfold p in He.
      apply Z.eqb_neq, He.
    + destruct (Hsome Hk) as (e & He & Hpe & Hbefore).
      replace (k - 0) with k in * by lia.
      assert (Hkn : (Z.to_nat k < length (log s))%nat) by (eapply lookup_lt_Some, He).
      exists (take (Z.to_nat k) (log s)), (drop (Z.to_nat k) (log s)).
      rewrite take_drop. split; [reflexivity |]. split.
      { unfold Js.splice_from. rewrite relative_index_in_range by lia. reflexivity. }
      split.
      { eapply Forall_impl; [exact Hbefore |]. intros e' He'. unfold p in He'.
        apply Z.eqb_neq, He'. }
      right. exists e, (drop (S (Z.to_nat k)) (log s)).
      split; [apply drop_S, He |]. split; [apply Z.eqb_eq, Hpe |].
      unfold Js.splice_from. rewrite length_take, Nat.min_l by lia.
      unfold Js.relative_index. destruct (Z.ltb_spec k 0); [lia |].
      destruct (Z.le_ge_cases k (Z.of_nat (length (picks s)))).
      * f_equal. lia.
      * rewrite Z.min_r, Nat2Z.id by lia. rewrite firstn_all, take_ge by lia. reflexivity.
  - repeat split; try reflexivity.
    destruct (createRound_spec (currentRound s) (masterCards s) r) as (H1 & H2 & H3 & H4).
    eexists. rewrite Hrounds, set_last_snoc. repeat split; eauto.
Qed.

Lemma resetRound_effect_witness :
  let s := demo_round2_turn7 in
  let s' := fst (resetRound s demo_rng) in
  rounds s = removelast (rounds s) ++ [List.last (rounds s) (mkRoundState 0 [] 0)]
  /\ currentTurn s' = 1 /\ undoBuffer s' = None /\ currentRound s' = currentRound s.
Proof.
  cbv zeta.
  assert (H : rounds demo_round2_turn7 =
              removelast (rounds demo_round2_turn7)
                ++ [List.last (rounds demo_round2_turn7) (mkRoundState 0 [] 0)])
    by (vm_compute; reflexivity).
  split; [exact H |].
  destruct (resetRound_effect demo_round2_turn7 demo_rng _ _ H) as (_ & H1 & H2 & H3 & _).
  auto.
Defined.

(** Scenario D of the specification, on the demo draft. *)
Example resetRound_at_round2_turn7 :
  let s := demo_round2_turn7 in
  let s' := fst (resetRound s demo_rng) in
  (currentRound s, currentTurn s, length (picks s), length (log s)) = (2, 7, 18%nat, 18%nat)
  /\ (currentRound s', currentTurn s', length (picks s'), length (log s')) = (2, 1, 12%nat, 12%nat)
  /\ map (fun rd => pack_sizes (packs rd)) (rounds s')
     = [replicate 6 0%nat; replicate 6 12%nat].
Proof. vm_compute. repeat split; reflexivity. Qed.

(** ** C7: the tally and the export text *)

Section TallyFacts.
Import Tally.

Variable localeCompare : string -> string -> Z.

(** The collation is a consistent comparator. *)
Hypothesis localeCompare_total :
  forall a b, localeCompare a b > 0 -> localeCompare b a <= 0.
Hypothesis localeCompare_trans :
  forall a b c, localeCompare a b <= 0 -> localeCompare b c <= 0 -> localeCompare a c <= 0.

Lemma compare_entries_order (a b : TallyEntry) :
  compare_entries localeCompare a b <= 0 <-> tally_order localeCompare a b.
Proof.
  unfold compare_entries, tally_order.
  destruct (Z.eqb_spec (count a) (count b)); simpl; split; intros H; try lia;
    destruct H as [H | [H H']]; lia.
Qed.

Lemma compare_entries_total (a b : TallyEntry) :
  compare_entries localeCompare a b > 0 -> compare_entries localeCompare b a <= 0.
Proof.
  unfold compare_entries.
  destruct (Z.eqb_spec (count a) (count b)), (Z.eqb_spec (count b) (count a));
    simpl; try lia. apply localeCompare_total.
Qed.

Lemma compare_entries_trans (a b c : TallyEntry) :
  compare_entries localeCompare a b <= 0 -> compare_entries localeCompare b c <= 0 ->
  compare_entries localeCompare a c <= 0.
Proof.
  unfold compare_entries.
  destruct (Z.eqb_spec (count a) (count b)), (Z.eqb_spec (count b) (count c)),
    (Z.eqb_spec (count a) (count c)); simpl; try lia.
  apply localeCompare_trans.
Qed.

End TallyFacts.

Section SortFacts.
Context {A : Type} (cmp : A -> A -> Z).
Hypothesis cmp_total : forall a b, cmp a b > 0 -> cmp b a <= 0.
Hypothesis cmp_trans : forall a b c, cmp a b <= 0 -> cmp b c <= 0 -> cmp a c <= 0.

Lemma sort_insert_perm (x : A) (l : list A) : Js.sort_insert cmp x l ≡ₚ x :: l.
Proof.
  induction l as [| y l IH]; simpl; [reflexivity |].
  destruct (cmp x y <=? 0); [reflexivity |].
  rewrite IH. apply perm_swap.
Qed.

Lemma sort_perm (l : list A) : Js.sort cmp l ≡ₚ l.
Proof.
  unfold Js.sort. induction l as [| x l IH]; simpl; [reflexivity |].
  rewrite sort_insert_perm, IH. reflexivity.
Qed.

Lemma sort_insert_sorted (x : A) (l : list A) :
  StronglySorted (fun a b => cmp a b <= 0) l ->
  StronglySorted (fun a b => cmp a b <= 0) (Js.sort_insert cmp x l).
Proof.
  induction l as [| y l IH]; intros Hs; simpl.
  - constructor; constructor.
  - apply StronglySorted_inv in Hs as [Hs Hy].
    destruct (Z.leb_spec (cmp x y) 0) as [Hxy | Hxy].
    + constructor; [constructor; assumption |].
      constructor; [exact Hxy |].
      eapply Forall_impl; [exact Hy |]. intros z Hz. eapply cmp_trans; eassumption.
    + constructor; [apply IH, Hs |].
      rewrite sort_insert_perm. constructor; [apply cmp_total; lia | exact Hy].
Qed.

Lemma sort_sorted (l : list A) : StronglySorted (fun a b => cmp a b <= 0) (Js.sort cmp l).
Proof.
  unfold Js.sort. induction l as [| x l IH]; simpl; [constructor |].
  apply sort_insert_sorted, IH.
Qed.

End SortFacts.

Section TallyMap.
Import Tally.
Implicit Types (m : list (string * TallyEntry)) (k key : string).

Lemma map_get_count_up key k m :
  map_get k (count_up key m) =
  if String.eqb key k then option_map bump (map_get k m) else map_get k m.
Proof.
  induction m as [| [k0 e0] m IH]; simpl.
  - destruct (String.eqb key k); reflexivity.
  - destruct (String.eqb_spec k0 key) as [-> | Hne]; simpl.
    + destruct (String.eqb_spec key k); reflexivity.
    + rewrite IH. destruct (String.eqb_spec k0 k) as [-> | Hk0]; [| reflexivity].
      destruct (String.eqb_spec key k); [congruence | reflexivity].
Qed.

Lemma map_get_snoc k m key (e : TallyEntry) :
  map_get k (m ++ [(key, e)]) =
  match map_get k m with
  | Some e' => Some e'
  | None => if String.eqb key k then Some e else None
  end.
Proof.
  induction m as [| [k0 e0] m IH]; simpl; [reflexivity |].
  destruct (String.eqb k0 k); [reflexivity | exact IH].
Qed.

Lemma map_get_tally_step k m (c : Card) :
  map_get k (tally_step m c) =
  if same_key k c
  then Some (match map_get k m with Some e => bump e | None => first_entry c end)
  else map_get k m.
Proof.
  unfold tally_step, same_key.
  destruct (map_get (tally_key c) m) as [e |] eqn:E.
  - rewrite map_get_count_up.
    destruct (String.eqb_spec (tally_key c) k) as [<- | _]; [rewrite E |]; reflexivity.
  - rewrite map_get_snoc.
    destruct (String.eqb_spec (tally_key c) k) as [<- | _]; [rewrite E; reflexivity |].
    destruct (map_get k m); reflexivity.
Qed.

Lemma tally_map_snoc (picks : list Card) (c : Card) :
  tally_map (picks ++ [c]) = tally_step (tally_map picks) c.
Proof. unfold tally_map. rewrite fold_left_app. reflexivity. Qed.

(** The map of [getTally] holds, under every key, the entry expected. *)
Lemma map_get_tally_map k (picks : list Card) :
  map_get k (tally_map picks) = entry_for k picks.
Proof.
  induction picks as [| c picks IH] using rev_ind; [reflexivity |].
  rewrite tally_map_snoc, map_get_tally_step, IH. unfold entry_for.
  rewrite List.filter_app. simpl. destruct (same_key k c) eqn:Hc.
  - destruct (List.filter (same_key k) picks) as [| c0 rest]; simpl.
    + reflexivity.
    + unfold bump. simpl. rewrite length_app. simpl. do 2 f_equal. lia.
  - rewrite app_nil_r. reflexivity.
Qed.

Lemma map_get_None k m : map_get k m = None -> ~ In k (map fst m).
Proof.
  induction m as [| [k0 e0] m IH]; simpl; [tauto |].
  destruct (String.eqb_spec k0 k); [discriminate |]. intros H [? | ?]; [congruence |].
  apply IH; assumption.
Qed.

Lemma map_get_In k m (e : TallyEntry) :
  List.NoDup (map fst m) -> (In (k, e) m <-> map_get k m = Some e).
Proof.
  induction m as [| [k0 e0] m IH]; simpl; intros Hnd.
  - split; [tauto | discriminate].
  - apply List.NoDup_cons_iff in Hnd as [Hk0 Hnd].
    destruct (String.eqb_spec k0 k) as [-> | Hne].
    + split.
      * intros [[= ->] | Hin]; [reflexivity |].
        exfalso. apply Hk0. apply in_map_iff. exists (k, e). auto.
      * intros [= ->]. auto.
    + rewrite <- (IH Hnd). split; [intros [[= ? ?] | ?]; [congruence | assumption] | auto].
Qed.

Lemma count_up_keys key m : map fst (count_up key m) = map fst m.
Proof.
  induction m as [| [k0 e0] m IH]; simpl; [reflexivity |].
  destruct (String.eqb k0 key); simpl; [reflexivity | f_equal; exact IH].
Qed.

Lemma tally_map_keys (picks : list Card) : List.NoDup (map fst (tally_map picks)).
Proof.
  induction picks as [| c picks IH] using rev_ind; [constructor |].
  rewrite tally_map_snoc. unfold tally_step.
  destruct (map_get (tally_key c) (tally_map picks)) as [e |] eqn:E.
  - rewrite count_up_keys. exact IH.
  - rewrite map_app. simpl. apply List.NoDup_app.
    + exact IH.
    + constructor; [intros [] | constructor].
    + intros k Hk [<- | []]. apply (map_get_None _ _ E). exact Hk.
Qed.

(** An entry of the map stands for the picks under its key. *)
Lemma tally_map_entries (picks : list Card) (e : TallyEntry) :
  In e (map snd (tally_map picks)) <-> exists k, entry_for k picks = Some e.
Proof.
  rewrite in_map_iff. split.
  - intros ([k e'] & <- & Hin). exists k. rewrite <- map_get_tally_map.
    apply map_get_In; [apply tally_map_keys | exact Hin].
  - intros (k & Hk). exists (k, e). split; [reflexivity |].
    apply map_get_In; [apply tally_map_keys |]. rewrite map_get_tally_map. exact Hk.
Qed.

Lemma entry_for_key k (picks : list Card) (e : TallyEntry) :
  entry_for k picks = Some e ->
  exists c0 rest,
    List.filter (same_key k) picks = c0 :: rest
    /\ In c0 picks /\ tally_key c0 = k
    /\ e = mkTallyEntry (Z.of_nat (length (c0 :: rest))) (fullName c0) (color c0).
Proof.
  unfold entry_for. destruct (List.filter (same_key k) picks) as [| c0 rest] eqn:E;
    [discriminate |].
  intros [= <-]. exists c0, rest. split; [reflexivity |].
  assert (Hin : In c0 (List.filter (same_key k) picks)) by (rewrite E; left; reflexivity).
  apply List.filter_In in Hin as [Hin Hkey]. unfold same_key in Hkey.
  apply String.eqb_eq in Hkey. auto.
Qed.

End TallyMap.

Lemma code_unit_compare_total (a b : string) :
  code_unit_compare a b > 0 -> code_unit_compare b a <= 0.
Proof.
  unfold code_unit_compare. rewrite (String.compare_antisym a b).
  destruct (String.compare b a); simpl; lia.
Qed.

Lemma code_unit_compare_trans (a b c : string) :
  code_unit_compare a b <= 0 -> code_unit_compare b c <= 0 -> code_unit_compare a c <= 0.
Proof.
  unfold code_unit_compare.
  destruct (String.compare a b) eqn:Eab; destruct (String.compare b c) eqn:Ebc;
    destruct (String.compare a c) eqn:Eac; simpl; try lia; intros _ _; exfalso.
  - apply String_as_OT.cmp_eq in Eab, Ebc. subst.
    pose proof (proj2 (String_as_OT.cmp_eq c c) eq_refl) as Hcc.
    unfold String_as_OT.cmp in Hcc. congruence.
  - apply String_as_OT.cmp_eq in Eab. subst. unfold String_as_OT.cmp in *. congruence.
  - apply String_as_OT.cmp_eq in Ebc. subst. unfold String_as_OT.cmp in *. congruence.
  - apply String_as_OT.cmp_lt in Eab, Ebc.
    pose proof (String_as_OT.lt_trans _ _ _ Eab Ebc) as Hac.
    apply String_as_OT.cmp_lt in Hac. unfold String_as_OT.cmp in *. congruence.
Qed.

Lemma list_ascii_of_string_append (a b : string) :
  list_ascii_of_string (String.append a b) = list_ascii_of_string a ++ list_ascii_of_string b.
Proof. induction a as [| ch a IH]; simpl; [reflexivity | f_equal; exact IH]. Qed.

Lemma bar_free_no_bar (fn rest col : string) :
  bar_free col = true -> col <> String.append fn (String "|" rest).
Proof.
  intros Hfree ->. unfold bar_free in Hfree.
  rewrite list_ascii_of_string_append, forallb_app in Hfree. simpl in Hfree.
  rewrite andb_false_r in Hfree. discriminate.
Qed.

(** Distinct pairs of a name and a color without the separator have
    distinct keys. *)
Lemma tally_key_injective (fn1 col1 fn2 col2 : string) :
  bar_free col1 = true -> bar_free col2 = true ->
  String.append fn1 (String "|" col1) = String.append fn2 (String "|" col2) ->
  fn1 = fn2 /\ col1 = col2.
Proof.
  intros H1 H2. revert fn2.
  induction fn1 as [| a fn1 IH]; intros [| b fn2]; cbn [String.append]; intros E.
  - injection E as ->. auto.
  - injection E as <- E. exfalso. eapply (bar_free_no_bar fn2 col2 col1 H1). exact E.
  - injection E as -> E. exfalso. eapply (bar_free_no_bar fn1 col1 col2 H2). symmetry. exact E.
  - injection E as -> E. destruct (IH fn2 E) as [-> ->]. auto.
Qed.

Lemma tally_key_unfold (c : Card) :
  Tally.tally_key c = String.append (fullName c) (String "|" (color c)).
Proof. reflexivity. Qed.

Lemma StronglySorted_impl {A} (R R' : A -> A -> Prop) (l : list A) :
  (forall a b, R a b -> R' a b) -> StronglySorted R l -> StronglySorted R' l.
Proof.
  intros HR. induction 1 as [| x l Hs IH Hx]; constructor; [exact IH |].
  eapply Forall_impl; [exact Hx |]. intros y. apply HR.
Qed.

Lemma same_key_same_group (picks : list Card) (c0 c : Card) :
  Forall (fun c => bar_free (color c) = true) picks ->
  In c0 picks -> In c picks ->
  same_key (Tally.tally_key c0) c = same_group (fullName c0) (color c0) c.
Proof.
  intros Hfree H0 Hc. rewrite Forall_forall in Hfree.
  unfold same_key, same_group. rewrite !tally_key_unfold.
  destruct (String.eqb_spec (String.append (fullName c) (String "|" (color c)))
              (String.append (fullName c0) (String "|" (color c0)))) as [E | E].
  - apply tally_key_injective in E as [-> ->];
      try (apply Hfree, list_elem_of_In; assumption).
    rewrite !String.eqb_refl. reflexivity.
  - destruct (String.eqb_spec (fullName c) (fullName c0)) as [E1 | _]; [| reflexivity].
    destruct (String.eqb_spec (color c) (color c0)) as [E2 | _]; [| reflexivity].
    rewrite E1, E2 in E. contradiction.
Qed.

(** C7.  Under a collation that is a consistent comparator, and for picks
    whose colors hold no "|" (the six colors that a card can have among
    them): the export text is the lines "<count> <fullName>"
    of the tally joined by line feeds; the tally has one entry for each
    distinct pair of name and color among the picks and no other, its count
    is the number of picks of that pair, and the entries are ordered by
    count descending and, at equal counts, by name ascending in the
    collation. *)
Theorem export_text_tallies_groups (localeCompare : string -> string -> Z)
    (picks : list Card) :
  (forall a b, localeCompare a b > 0 -> localeCompare b a <= 0) ->
  (forall a b c, localeCompare a b <= 0 -> localeCompare b c <= 0 ->
                 localeCompare a c <= 0) ->
  Forall (fun c => bar_free (color c) = true) picks ->
  let tally := Tally.getTally localeCompare picks in
  Tally.generateCopyTextWithoutColor localeCompare picks
    = Js.join Tally.newline
        (map (fun t => String.append (Js.number_to_string (count t))
                         (String.append " " (tally_fullName t))) tally)
  /\ List.NoDup (map (fun t => (tally_fullName t, tally_color t)) tally)
  /\ (forall c, In c picks ->
        exists t, In t tally /\ tally_fullName t = fullName c /\ tally_color t = color c)
  /\ (forall t, In t tally ->
        1 <= count t
        /\ count t = Z.of_nat (length (List.filter
                                         (same_group (tally_fullName t) (tally_color t))
                                         picks)))
  /\ StronglySorted (tally_order localeCompare) tally.
Proof.
  intros Htotal Htrans Hfree tally.
  assert (Hperm : tally ≡ₚ map snd (Tally.tally_map picks)).
  { unfold tally, Tally.getTally. apply sort_perm. }
  assert (Hentry : forall t, In t tally <-> exists k, entry_for k picks = Some t).
  { intros t. rewrite <- tally_map_entries. split; apply Permutation_in;
      [exact Hperm | symmetry; exact Hperm]. }
  split; [reflexivity |]. split; [| split; [| split]].
  - eapply Permutation_NoDup; [symmetry; apply Permutation_map, Hperm |].
    apply (NoDup_map_inv (fun p => String.append (fst p) (String "|" (snd p)))).
    rewrite !map_map.
    rewrite (map_ext_in _ fst); [apply tally_map_keys |].
    intros [k e] Hin. cbn [fst snd].
    apply map_get_In in Hin; [| apply tally_map_keys].
    rewrite map_get_tally_map in Hin.
    apply entry_for_key in Hin as (c0 & rest & _ & _ & <- & ->). reflexivity.
  - intros c Hc.
    destruct (entry_for (Tally.tally_key c) picks) as [t |] eqn:E.
    + exists t. split; [apply Hentry; eauto |].
      apply entry_for_key in E as (c0 & rest & _ & Hc0 & Hkey & ->). cbn.
      rewrite !tally_key_unfold in Hkey. rewrite Forall_forall in Hfree.
      apply tally_key_injective in Hkey as [-> ->];
        try (apply Hfree, list_elem_of_In; assumption).
      auto.
    + exfalso. unfold entry_for in E.
      assert (Hin : In c (List.filter (same_key (Tally.tally_key c)) picks)).
      { apply List.filter_In. split; [exact Hc |]. apply String.eqb_refl. }
      destruct (List.filter _ picks); [contradiction | discriminate].
  - intros t Ht. apply Hentry in Ht as [k Hk].
    apply entry_for_key in Hk as (c0 & rest & Hfilter & Hc0 & <- & ->). cbn [count tally_fullName tally_color].
    split; [simpl; lia |]. rewrite <- Hfilter. do 2 f_equal.
    apply List.filter_ext_in. intros c Hc.
    apply (same_key_same_group picks); assumption.
  - unfold tally, Tally.getTally.
    eapply StronglySorted_impl;
      [| apply (sort_sorted (Tally.compare_entries localeCompare))].
    + intros a b. apply compare_entries_order.
    + apply compare_entries_total, Htotal.
    + apply compare_entries_trans, Htrans.
Qed.

Lemma export_text_tallies_groups_witness :
  (forall a b, code_unit_compare a b > 0 -> code_unit_compare b a <= 0)
  /\ (forall a b c, code_unit_compare a b <= 0 -> code_unit_compare b c <= 0 ->
                    code_unit_compare a c <= 0)
  /\ Forall (fun c => bar_free (color c) = true) scenario_E_picks
  /\ Tally.generateCopyTextWithoutColor code_unit_compare scenario_E_picks
     = String.append "2 Card A" (String.append Tally.newline "1 Card B")
  /\ StronglySorted (tally_order code_unit_compare)
       (Tally.getTally code_unit_compare scenario_E_picks).
Proof.
  assert (Hfree : Forall (fun c => bar_free (color c) = true) scenario_E_picks)
    by (repeat constructor).
  split; [exact code_unit_compare_total |].
  split; [exact code_unit_compare_trans |].
  split; [exact Hfree |].
  destruct (export_text_tallies_groups code_unit_compare scenario_E_picks
              code_unit_compare_total code_unit_compare_trans Hfree)
    as (Htext & _ & _ & _ & Hsorted).
  split; [| exact Hsorted]. rewrite Htext. vm_compute. reflexivity.
Defined.

(** Why the colors must hold no "|": the tally groups by the key
    "<fullName>|<color>", and the two picks below, which no deck of the
    game holds, are two groups of one pick each with the same key "A|B|C";
    their export is the single line "2 A|B". *)
Lemma colliding_keys_merge_groups :
  let picks := [tally_card "A|B" "C"; tally_card "A" "B|C"] in
  List.NoDup (map (fun c => (fullName c, color c)) picks)
  /\ Tally.getTally code_unit_compare picks = [mkTallyEntry 2 "A|B" "C"]
  /\ Tally.generateCopyTextWithoutColor code_unit_compare picks = "2 A|B"%string.
Proof.
  cbv zeta. split; [| split; vm_compute; reflexivity].
  constructor; [| constructor; [intros [] | constructor]].
  intros [H | []]. discriminate.
Qed.

(** ** C8: importing the legacy format *)

Section DeckTextFacts.
Import SavedDecks.

Ltac eval_char :=
  repeat match goal with
    | |- context [Js.is_digit (Ascii ?a ?b ?c ?d ?e ?f ?g ?h)] =>
        let v := eval vm_compute in (Js.is_digit (Ascii a b c d e f g h)) in
        change (Js.is_digit (Ascii a b c d e f g h)) with v
    | |- context [Js.is_whitespace (Ascii ?a ?b ?c ?d ?e ?f ?g ?h)] =>
        let v := eval vm_compute in (Js.is_whitespace (Ascii a b c d e f g h)) in
        change (Js.is_whitespace (Ascii a b c d e f g h)) with v
    | |- context [Js.is_line_terminator (Ascii ?a ?b ?c ?d ?e ?f ?g ?h)] =>
        let v := eval vm_compute in (Js.is_line_terminator (Ascii a b c d e f g h)) in
        change (Js.is_line_terminator (Ascii a b c d e f g h)) with v
    | |- context [Z.of_nat (nat_of_ascii (Ascii ?a ?b ?c ?d ?e ?f ?g ?h)) - 48] =>
        let v := eval vm_compute in (Z.of_nat (nat_of_ascii (Ascii a b c d e f g h)) - 48) in
        change (Z.of_nat (nat_of_ascii (Ascii a b c d e f g h)) - 48) with v
    end.

Lemma string_of_uint_digits (d : Decimal.uint) :
  all_digits (NilEmpty.string_of_uint d) = true.
Proof.
  induction d; cbn [NilEmpty.string_of_uint all_digits]; eval_char; auto.
Qed.

Lemma digits_value_acc (d : Decimal.uint) :
  forall acc : positive,
    Js.digits_value (NilEmpty.string_of_uint d) (Z.pos acc) = Z.pos (Pos.of_uint_acc d acc).
Proof.
  induction d; intros acc;
    cbn [NilEmpty.string_of_uint Js.digits_value Pos.of_uint_acc]; eval_char;
    cbn match; try reflexivity; rewrite <- IHd; f_equal; lia.
Qed.

Lemma digits_value_uint (d : Decimal.uint) :
  Js.digits_value (NilEmpty.string_of_uint d) 0 = Z.of_N (Pos.of_uint d).
Proof.
  induction d; cbn [NilEmpty.string_of_uint Js.digits_value Pos.of_uint]; eval_char;
    cbn match; try reflexivity; try exact IHd;
    cbn [Z.of_N]; rewrite <- digits_value_acc; reflexivity.
Qed.

(** The decimal form of a positive count: digits only, and [parseInt] reads
    the count back from it. *)
Lemma number_to_string_digits (n : Z) :
  1 <= n ->
  exists c ds,
    Js.number_to_string n = String c ds
    /\ all_digits (String c ds) = true
    /\ Js.digits_value (String c ds) 0 = n.
Proof.
  intros Hn. destruct n as [| p | p]; try lia.
  unfold Js.number_to_string. cbn [Z.to_int Pos.to_int NilZero.string_of_int].
  pose proof (DecimalPos.Unsigned.of_to p) as Hof.
  pose proof (string_of_uint_digits (Pos.to_uint p)) as Hdigits.
  pose proof (digits_value_uint (Pos.to_uint p)) as Hvalue.
  rewrite Hof in Hvalue. cbn [Z.of_N] in Hvalue.
  unfold NilZero.string_of_uint.
  destruct (Pos.to_uint p) eqn:E; [discriminate | ..];
    cbn [NilEmpty.string_of_uint] in *; eauto.
Qed.

Lemma append_cons (c : ascii) (a b : string) :
  String.append (String c a) b = String c (String.append a b).
Proof. reflexivity. Qed.

Lemma append_nil_l (b : string) : String.append EmptyString b = b.
Proof. reflexivity. Qed.

Lemma append_nil_r (s : string) : String.append s EmptyString = s.
Proof.
  induction s as [| c s IH]; [reflexivity |]. rewrite append_cons. f_equal. exact IH.
Qed.

Lemma append_assoc (a b c : string) :
  String.append (String.append a b) c = String.append a (String.append b c).
Proof.
  induction a as [| ch a IH]; [reflexivity |]. rewrite !append_cons. f_equal. exact IH.
Qed.

Lemma digit_not_whitespace (c : ascii) :
  Js.is_digit c = true -> Js.is_whitespace c = false /\ Js.is_line_terminator c = false.
Proof.
  unfold Js.is_digit, Js.is_whitespace, Js.is_line_terminator.
  generalize (nat_of_ascii c). intros n H.
  apply andb_true_iff in H as [H1 H2]. apply Nat.leb_le in H1, H2.
  destruct (Nat.leb_spec 9 n), (Nat.leb_spec n 13), (Nat.eqb_spec n 32),
    (Nat.eqb_spec n 160), (Nat.eqb_spec n 10), (Nat.eqb_spec n 13);
    simpl; split; try reflexivity; lia.
Qed.

Lemma all_digits_no_line_terminator (s : string) :
  all_digits s = true -> no_line_terminator s = true.
Proof.
  induction s as [| c s IH]; cbn [all_digits no_line_terminator]; [reflexivity |].
  intros H. apply andb_true_iff in H as [Hc Hs].
  destruct (digit_not_whitespace c Hc) as [_ ->]. simpl. apply IH, Hs.
Qed.

Lemma no_line_terminator_append (a b : string) :
  no_line_terminator (String.append a b) = no_line_terminator a && no_line_terminator b.
Proof.
  induction a as [| c a IH]; [reflexivity |].
  rewrite append_cons. cbn [no_line_terminator]. rewrite IH, andb_assoc. reflexivity.
Qed.

Lemma parseInt_digits (c : ascii) (ds : string) :
  all_digits (String c ds) = true ->
  Js.parseInt (String c ds) = Some (Js.digits_value (String c ds) 0).
Proof.
  cbn [all_digits]. intros H. apply andb_true_iff in H as [Hc _].
  destruct (digit_not_whitespace c Hc) as [Hws _].
  unfold Js.parseInt. cbn [Js.trimStart]. rewrite Hws.
  assert (Hstart : Js.starts_with_digit (String c ds) = true) by exact Hc.
  destruct c as [[] [] [] [] [] [] [] []]; try (cbv in Hc; discriminate Hc);
    cbn match; rewrite Hstart; reflexivity.
Qed.

Lemma trimEnd_append (a b : string) :
  Js.trimEnd b <> EmptyString ->
  Js.trimEnd (String.append a b) = String.append a (Js.trimEnd b).
Proof.
  intros Hb. induction a as [| c a IH]; [reflexivity |].
  rewrite !append_cons. cbn [Js.trimEnd].
  rewrite IH. destruct (String.append a (Js.trimEnd b)) eqn:E; [| reflexivity].
  destruct a; [rewrite append_nil_l in E; contradiction | discriminate].
Qed.

(** Without a line feed in it the text is one line. *)
Lemma split_one_line (s : string) :
  forall cur, no_line_terminator s = true ->
    Js.split_from Tally.newline s 0 cur = [String.append cur s].
Proof.
  induction s as [| c s IH]; intros cur Hs; cbn [Js.split_from].
  - rewrite append_nil_r. reflexivity.
  - cbn [no_line_terminator] in Hs. apply andb_true_iff in Hs as [Hc Hs].
    assert (Hprefix : String.prefix Tally.newline (String c s) = false).
    { unfold Tally.newline. cbn [String.prefix].
      destruct (ascii_dec "010" c) as [<- | _]; [discriminate Hc | reflexivity]. }
    rewrite Hprefix, (IH _ Hs), append_assoc. reflexivity.
Qed.

(** The pattern of the new format on a run of digits, a space and a rest
    that does not start with white space: the groups are the digits and
    the rest. *)
Lemma match_digits_then_space (ds : string) :
  forall (acc : string) (c0 : ascii) (rest : string),
    all_digits ds = true -> ds <> EmptyString ->
    Js.is_whitespace c0 = false -> no_line_terminator (String c0 rest) = true ->
    match_digits (String.append ds (String " " (String c0 rest))) acc
    = Some (String.append acc ds, String c0 rest).
Proof.
  induction ds as [| c ds IH]; intros acc c0 rest Hds Hne Hc0 Hrest; [contradiction |].
  cbn [all_digits] in Hds. apply andb_true_iff in Hds as [Hc Hds].
  rewrite append_cons. cbn [match_digits]. rewrite Hc.
  destruct ds as [| c' ds'].
  - rewrite append_nil_l. cbn [match_digits match_spaces]. eval_char. cbn match.
    rewrite Hc0. unfold match_rest. rewrite Hrest. reflexivity.
  - rewrite (IH _ c0 rest Hds); [| discriminate | exact Hc0 | exact Hrest].
    rewrite append_assoc. reflexivity.
Qed.

Lemma colors_facts (col : string) :
  In col colors ->
  Js.trimEnd col = col /\ col <> EmptyString /\ no_line_terminator col = true.
Proof.
  unfold colors. intros H.
  repeat (destruct H as [<- | H]; [vm_compute; repeat split; discriminate |]).
  contradiction.
Qed.

Lemma trim_line (c : ascii) (body col : string) :
  Js.is_whitespace c = false -> In col colors ->
  Js.trim (String c (String.append body col)) = String c (String.append body col).
Proof.
  intros Hc Hcol. destruct (colors_facts col Hcol) as (Htrim & Hne & _).
  unfold Js.trim. cbn [Js.trimStart]. rewrite Hc.
  rewrite <- append_cons, trimEnd_append, Htrim by (rewrite Htrim; exact Hne).
  reflexivity.
Qed.

(** C8 is not met by the code.  The pattern of the new format,
    [/^(\d+)\s+(.+)$/], also matches a legacy line: the digits, the space
    before the first dash, and then the rest of the line.  So for every
    count of at least 1, every name without a line terminator and every one
    of the six colors, the legacy line "<n> - <name> - <color>" is read as
    a new-format entry whose name is "- <name> - <color>" and whose color is
    absent; the branch for the old format is never reached for it. *)
Theorem legacy_import_loses_color (n : Z) (name col : string) :
  1 <= n -> no_line_terminator name = true -> In col colors ->
  parseDeckText (legacy_line n name col)
  = [mkParsedEntry n
       (String.append "- " (String.append name (String.append " - " col))) None].
Proof.
  intros Hn Hname Hcol.
  destruct (number_to_string_digits n Hn) as (c & ds & Hstr & Hdigits & Hvalue).
  destruct (colors_facts col Hcol) as (Htrim & Hne & Hnlt).
  assert (Hc : Js.is_digit c = true)
    by (cbn [all_digits] in Hdigits; apply andb_true_iff in Hdigits as [? _]; assumption).
  destruct (digit_not_whitespace c Hc) as [Hws _].
  set (line := legacy_line n name col).
  set (tail := String.append name (String.append " - " col)).
  assert (Hform : line = String.append (String c ds) (String " " (String "-" (String " " tail))))
    by (unfold line, legacy_line; rewrite Hstr; reflexivity).
  assert (Htail : no_line_terminator (String "-" (String " " tail)) = true).
  { unfold tail. cbn [no_line_terminator]. eval_char. cbn [negb andb].
    rewrite !no_line_terminator_append, Hname, Hnlt. reflexivity. }
  assert (Hlinetrim : Js.trim line = line).
  { rewrite Hform, append_cons.
    replace (String.append ds (String " " (String "-" (String " " tail))))
      with (String.append (String.append ds (String.append " - " (String.append name " - "))) col)
      by (unfold tail; rewrite !append_assoc; reflexivity).
    apply (trim_line c); assumption. }
  assert (Hlines : Js.split Tally.newline line = [line]).
  { unfold Js.split. rewrite split_one_line; [reflexivity |].
    rewrite Hform, no_line_terminator_append.
    rewrite (all_digits_no_line_terminator _ Hdigits). cbn [andb no_line_terminator].
    eval_char. cbn [negb andb]. exact Htail. }
  assert (Hrest : Js.trim (String "-" (String " " tail)) = String "-" (String " " tail)).
  { replace (String " " tail)
      with (String.append (String.append " " (String.append name " - ")) col)
      by (unfold tail; rewrite !append_assoc; reflexivity).
    apply (trim_line "-"); [reflexivity | assumption]. }
  assert (Hparse : parse_line line
                   = [mkParsedEntry n (String "-" (String " " tail)) None]).
  { unfold parse_line, match_new_format. rewrite Hform.
    rewrite (match_digits_then_space (String c ds) EmptyString "-" (String " " tail));
      [| exact Hdigits | discriminate | reflexivity | exact Htail].
    rewrite append_nil_l, (parseInt_digits c ds Hdigits), Hvalue.
    unfold positive_count. destruct (Z.gtb_spec n 0); [| lia].
    rewrite Hrest. reflexivity. }
  unfold parseDeckText. fold line. rewrite Hlinetrim, Hlines.
  rewrite filter_cons_True by (rewrite Hlinetrim, Hform; exact I).
  rewrite filter_nil. cbn [map concat]. rewrite Hparse. reflexivity.
Qed.

End DeckTextFacts.

Lemma legacy_import_loses_color_witness :
  1 <= 3
  /\ SavedDecks.no_line_terminator "Cinderella - Dream Come True" = true
  /\ In "Sapphire"%string SavedDecks.colors
  /\ SavedDecks.parseDeckText "3 - Cinderella - Dream Come True - Sapphire"
     = [SavedDecks.mkParsedEntry 3 "- Cinderella - Dream Come True - Sapphire" None].
Proof.
  assert (H3 : 1 <= 3) by lia.
  assert (Hname : SavedDecks.no_line_terminator "Cinderella - Dream Come True" = true)
    by reflexivity.
  assert (Hcol : In "Sapphire"%string SavedDecks.colors) by (simpl; tauto).
  split; [exact H3 |]. split; [exact Hname |]. split; [exact Hcol |].
  exact (legacy_import_loses_color 3 "Cinderella - Dream Come True" "Sapphire"
           H3 Hname Hcol).
Defined.

(** The branch for the old format reads the same line as the claim says,
    and so does the whole parser where the first pattern fails, as on a
    line that starts with a space. *)
Example old_format_branch_reads_legacy_line :
  SavedDecks.match_new_format "3 - Cinderella - Dream Come True - Sapphire"
  = Some ("3"%string, "- Cinderella - Dream Come True - Sapphire"%string)
  /\ SavedDecks.parse_old_format "3 - Cinderella - Dream Come True - Sapphire"
     = [SavedDecks.mkParsedEntry 3 "Cinderella - Dream Come True" (Some "Sapphire"%string)]
  /\ SavedDecks.parse_line " 3 - Cinderella - Dream Come True - Sapphire"
     = [SavedDecks.mkParsedEntry 3 "Cinderella - Dream Come True" (Some "Sapphire"%string)].
Proof. vm_compute. repeat split; reflexivity. Qed.

(** * Further properties of the code *)

(** ** lib/random.ts *)

(** X1.  [randomInt n] returns an integer in [0, n) when [n] is positive,
    0 when [n] is 0, and an integer in [n, 0] when [n] is negative. *)
Theorem randomInt_bounds (n : Z) (r : Rng) :
  (0 < n -> 0 <= fst (randomInt n r) < n)
  /\ (n = 0 -> fst (randomInt n r) = 0)
  /\ (n < 0 -> n <= fst (randomInt n r) <= 0).
Proof.
  split; [apply randomInt_range |]. split.
  - intros ->. rewrite randomInt_nothing. reflexivity.
  - intros Hn. rewrite randomInt_run. cbn [fst].
    pose proof (Math_random_range r) as Hu.
    set (u := Z.of_N (fst (Math_random r))).
    assert (Hp : 0 <= u * - n) by (unfold u; nia).
    destruct (round_to_double_close _ Hp) as [Hlow Hclose].
    replace (u * n) with (- (u * - n)) by lia. rewrite round_to_double_opp.
    assert (HK : Z.of_N precision = 9007199254740992) by reflexivity.
    assert (Hu' : 0 <= u <= 9007199254740991).
    { apply N2Z.inj_lt in Hu. rewrite HK in Hu. unfold u. lia. }
    rewrite HK in *. clear HK Hu. clearbody u.
    revert Hlow Hclose. generalize (round_to_double (u * - n)). intros m Hlow Hclose.
    assert (Hm : m < - n * 9007199254740992) by nia.
    split.
    + apply Z.div_le_lower_bound; lia.
    + apply Z.div_le_upper_bound; lia.
Qed.

Lemma randomInt_bounds_witness : 0 <= fst (randomInt 6 demo_rng) < 6.
Proof. apply (randomInt_bounds 6 demo_rng). lia. Defined.

Section ShuffleFacts.
Context {T : Type}.
Implicit Types copy l : list T.

Lemma insert_Permutation_delete l (j : nat) (a y : T) :
  l !! j = Some y -> <[j := a]> l ≡ₚ a :: delete j l.
Proof.
  revert j. induction l as [| x l IH]; intros j Hj; [discriminate |].
  destruct j as [| j]; simpl in *.
  - reflexivity.
  - rewrite (IH j Hj). apply Permutation_swap.
Qed.

(** Exchanging two elements rearranges the array. *)
Lemma swap_Permutation copy (i : nat) (j : Z) : Shuffle.swap copy i j ≡ₚ copy.
Proof.
  unfold Shuffle.swap.
  destruct (Js.index copy j) as [b |] eqn:Hb; [| reflexivity].
  destruct (copy !! i) as [a |] eqn:Ha; [| reflexivity].
  apply index_Some in Hb as [Hj Hb].
  assert (Hb1 : <[i := b]> copy !! Z.to_nat j = Some b).
  { destruct (Nat.eq_dec i (Z.to_nat j)) as [<- | Hne].
    - apply list_lookup_insert_eq. eapply lookup_lt_Some, Ha.
    - rewrite list_lookup_insert_ne by exact Hne. exact Hb. }
  rewrite (insert_Permutation_delete _ _ a b Hb1).
  assert (Hdel : delete (Z.to_nat j) (<[i := b]> copy) ≡ₚ delete i copy).
  { apply (Permutation_cons_inv (a := b)).
    rewrite <- (delete_Permutation _ _ _ Hb1).
    apply (insert_Permutation_delete _ _ b a Ha). }
  rewrite Hdel. symmetry. apply delete_Permutation, Ha.
Qed.

Lemma shuffle_loop_Permutation (i : nat) :
  forall copy (r : Rng), fst (Shuffle.shuffle_loop i copy r) ≡ₚ copy.
Proof.
  induction i as [| i IH]; intros copy r; [reflexivity |].
  cbn [Shuffle.shuffle_loop]. rewrite bind_run, IH. apply swap_Permutation.
Qed.

End ShuffleFacts.

(** X2.  [shuffle] returns a rearrangement of its argument: the same
    elements, each as often as before, whatever the samples drawn. *)
Theorem shuffle_is_a_permutation {T} (arr : list T) (r : Rng) :
  fst (Shuffle.shuffle arr r) ≡ₚ arr
  /\ length (fst (Shuffle.shuffle arr r)) = length arr.
Proof.
  assert (H : fst (Shuffle.shuffle arr r) ≡ₚ arr) by apply shuffle_loop_Permutation.
  split; [exact H | apply Permutation_length, H].
Qed.

(** ** lib/draft.ts: the active pack *)

(** X3.  From turn 1 on the active pack index is one of 0..5 and repeats
    every six turns; in the twelve turns of a round pack [a] is the active
    one exactly at the turns [a + 1] and [a + 7]. *)
Theorem each_pack_is_active_twice (t a : Z) :
  1 <= t ->
  0 <= getActivePackIndex t < 6
  /\ getActivePackIndex (t + 6) = getActivePackIndex t
  /\ (t <= 12 -> 0 <= a < 6 -> (getActivePackIndex t = a <-> t = a + 1 \/ t = a + 7)).
Proof.
  intros Ht. unfold getActivePackIndex.
  rewrite !Z.rem_mod_nonneg by lia.
  replace (t + 6 - 1) with (t - 1 + 1 * 6) by lia. rewrite Z.mod_add by lia.
  pose proof (Z.mod_pos_bound (t - 1) 6) as Hb.
  split; [lia |]. split; [reflexivity |].
  intros Ht12 Ha.
  assert (Hcases : t = 1 \/ t = 2 \/ t = 3 \/ t = 4 \/ t = 5 \/ t = 6 \/ t = 7 \/ t = 8
                   \/ t = 9 \/ t = 10 \/ t = 11 \/ t = 12) by lia.
  clear Hb. repeat (destruct Hcases as [-> | Hcases]); try subst t;
    match goal with |- context [?x mod 6] =>
      let v := eval vm_compute in (x mod 6) in change (x mod 6) with v end; lia.
Qed.

Lemma each_pack_is_active_twice_witness :
  getActivePackIndex 9 = 2 <-> 9 = 2 + 1 \/ 9 = 2 + 7.
Proof.
  apply (each_pack_is_active_twice 9 2); lia.
Defined.

(** ** lib/draft.ts: what every state of a draft satisfies *)

Lemma well_formed_unfold (pool : list Card) (s : DraftState) :
  well_formed pool s <->
  sound pool s
  /\ match undoBuffer s with
     | Some b => well_formed pool b
     | None => True
     end.
Proof. destruct s; reflexivity. Qed.

Lemma splice1_sublist {A} (arr : list A) (i : Z) : snd (Js.splice1 arr i) `sublist_of` arr.
Proof.
  unfold Js.splice1. cbn [snd]. set (k := Js.relative_index _ _).
  rewrite <- (take_drop k arr) at 3. apply sublist_app; [reflexivity |].
  replace (drop (S k) arr) with (drop 1 (drop k arr))
    by (rewrite drop_drop; f_equal; lia).
  apply sublist_drop.
Qed.

Lemma splice1_picked {A} (arr : list A) (i : Z) (x : A) :
  head (fst (Js.splice1 arr i)) = Some x -> In x arr.
Proof.
  unfold Js.splice1. cbn [fst]. set (k := Js.relative_index _ _). intros H.
  rewrite <- (take_drop k arr). apply in_or_app. right.
  destruct (drop k arr) as [| y rest]; [discriminate |].
  injection H as ->. left. reflexivity.
Qed.

Lemma mixed_removal_sublist (u v : N) (before after : list Card) :
  mixed_removal u v before after -> after `sublist_of` before.
Proof.
  intros [-> -> | k _ _ _ _ -> | j k _ _ _ _ -> | _ _ _ ->];
    [reflexivity | apply sublist_delete ..].
Qed.

(** The removal loop takes cards away and does nothing else to a pack. *)
Lemma removal_loop_sublists (packIndex : Z) (packs : list Pack) :
  forall (i c : Z) (r : Rng),
    Forall2 (fun p p' => pack_id p' = pack_id p /\ cards p' `sublist_of` cards p)
      packs (fst (fst (removal_loop packIndex i packs c r))).
Proof.
  induction packs as [| pack rest IH]; intros i c r; [constructor |].
  rewrite removal_loop_cons. destruct (i =? packIndex); cbn.
  - constructor; [split; reflexivity | apply IH].
  - constructor; [| apply IH].
    destruct (removeFromPack_spec pack r) as (Hid & _ & Hrem & _).
    split; [exact Hid | eapply mixed_removal_sublist, Hrem].
Qed.

Lemma drawn_from_fits (pool : list Card) (pack : Pack) :
  drawn_from pool pack -> fits pool pack.
Proof.
  intros [Hlen [rest Hperm]]. split; [| lia].
  rewrite <- Hperm. apply submseteq_inserts_r. reflexivity.
Qed.

Lemma sublist_fits (pool : list Card) (p p' : Pack) :
  cards p' `sublist_of` cards p -> fits pool p -> fits pool p'.
Proof.
  intros Hsub [Hp Hlen]. split.
  - etransitivity; [| exact Hp]. apply sublist_submseteq, Hsub.
  - apply sublist_length in Hsub. lia.
Qed.

Lemma nonempty_snoc {A} (l : list A) :
  (0 < length l)%nat -> exists front x, l = front ++ [x].
Proof.
  destruct l as [| y l] using rev_ind; [simpl; lia |]. eauto.
Qed.

(** In a sound state the pick has a round and a pack to work on. *)
Lemma sound_active (pool : list Card) (s : DraftState) :
  sound pool s ->
  exists done rd ap,
    rounds s = done ++ [rd]
    /\ Js.index (packs rd) (getActivePackIndex (currentTurn s)) = Some ap
    /\ In ap (packs rd).
Proof.
  intros Hs. destruct (nonempty_snoc (rounds s)) as (done & rd & Hrounds).
  { pose proof (sound_rounds _ _ Hs). pose proof (sound_round _ _ Hs). lia. }
  pose proof (sound_packs _ _ Hs) as Hpacks. rewrite Hrounds in Hpacks.
  apply Forall_app in Hpacks as [_ Hrd]. apply Forall_cons in Hrd as [Hrd _].
  pose proof (sound_turn _ _ Hs) as Hturn.
  assert (Ha : 0 <= getActivePackIndex (currentTurn s) < 6).
  { unfold getActivePackIndex. rewrite Z.rem_mod_nonneg by lia.
    apply Z.mod_pos_bound. lia. }
  destruct (index_in_range (packs rd) (getActivePackIndex (currentTurn s))) as [ap Hap];
    [lia |].
  exists done, rd, ap. split; [exact Hrounds |]. split; [exact Hap |].
  apply index_Some in Hap as [_ Hap]. apply list_elem_of_In.
  eapply list_elem_of_lookup_2, Hap.
Qed.

Lemma advance_sound (pool : list Card) (s : DraftState) (r : Rng) :
  sound pool s -> sound pool (fst (advance s r)).
Proof.
  intros [Hpool Hturn Hround Hrounds Hpacks Hcards Hlog Hpicks Hdone]. unfold advance.
  destruct (Z.gtb_spec (currentTurn s + 1) 12) as [Hlast | Hmid].
  - destruct (Z.ltb_spec (currentRound s) 6) as [Hmore | Hfinal].
    + rewrite bind_run, ret_run. cbn [fst].
      destruct (createRound_spec (currentRound s + 1) (masterCards s) r)
        as (_ & _ & Hlen & Hdrawn).
      constructor; cbn; try assumption; try lia.
      * rewrite length_app. simpl. lia.
      * apply Forall_app. split; [exact Hpacks |]. constructor; [exact Hlen | constructor].
      * apply Forall_app. split; [exact Hcards |]. constructor; [| constructor].
        eapply Forall_impl; [exact Hdrawn |]. intros p Hp. rewrite <- Hpool.
        apply drawn_from_fits, Hp.
    + rewrite ret_run. cbn [fst]. constructor; cbn; try assumption; try lia.
  - rewrite ret_run. cbn [fst]. constructor; cbn; try assumption; try lia.
Qed.

(** A pick at any index keeps a sound state sound, and does not throw. *)
Lemma pickCard_sound (pool : list Card) (s : DraftState) (i : Z) (r : Rng) :
  sound pool s ->
  exists s' r', pickCard s i r = inr (s', r') /\ sound pool s' /\ undoBuffer s' = Some s.
Proof.
  intros Hs. destruct (sound_active pool s Hs) as (done & rd & ap & Hrounds & Hap & Hin).
  assert (Hlast : last (rounds s) = Some rd) by (rewrite Hrounds; apply last_snoc).
  rewrite (pickCard_run s i r rd ap Hlast Hap). cbv zeta.
  set (a := getActivePackIndex (currentTurn s)).
  set (loop := removal_loop a 0 (packs_after_pick i rd ap a) 0 r).
  set (mid := picked_state s i rd ap (fst loop)).
  destruct (advance mid (snd loop)) as [s' r'] eqn:Hadv.
  exists s', r'. split; [reflexivity |].
  destruct Hs as [Hpool Hturn Hround Hlen Hpacks Hcards Hlog Hpicks Hdone].
  rewrite Hrounds in Hpacks, Hcards.
  apply Forall_app in Hpacks as [Hpacks Hrd]. apply Forall_cons in Hrd as [Hrd _].
  apply Forall_app in Hcards as [Hcards Hcrd]. apply Forall_cons in Hcrd as [Hcrd _].
  assert (Hapool : fits pool ap).
  { rewrite Forall_forall in Hcrd. apply Hcrd, list_elem_of_In, Hin. }
  assert (Hmid : sound pool mid).
  { subst mid. unfold picked_state. rewrite Hrounds, set_last_snoc.
    constructor; cbn; try assumption.
    - rewrite <- Hlen, Hrounds, !length_app. reflexivity.
    - apply Forall_app. split; [exact Hpacks |]. constructor; [| constructor]. cbn.
      subst loop. rewrite removal_loop_length. unfold packs_after_pick.
      rewrite length_insert. exact Hrd.
    - apply Forall_app. split; [exact Hcards |]. constructor; [| constructor]. cbn.
      assert (Hbefore : Forall (fits pool) (packs_after_pick i rd ap a)).
      { unfold packs_after_pick. apply Forall_insert; [exact Hcrd |].
        apply (sublist_fits pool ap); [apply splice1_sublist | exact Hapool]. }
      pose proof (removal_loop_sublists a (packs_after_pick i rd ap a) 0 0 r) as Hsub.
      fold loop in Hsub. revert Hbefore Hsub.
      generalize (packs_after_pick i rd ap a) (fst (fst loop)).
      induction 2 as [| p p' l l' [_ Hp] _ IH]; [constructor |].
      apply Forall_cons in Hbefore as [Hp0 Hbefore].
      constructor; [| apply IH, Hbefore].
      apply (sublist_fits pool p); [exact Hp | exact Hp0].
    - rewrite map_app, Hlog. reflexivity.
    - apply Forall_app. split; [exact Hpicks |]. constructor; [| constructor].
      destruct (head _) as [c |] eqn:Hc; [| exact I]. cbn.
      apply splice1_picked in Hc. apply list_elem_of_In.
      eapply elem_of_submseteq; [| apply Hapool]. apply list_elem_of_In, Hc. }
  pose proof (advance_sound pool mid (snd loop) Hmid) as Hs'.
  destruct (advance_frame mid (snd loop)) as (_ & _ & _ & Hbuf).
  rewrite Hadv in Hs', Hbuf. cbn [fst] in Hs', Hbuf.
  split; [exact Hs' | exact Hbuf].
Qed.

Lemma resetRound_sound (pool : list Card) (s : DraftState) (r : Rng) :
  sound pool s ->
  sound pool (fst (resetRound s r)) /\ undoBuffer (fst (resetRound s r)) = None.
Proof.
  intros Hs. destruct (sound_active pool s Hs) as (done & rd & _ & Hrounds & _).
  destruct Hs as [Hpool Hturn Hround Hlen Hpacks Hcards Hlog Hpicks Hdone].
  rewrite resetRound_run. cbv zeta. split; [| reflexivity].
  rewrite Hrounds, set_last_snoc. rewrite Hrounds in Hpacks, Hcards.
  apply Forall_app in Hpacks as [Hpacks _]. apply Forall_app in Hcards as [Hcards _].
  destruct (createRound_spec (currentRound s) (masterCards s) r) as (_ & _ & Hsix & Hdrawn).
  constructor; cbn; try assumption; try lia.
  - rewrite <- Hlen, Hrounds, !length_app. reflexivity.
  - apply Forall_app. split; [exact Hpacks |]. constructor; [exact Hsix | constructor].
  - apply Forall_app. split; [exact Hcards |]. constructor; [| constructor].
    eapply Forall_impl; [exact Hdrawn |]. intros p Hp. rewrite <- Hpool.
    apply drawn_from_fits, Hp.
  - destruct (_ =? -1); [exact Hlog |]. unfold Js.splice_from.
    rewrite <- Hlog, length_map. symmetry. apply firstn_map.
  - destruct (_ =? -1); [exact Hpicks |]. unfold Js.splice_from.
    apply Forall_take, Hpicks.
Qed.

Lemma createNewDraft_sound (pool : list Card) (r : Rng) :
  sound pool (fst (createNewDraft pool r)).
Proof.
  rewrite createNewDraft_run. cbn [fst].
  destruct (createRound_spec 1 pool r) as (_ & _ & Hsix & Hdrawn).
  constructor; cbn; try lia; try reflexivity.
  - constructor; [exact Hsix | constructor].
  - constructor; [| constructor]. eapply Forall_impl; [exact Hdrawn |].
    intros p Hp. apply drawn_from_fits, Hp.
  - constructor.
Qed.

(** Every state that the operations lead to is well formed, and so is
    every state in its chain of undo buffers. *)
Lemma reachable_well_formed (pool : list Card) (s : DraftState) :
  reachable pool s -> well_formed pool s.
Proof.
  induction 1 as [r | s i r s' r' _ IH Hpick | s s' _ IH Hundo | s r _ IH].
  - apply well_formed_unfold. split; [apply createNewDraft_sound |].
    rewrite createNewDraft_run. exact I.
  - apply well_formed_unfold in IH as Hs. destruct Hs as [Hs _].
    destruct (pickCard_sound pool s i r Hs) as (s1 & r1 & Hpick1 & Hs1 & Hbuf).
    rewrite Hpick in Hpick1. injection Hpick1 as <- <-.
    apply well_formed_unfold. rewrite Hbuf. split; [exact Hs1 | exact IH].
  - apply well_formed_unfold in IH as [_ Hbuf]. unfold undoLastPick in Hundo.
    destruct (undoBuffer s) as [b |]; [| discriminate].
    rewrite deepClone_id in Hundo. injection Hundo as <-. exact Hbuf.
  - apply well_formed_unfold in IH as [Hs _].
    destruct (resetRound_sound pool s r Hs) as [Hs' Hbuf].
    apply well_formed_unfold. rewrite Hbuf. split; [exact Hs' | exact I].
Qed.

Lemma reachable_sound (pool : list Card) (s : DraftState) :
  reachable pool s -> sound pool s.
Proof. intros H. apply reachable_well_formed, well_formed_unfold in H as [H _]. exact H. Qed.

(** X4.  In a draft [pickCard] never throws: from a new draft, whatever
    picks (at valid indices or not), undos and resets of the round have
    been made, a pick at any index returns a state. *)
Theorem pick_never_throws_in_a_draft (pool : list Card) (s : DraftState) (i : Z) (r : Rng) :
  reachable pool s -> exists s' r', pickCard s i r = inr (s', r').
Proof.
  intros Hs. destruct (pickCard_sound pool s i r (reachable_sound pool s Hs))
    as (s' & r' & Hpick & _).
  eauto.
Qed.

Lemma pick_never_throws_in_a_draft_witness :
  exists s' r', pickCard (fst (resetRound demo_start demo_rng)) 99 demo_start_rng = inr (s', r').
Proof.
  apply (pick_never_throws_in_a_draft demo_pool).
  apply reach_reset. exact (reach_new demo_pool demo_rng).
Defined.

(** X5.  The shape of every state of a draft: the pool is the one the
    draft was created with; the turn is at least 1 and the round is one of
    1..6; there are as many rounds as the round number says, each of six
    packs; and the turn is past 12 only in a draft that is complete. *)
Theorem draft_state_shape (pool : list Card) (s : DraftState) :
  reachable pool s ->
  masterCards s = pool
  /\ 1 <= currentTurn s
  /\ 1 <= currentRound s <= 6
  /\ Z.of_nat (length (rounds s)) = currentRound s
  /\ Forall (fun rd => length (packs rd) = 6%nat) (rounds s)
  /\ (12 < currentTurn s -> isComplete s = true).
Proof.
  intros Hs. destruct (reachable_sound pool s Hs). auto 10.
Qed.

Lemma draft_state_shape_witness :
  let s := fst (resetRound demo_start demo_rng) in
  masterCards s = demo_pool
  /\ 1 <= currentTurn s
  /\ 1 <= currentRound s <= 6
  /\ Z.of_nat (length (rounds s)) = currentRound s
  /\ Forall (fun rd => length (packs rd) = 6%nat) (rounds s)
  /\ (12 < currentTurn s -> isComplete s = true).
Proof.
  apply (draft_state_shape demo_pool).
  apply reach_reset. exact (reach_new demo_pool demo_rng).
Defined.

(** X6.  The cards of every state of a draft: the log records the picks
    in their order; every pick is a card of the pool (or the [undefined]
    of a pick at an index outside the pack); and every pack of every round
    holds at most twelve cards, none more often than the pool holds it. *)
Theorem draft_cards_come_from_the_pool (pool : list Card) (s : DraftState) :
  reachable pool s ->
  map picked (log s) = picks s
  /\ Forall (from_pool pool) (picks s)
  /\ Forall (fun rd => Forall (fits pool) (packs rd)) (rounds s).
Proof.
  intros Hs. destruct (reachable_sound pool s Hs). auto.
Qed.

Lemma draft_cards_come_from_the_pool_witness :
  match demo_after [0; 99] with
  | Some s =>
      map picked (log s) = picks s
      /\ Forall (from_pool demo_pool) (picks s)
      /\ Forall (fun rd => Forall (fits demo_pool) (packs rd)) (rounds s)
  | None => False
  end.
Proof.
  unfold demo_after. cbn [demo_picks].
  pose proof (reach_new demo_pool demo_rng) as H0. fold demo_start in H0.
  destruct (pickCard_sound demo_pool demo_start 0 demo_start_rng
              (reachable_sound _ _ H0)) as (s1 & r1 & E1 & _).
  rewrite E1.
  assert (H1 : reachable demo_pool s1) by (eapply reach_pick; [exact H0 | exact E1]).
  destruct (pickCard_sound demo_pool s1 99 r1 (reachable_sound _ _ H1))
    as (s2 & r2 & E2 & _).
  rewrite E2. apply (draft_cards_come_from_the_pool demo_pool).
  eapply reach_pick; [exact H1 | exact E2].
Defined.

(** ** App.tsx: Quick Sim *)

Lemma handleQuickSim_done (fuel : nat) (s : DraftState) (r : Rng) :
  isComplete s = true -> App.handleQuickSim (S fuel) s r = Some (inr (s, r)).
Proof. intros H. cbn [App.handleQuickSim]. rewrite H. reflexivity. Qed.

Lemma handleQuickSim_pick (fuel : nat) (s : DraftState) (r : Rng) (ap : Pack) :
  isComplete s = false -> active_pack s = Some ap -> (0 < length (cards ap))%nat ->
  App.handleQuickSim (S fuel) s r =
  match pickCard s 0 r with
  | inr (s', r') => App.handleQuickSim fuel s' r'
  | inl e => Some (inl e)
  end.
Proof.
  intros Hopen Hap Hlen. cbn [App.handleQuickSim]. rewrite Hopen.
  unfold active_pack in Hap. destruct (last (rounds s)) as [rd |]; [| discriminate].
  rewrite Hap. destruct (Z.gtb_spec (Z.of_nat (length (cards ap))) 0); [reflexivity | lia].
Qed.

Lemma handleQuickSim_empty (fuel : nat) (s : DraftState) (r : Rng) (ap : Pack) :
  isComplete s = false -> active_pack s = Some ap -> length (cards ap) = 0%nat ->
  App.handleQuickSim (S fuel) s r = Some (inr (s, r)).
Proof.
  intros Hopen Hap Hlen. cbn [App.handleQuickSim]. rewrite Hopen.
  unfold active_pack in Hap. destruct (last (rounds s)) as [rd |]; [| discriminate].
  rewrite Hap, Hlen. reflexivity.
Qed.

Lemma quick_sim_run (pool : list Card) :
  (12 <= length pool)%nat ->
  forall (k n : nat) (s : DraftState) (r : Rng) (fuel : nat),
    reached pool n s -> (n + k = 72)%nat -> (k < fuel)%nat ->
    exists s' r',
      App.handleQuickSim fuel s r = Some (inr (s', r'))
      /\ pick_all s (replicate k 0) r = Some (s', r')
      /\ finished s'.
Proof.
  intros Hpool. induction k as [| k IH]; intros n s r fuel Hreach Hn Hfuel;
    (destruct fuel as [| fuel]; [lia |]).
  - destruct Hreach as [(q & t & -> & Ht & Hq & _) | [_ Hfin]]; [lia |].
    exists s, r. rewrite (handleQuickSim_done _ _ _ (fin_complete _ Hfin)). auto.
  - pose proof (first_card_valid pool n s Hreach ltac:(lia)) as Hvalid.
    destruct (pickCard_step pool n s 0 r Hpool Hreach Hvalid) as (s1 & r1 & Hpick & Hreach1).
    destruct Hreach as [(q & t & -> & Ht & Hq & Hip) | [-> _]]; [| lia].
    destruct (in_progress_active _ _ _ _ Hip Ht) as (ap & Hap & Hapm).
    rewrite (handleQuickSim_pick fuel s r ap (ip_open _ _ _ _ Hip) Hap) by lia.
    cbn [replicate pick_all]. rewrite Hvalid, Hpick.
    apply (IH (S (12 * q + t))); [exact Hreach1 | lia | lia].
Qed.

(** X7.  Quick Sim finishes a draft over a pool of at least twelve cards:
    started after [n] valid picks, with room for the [72 - n] iterations
    that are left and the last test of the loop condition, it picks the
    first card of the active pack until the draft is complete, with 72
    picks, six rounds and every pack empty. *)
Theorem quick_sim_completes_the_draft (pool : list Card) (n : nat) (s : DraftState)
    (r : Rng) (fuel : nat) :
  (12 <= length pool)%nat -> reached pool n s -> (72 - n < fuel)%nat ->
  exists s' r',
    App.handleQuickSim fuel s r = Some (inr (s', r'))
    /\ pick_all s (replicate (72 - n) 0) r = Some (s', r')
    /\ finished s'.
Proof.
  intros Hpool Hreach Hfuel. pose proof (reached_bound pool n s Hreach).
  apply (quick_sim_run pool Hpool (72 - n) n); [exact Hreach | lia | exact Hfuel].
Qed.

Lemma quick_sim_completes_the_draft_witness :
  exists s' r',
    App.handleQuickSim 100 demo_start demo_start_rng = Some (inr (s', r'))
    /\ pick_all demo_start (replicate (72 - 0) 0) demo_start_rng = Some (s', r')
    /\ finished s'.
Proof.
  apply (quick_sim_completes_the_draft demo_pool 0 demo_start demo_start_rng 100).
  - vm_compute. lia.
  - left. exists 0%nat, 0%nat. split; [reflexivity |]. split; [lia |]. split; [lia |].
    apply createNewDraft_in_progress. vm_compute. lia.
  - lia.
Defined.

(** ** A pool of fewer than twelve cards *)

Lemma drawn_packs_sizes (pool : list Card) (packs : list Pack) :
  length packs = 6%nat -> Forall (drawn_from pool) packs ->
  pack_sizes packs = replicate 6 (Nat.min 12 (length pool)).
Proof.
  intros Hlen Hall.
  assert (H : Forall (fun p => length (cards p) = Nat.min 12 (length pool)) packs).
  { eapply Forall_impl; [exact Hall |]. intros p [Hp _]. exact Hp. }
  unfold pack_sizes. clear Hall.
  do 7 (destruct packs as [| ? packs]; try discriminate).
  repeat (apply Forall_cons in H as [? H]).
  simpl. repeat f_equal; assumption.
Qed.

Lemma createNewDraft_short (pool : list Card) (r : Rng) :
  (length pool < 12)%nat -> short_of_cards pool 0 (fst (createNewDraft pool r)).
Proof.
  intros Hpool. rewrite createNewDraft_run. cbn [fst].
  constructor; cbn; try reflexivity; try lia.
  exists (fst (createRound 1 pool r)). split; [reflexivity |].
  destruct (createRound_spec 1 pool r) as (_ & _ & Hlen & Hall).
  unfold all_packs. rewrite (drawn_packs_sizes pool _ Hlen Hall). f_equal. lia.
Qed.

Lemma short_active (pool : list Card) (t : nat) (s : DraftState) :
  (length pool < 12)%nat -> short_of_cards pool t s ->
  exists ap, active_pack s = Some ap /\ length (cards ap) = (length pool - t)%nat.
Proof.
  intros Hpool [_ _ _ Hturn _ Hbound (cur & Hrounds & Hcur)].
  destruct (getActivePackIndex_turn t) as (a & Ha & Ha6); [lia |].
  unfold active_pack. rewrite Hrounds. cbn [last]. rewrite Hturn, Ha.
  assert (Hlen : length (packs cur) = 6%nat).
  { unfold all_packs, pack_sizes in Hcur. apply (f_equal length) in Hcur.
    rewrite length_map, length_replicate in Hcur. exact Hcur. }
  destruct (index_in_range (packs cur) (Z.of_nat a)) as [ap Hap]; [lia |].
  exists ap. split; [exact Hap |].
  apply index_Some in Hap as [_ Hap]. rewrite Nat2Z.id in Hap.
  eapply pack_sizes_lookup; [| exact Hap].
  rewrite Hcur. apply lookup_replicate_2. exact Ha6.
Qed.

Lemma short_valid (pool : list Card) (t : nat) (s : DraftState) (i : Z) :
  (length pool < 12)%nat -> short_of_cards pool t s ->
  valid_index s i = true <-> 0 <= i < Z.of_nat (length pool - t).
Proof.
  intros Hpool Hs. destruct (short_active pool t s Hpool Hs) as (ap & Hap & Hlen).
  unfold valid_index. rewrite (short_open _ _ _ Hs), Hap, Hlen. cbn [negb andb].
  rewrite andb_true_iff, Z.leb_le, Z.ltb_lt. reflexivity.
Qed.

Lemma short_step (pool : list Card) (t : nat) (s : DraftState) (i : Z) (r : Rng) :
  (length pool < 12)%nat -> short_of_cards pool t s -> valid_index s i = true ->
  exists s' r', pickCard s i r = inr (s', r') /\ short_of_cards pool (S t) s'.
Proof.
  intros Hpool Hs Hvalid. apply (short_valid pool t s i Hpool Hs) in Hvalid.
  destruct Hs as [Hmaster Hopen Hround Hturn Hpicks Hbound (cur & Hrounds & Hcur)].
  destruct (getActivePackIndex_turn t) as (a & Ha & Ha6); [lia |]. rewrite <- Hturn in Ha.
  destruct (pickCard_valid s i r [] cur (length pool - t) a Hrounds Ha Ha6 Hcur Hvalid)
    as (pk & cur' & r1 & Hpick & Hcur').
  rewrite Hpick. set (mid := mkDraftState _ _ _ _ _ _ _ _).
  exists (fst (advance mid r1)), (snd (advance mid r1)).
  split; [destruct (advance mid r1); reflexivity |].
  rewrite advance_within_round by (subst mid; cbn; lia). subst mid. cbn [fst].
  constructor; cbn; rewrite ?length_app; cbn; try lia; try assumption.
  exists cur'. split; [reflexivity |]. unfold all_packs. rewrite Hcur'. f_equal. lia.
Qed.

Lemma short_run (pool : list Card) :
  (length pool < 12)%nat ->
  forall (indices : list Z) (t : nat) (s : DraftState) (r : Rng) (s' : DraftState) (r' : Rng),
    short_of_cards pool t s -> pick_all s indices r = Some (s', r') ->
    short_of_cards pool (t + length indices) s'.
Proof.
  intros Hpool. induction indices as [| i rest IH]; intros t s r s' r' Hs Hrun.
  - simpl in *. injection Hrun as <- _. rewrite Nat.add_0_r. exact Hs.
  - cbn [pick_all] in Hrun. destruct (valid_index s i) eqn:Hvalid; [| discriminate].
    destruct (short_step pool t s i r Hpool Hs Hvalid) as (s1 & r1 & Hpick & Hs1).
    rewrite Hpick in Hrun. specialize (IH _ _ _ _ _ Hs1 Hrun).
    simpl. rewrite Nat.add_succ_r. exact IH.
Qed.

(** X8.  A draft over a pool of fewer than twelve cards cannot be
    finished.  Every pack of the first round holds the whole pool, so a
    run of valid picks from the new draft is at most as long as the pool;
    it leaves the draft in round 1 and not complete; and once it is as
    long as the pool, no index is valid any more. *)
Theorem short_pool_draft_stalls (pool : list Card) (r0 : Rng) (indices : list Z) (r : Rng)
    (s' : DraftState) (r' : Rng) :
  (length pool < 12)%nat ->
  pick_all (fst (createNewDraft pool r0)) indices r = Some (s', r') ->
  (length indices <= length pool)%nat
  /\ isComplete s' = false
  /\ currentRound s' = 1
  /\ length (picks s') = length indices
  /\ (length indices = length pool -> forall i, valid_index s' i = false).
Proof.
  intros Hpool Hrun.
  pose proof (short_run pool Hpool indices 0 _ r s' r' (createNewDraft_short pool r0 Hpool) Hrun)
    as Hs.
  cbn [Nat.add] in Hs.
  split; [exact (short_bound _ _ _ Hs) |].
  split; [exact (short_open _ _ _ Hs) |].
  split; [exact (short_round _ _ _ Hs) |].
  split; [exact (short_picks _ _ _ Hs) |].
  intros Hall i. destruct (valid_index s' i) eqn:Hvalid; [| reflexivity].
  apply (short_valid pool _ s' i Hpool Hs) in Hvalid. lia.
Qed.

Lemma short_pool_draft_stalls_witness :
  match pick_all (fst (createNewDraft small_pool demo_rng)) [0; 1; 0]
          (snd (createNewDraft small_pool demo_rng)) with
  | Some (s', _) =>
      isComplete s' = false /\ currentRound s' = 1 /\ length (picks s') = 3%nat
      /\ forall i, valid_index s' i = false
  | None => False
  end.
Proof.
  destruct (pick_all _ _ _) as [[s' r'] |] eqn:E; [| vm_compute in E; discriminate].
  destruct (short_pool_draft_stalls small_pool demo_rng [0; 1; 0]
              (snd (createNewDraft small_pool demo_rng)) s' r') as
    (_ & Hopen & Hround & Hpicks & Hstuck); [vm_compute; lia | exact E |].
  split; [exact Hopen |]. split; [exact Hround |]. split; [exact Hpicks |].
  apply Hstuck. reflexivity.
Defined.

Lemma quick_sim_short_run (pool : list Card) :
  (length pool < 12)%nat ->
  forall (k t : nat) (s : DraftState) (r : Rng) (fuel : nat),
    short_of_cards pool t s -> (t + k = length pool)%nat -> (k < fuel)%nat ->
    exists s' r',
      App.handleQuickSim fuel s r = Some (inr (s', r'))
      /\ short_of_cards pool (length pool) s'.
Proof.
  intros Hpool. induction k as [| k IH]; intros t s r fuel Hs Ht Hfuel;
    (destruct fuel as [| fuel]; [lia |]);
    destruct (short_active pool t s Hpool Hs) as (ap & Hap & Hlen).
  - exists s, r. rewrite (handleQuickSim_empty fuel s r ap (short_open _ _ _ Hs) Hap) by lia.
    split; [reflexivity |]. replace t with (length pool) in Hs by lia. exact Hs.
  - rewrite (handleQuickSim_pick fuel s r ap (short_open _ _ _ Hs) Hap) by lia.
    destruct (short_step pool t s 0 r Hpool Hs) as (s1 & r1 & Hpick & Hs1).
    { apply (short_valid pool t s 0 Hpool Hs). lia. }
    rewrite Hpick. apply (IH (S t)); [exact Hs1 | lia | lia].
Qed.

(** X9.  On a new draft over a pool of fewer than twelve cards Quick Sim
    stops early: after as many picks as the pool has cards it finds the
    active pack empty and leaves the loop, with the draft in round 1 and
    not complete. *)
Theorem quick_sim_stops_on_a_short_pool (pool : list Card) (r0 r : Rng) (fuel : nat) :
  (length pool < 12)%nat -> (length pool < fuel)%nat ->
  exists s' r',
    App.handleQuickSim fuel (fst (createNewDraft pool r0)) r = Some (inr (s', r'))
    /\ isComplete s' = false
    /\ currentRound s' = 1
    /\ length (picks s') = length pool
    /\ forall i, valid_index s' i = false.
Proof.
  intros Hpool Hfuel.
  destruct (quick_sim_short_run pool Hpool (length pool) 0 _ r fuel
              (createNewDraft_short pool r0 Hpool)) as (s' & r' & Hrun & Hs); [lia | lia |].
  exists s', r'. split; [exact Hrun |].
  split; [exact (short_open _ _ _ Hs) |].
  split; [exact (short_round _ _ _ Hs) |].
  split; [exact (short_picks _ _ _ Hs) |].
  intros i. destruct (valid_index s' i) eqn:Hvalid; [| reflexivity].
  apply (short_valid pool _ s' i Hpool Hs) in Hvalid. lia.
Qed.

Lemma quick_sim_stops_on_a_short_pool_witness :
  exists s' r',
    App.handleQuickSim 4 (fst (createNewDraft small_pool demo_rng)) demo_rng
      = Some (inr (s', r'))
    /\ isComplete s' = false
    /\ currentRound s' = 1
    /\ length (picks s') = length small_pool
    /\ forall i, valid_index s' i = false.
Proof.
  apply (quick_sim_stops_on_a_short_pool small_pool demo_rng demo_rng 4);
    vm_compute; lia.
Defined.

(** ** lib/draft.ts: enriching a saved draft *)

Section EnrichFacts.
Import Enrich.
Variable lookup : gmap CardId Card.

Lemma enrichCard_facts (c : Card) :
  let c' := enrichCardWithBaseCard c lookup in
  flagged c' = true /\ without_flag c' = without_flag c
  /\ enrichCardWithBaseCard c' lookup = c'.
Proof.
  destruct c as [id fn col cst img ty kw bc rar].
  unfold enrichCardWithBaseCard, flagged, without_flag, set_baseCard. cbn.
  destruct (lookup !! id) as [m |] eqn:Hm; [destruct (baseCard m) as [b |] eqn:Hb |];
    cbn; rewrite ?Hm; cbn; rewrite ?Hb; cbn; auto;
    destruct bc; cbn; rewrite ?Hm; cbn; rewrite ?Hb; auto.
Qed.

Lemma enrichCards_facts (l : list Card) :
  let l' := map (fun c => enrichCardWithBaseCard c lookup) l in
  forallb flagged l' = true /\ map without_flag l' = map without_flag l
  /\ map (fun c => enrichCardWithBaseCard c lookup) l' = l'.
Proof.
  induction l as [| c l (IH1 & IH2 & IH3)]; [auto |].
  destruct (enrichCard_facts c) as (H1 & H2 & H3). cbn in *.
  rewrite H1, IH1, H2, IH2, H3, IH3. auto.
Qed.

Lemma enrich_pack_facts (p : Pack) :
  let p' := enrich_pack lookup p in
  forallb flagged (cards p') = true /\ pack_without_flags p' = pack_without_flags p
  /\ enrich_pack lookup p' = p'.
Proof.
  destruct (enrichCards_facts (cards p)) as (H1 & H2 & H3).
  unfold enrich_pack, pack_without_flags. cbn. rewrite H1, H2, H3. auto.
Qed.

Lemma enrich_round_facts (rd : RoundState) :
  let rd' := enrich_round lookup rd in
  forallb (fun p => forallb flagged (cards p)) (packs rd') = true
  /\ round_without_flags rd' = round_without_flags rd
  /\ enrich_round lookup rd' = rd'.
Proof.
  unfold enrich_round, round_without_flags. cbn.
  induction (packs rd) as [| p l (IH1 & IH2 & IH3)]; [auto |].
  destruct (enrich_pack_facts p) as (H1 & H2 & H3). cbn in *.
  rewrite H1, IH1, H2, H3. injection IH2 as ->. injection IH3 as ->. auto.
Qed.

Lemma enrich_rounds_facts (rs : list RoundState) :
  let rs' := map (enrich_round lookup) rs in
  forallb (fun rd => forallb (fun p => forallb flagged (cards p)) (packs rd)) rs' = true
  /\ map round_without_flags rs' = map round_without_flags rs
  /\ map (enrich_round lookup) rs' = rs'.
Proof.
  induction rs as [| rd l (IH1 & IH2 & IH3)]; [auto |].
  destruct (enrich_round_facts rd) as (H1 & H2 & H3). cbn in *.
  rewrite H1, IH1, H2, IH2, H3, IH3. auto.
Qed.

(** The picks go through when each is a card, and the first that is not
    makes the callback throw. *)
Lemma enrich_picks_run (ps : list (option Card)) :
  if forallb defined ps
  then exists cs, ps = map Some cs
       /\ map_throwing (enrich_picked lookup) ps
          = inr (map (fun c => enrichCardWithBaseCard c lookup) cs)
  else map_throwing (enrich_picked lookup) ps = inl TypeError.
Proof.
  induction ps as [| [c |] ps IH]; cbn.
  - exists []. auto.
  - destruct (forallb defined ps).
    + destruct IH as (cs & -> & ->). exists (c :: cs). auto.
    + rewrite IH. reflexivity.
  - reflexivity.
Qed.

Lemma enrich_log_run (lg : list PickLogEntry) :
  if forallb (fun e => defined (picked e)) lg
  then exists lg',
       map_throwing (enrich_entry lookup) lg = inr lg'
       /\ forallb (fun e => pick_flagged (picked e)) lg' = true
       /\ map entry_without_flags lg' = map entry_without_flags lg
       /\ forallb (fun e => defined (picked e)) lg' = true
       /\ map_throwing (enrich_entry lookup) lg' = inr lg'
  else map_throwing (enrich_entry lookup) lg = inl TypeError.
Proof.
  induction lg as [| [rn tn pi [c |] rc] lg IH]; cbn.
  - exists []. auto.
  - destruct (forallb _ lg).
    + destruct IH as (lg' & -> & H1 & H2 & H3 & H4).
      destruct (enrichCard_facts c) as (F1 & F2 & F3).
      eexists. split; [reflexivity |]. cbn. fold (enrich_entry lookup).
      rewrite F1, F3, H1, H2, H3, H4. unfold entry_without_flags at 1 2. cbn.
      rewrite F2. auto.
    + rewrite IH. reflexivity.
  - reflexivity.
Qed.

End EnrichFacts.

(** X10.  Enriching a card always leaves it with a [baseCard] flag: the
    flag of the master card of the same id when that one has a flag, else
    the card's own flag, else [true].  Nothing else of the card changes,
    and enriching twice is enriching once. *)
Theorem enriched_card_has_a_flag (card : Card) (lookup : gmap CardId Card) :
  let card' := Enrich.enrichCardWithBaseCard card lookup in
  baseCard card' <> None
  /\ (forall m b, lookup !! card_id card = Some m -> baseCard m = Some b ->
      baseCard card' = Some b)
  /\ ((lookup !! card_id card) ≫= baseCard = None ->
      baseCard card' = Some (default true (baseCard card)))
  /\ Enrich.set_baseCard card' (baseCard card) = card
  /\ Enrich.enrichCardWithBaseCard card' lookup = card'.
Proof.
  destruct (enrichCard_facts lookup card) as (_ & _ & Hidem).
  cbv zeta. split; [| split; [| split; [| split; [| exact Hidem]]]];
    clear Hidem; destruct card as [id fn col cst img ty kw bc rar];
    unfold Enrich.enrichCardWithBaseCard, Enrich.set_baseCard; cbn.
  - destruct (lookup !! id) as [m |]; [destruct (baseCard m) |]; destruct bc; cbn; congruence.
  - intros m b -> ->. reflexivity.
  - destruct (lookup !! id) as [m |]; cbn; [intros -> |]; destruct bc; reflexivity.
  - destruct (lookup !! id) as [m |]; [destruct (baseCard m) |]; destruct bc; reflexivity.
Qed.

Lemma enriched_card_has_a_flag_witness :
  baseCard (Enrich.enrichCardWithBaseCard (tally_card "Card A" "Amber")
              (Enrich.build_lookup [demo_card 0])) = Some true.
Proof.
  destruct (enriched_card_has_a_flag (tally_card "Card A" "Amber")
              (Enrich.build_lookup [demo_card 0])) as (_ & Hmaster & _).
  apply (Hmaster (demo_card 0) true); vm_compute; reflexivity.
Defined.

Lemma enrich_state_run (masterCards : list Card) :
  forall s : DraftState,
    if picks_defined s
    then exists s',
      Enrich.enrichDraftStateWithBaseCard s masterCards = inr s'
      /\ all_flagged s' = true
      /\ without_flags s' = without_flags s
      /\ picks_defined s' = true
      /\ Enrich.enrichDraftStateWithBaseCard s' masterCards = inr s'
    else Enrich.enrichDraftStateWithBaseCard s masterCards = inl TypeError.
Proof.
  fix IH 1. intros [master rs cr ct ps lg done buffer].
  cbn [picks_defined Enrich.enrichDraftStateWithBaseCard].
  set (lookup := Enrich.build_lookup masterCards).
  pose proof (enrich_picks_run lookup ps) as Hps.
  pose proof (enrich_log_run lookup lg) as Hlg.
  destruct (forallb defined ps); [| rewrite Hps; reflexivity].
  destruct Hps as (cs & -> & ->).
  destruct (forallb _ lg); [| rewrite Hlg; reflexivity].
  destruct Hlg as (lg' & -> & L1 & L2 & L3 & L4).
  destruct (enrichCards_facts lookup master) as (M1 & M2 & M3).
  destruct (enrichCards_facts lookup cs) as (C1 & C2 & C3).
  destruct (enrich_rounds_facts lookup rs) as (R1 & R2 & R3).
  assert (P1 : forall l : list Card, forallb pick_flagged (map Some l) = forallb flagged l).
  { induction l as [| c l IHl]; [reflexivity |]. cbn. rewrite IHl. reflexivity. }
  assert (P2 : forall l : list Card, forallb defined (map Some l) = true).
  { induction l as [| c l IHl]; [reflexivity |]. exact IHl. }
  assert (P3 : forall l : list Card,
             map (option_map without_flag) (map Some l) = map Some (map without_flag l)).
  { induction l as [| c l IHl]; [reflexivity |]. cbn. rewrite IHl. reflexivity. }
  assert (P4 : forall l : list Card,
             Enrich.map_throwing (Enrich.enrich_picked lookup) (map Some l)
             = inr (map (fun c => Enrich.enrichCardWithBaseCard c lookup) l)).
  { induction l as [| c l IHl]; [reflexivity |]. cbn. rewrite IHl. reflexivity. }
  destruct buffer as [b |]; cbn [andb].
  - specialize (IH b). destruct (picks_defined b); [| rewrite IH; reflexivity].
    destruct IH as (b' & -> & B1 & B2 & B3 & B4).
    eexists. split; [reflexivity |].
    cbn [all_flagged without_flags picks_defined Enrich.enrichDraftStateWithBaseCard].
    fold lookup. rewrite M1, R1, P1, C1, L1, B1, M2, R2, !P3, C2, L2, B2, P2, L3, B3.
    rewrite P4, L4, B4, M3, R3, C3. auto.
  - eexists. split; [reflexivity |].
    cbn [all_flagged without_flags picks_defined Enrich.enrichDraftStateWithBaseCard].
    fold lookup. rewrite M1, R1, P1, C1, L1, M2, R2, !P3, C2, L2, P2, L3.
    rewrite P4, L4, M3, R3, C3. auto.
Qed.

(** X11.  Enriching a saved draft throws a [TypeError] exactly when some
    pick, in the picks or in the log of the state or of a state in its
    chain of undo buffers, is no card.  When every pick is a card it
    returns a state in which every card has its [baseCard] flag and that
    differs from the given one in these flags only; enriching that state
    again changes nothing. *)
Theorem enrichment_of_a_saved_draft (masterCards : list Card) (s : DraftState) :
  if picks_defined s
  then exists s',
    Enrich.enrichDraftStateWithBaseCard s masterCards = inr s'
    /\ all_flagged s' = true
    /\ without_flags s' = without_flags s
    /\ Enrich.enrichDraftStateWithBaseCard s' masterCards = inr s'
  else Enrich.enrichDraftStateWithBaseCard s masterCards = inl TypeError.
Proof.
  pose proof (enrich_state_run masterCards s) as Hmain.
  destruct (picks_defined s); [| exact Hmain].
  destruct Hmain as (s' & H1 & H2 & H3 & _ & H5). eauto.
Qed.

Lemma pickCard_picks (s : DraftState) (i : Z) (r : Rng) (s' : DraftState) (r' : Rng)
    (ap : Pack) :
  active_pack s = Some ap -> pickCard s i r = inr (s', r') ->
  picks s' = picks s ++ [head (fst (Js.splice1 (cards ap) i))].
Proof.
  unfold active_pack. intros Hap Hpick.
  destruct (last (rounds s)) as [rd |] eqn:Hrd; [| discriminate].
  rewrite (pickCard_run s i r rd ap Hrd Hap) in Hpick. cbv zeta in Hpick.
  injection Hpick as Hpick.
  match type of Hpick with advance ?mid ?r1 = _ =>
    destruct (advance_frame mid r1) as (_ & Hp & _); rewrite Hpick in Hp end.
  exact Hp.
Qed.

Lemma picks_defined_picks (s : DraftState) :
  forallb defined (picks s) = false -> picks_defined s = false.
Proof. destruct s. cbn. intros ->. reflexivity. Qed.

(** X12.  A pick at an index at or past the end of the active pack puts
    an [undefined] pick in the state, and enriching the state it returns
    throws a [TypeError]. *)
Theorem enrichment_throws_after_a_pick_past_the_pack (s : DraftState) (i : Z) (r : Rng)
    (s' : DraftState) (r' : Rng) (ap : Pack) (masterCards : list Card) :
  active_pack s = Some ap -> Z.of_nat (length (cards ap)) <= i ->
  pickCard s i r = inr (s', r') ->
  picks s' = picks s ++ [None]
  /\ Enrich.enrichDraftStateWithBaseCard s' masterCards = inl TypeError.
Proof.
  intros Hap Hi Hpick.
  pose proof (pickCard_picks s i r s' r' ap Hap Hpick) as Hpicks.
  rewrite (splice1_beyond _ _ Hi) in Hpicks. cbn [fst head] in Hpicks.
  split; [exact Hpicks |].
  pose proof (enrich_state_run masterCards s') as Hrun.
  rewrite picks_defined_picks in Hrun; [exact Hrun |].
  rewrite Hpicks, forallb_app. cbn. apply andb_false_r.
Qed.

Lemma enrichment_throws_after_a_pick_past_the_pack_witness :
  match demo_after [12] with
  | Some s' =>
      picks s' = picks demo_start ++ [None]
      /\ Enrich.enrichDraftStateWithBaseCard s' demo_pool = inl TypeError
  | None => False
  end.
Proof.
  unfold demo_after. cbn [demo_picks].
  destruct (pickCard demo_start 12 demo_start_rng) as [e | [s' r']] eqn:E;
    [vm_compute in E; discriminate |].
  destruct (active_pack demo_start) as [ap |] eqn:Hap; [| vm_compute in Hap; discriminate].
  apply (enrichment_throws_after_a_pick_past_the_pack demo_start 12 demo_start_rng s' r' ap
           demo_pool Hap); [| exact E].
  vm_compute in Hap. injection Hap as <-. vm_compute. discriminate.
Defined.

(** ** lib/deckUtils.js *)

Section TrimFacts.

Lemma trimEnd_idempotent (s : string) : Js.trimEnd (Js.trimEnd s) = Js.trimEnd s.
Proof.
  induction s as [| c rest IH]; [reflexivity |].
  cbn [Js.trimEnd]. destruct (Js.trimEnd rest) as [| d rest'] eqn:E.
  - destruct (Js.is_whitespace c) eqn:Hc; [reflexivity |].
    cbn [Js.trimEnd]. rewrite Hc. reflexivity.
  - cbn [Js.trimEnd] in *. rewrite IH. reflexivity.
Qed.

Lemma trimStart_head (s : string) :
  match Js.trimStart s with
  | String c _ => Js.is_whitespace c = false
  | EmptyString => True
  end.
Proof.
  induction s as [| c rest IH]; [exact I |].
  cbn [Js.trimStart]. destruct (Js.is_whitespace c) eqn:Hc; [exact IH | exact Hc].
Qed.

Lemma trimEnd_head (c : ascii) (rest : string) :
  Js.is_whitespace c = false -> exists rest', Js.trimEnd (String c rest) = String c rest'.
Proof.
  intros Hc. cbn [Js.trimEnd]. destruct (Js.trimEnd rest); [rewrite Hc |]; eauto.
Qed.

Lemma trim_head (s : string) :
  match Js.trim s with
  | String c _ => Js.is_whitespace c = false
  | EmptyString => True
  end.
Proof.
  unfold Js.trim. pose proof (trimStart_head s) as H.
  destruct (Js.trimStart s) as [| c rest]; [exact I |].
  destruct (trimEnd_head c rest H) as [rest' ->]. exact H.
Qed.

(** Trimming what is trimmed changes nothing. *)
Lemma trim_idempotent (s : string) : Js.trim (Js.trim s) = Js.trim s.
Proof.
  pose proof (trim_head s) as H. unfold Js.trim at 1.
  destruct (Js.trim s) as [| c rest] eqn:E; [reflexivity |].
  cbn [Js.trimStart]. rewrite H. rewrite <- E. unfold Js.trim.
  apply trimEnd_idempotent.
Qed.

End TrimFacts.

Lemma resolveCardType_cases (card : Card) :
  let baseType := Js.trim (default EmptyString (card_type card)) in
  DeckUtils.resolveCardType card = "Other"%string
  \/ In (DeckUtils.resolveCardType card) DeckUtils.TYPE_ORDER
  \/ (DeckUtils.resolveCardType card = baseType
      /\ DeckUtils.is_empty baseType = false
      /\ String.eqb (JsMore.toLowerCase baseType) "character" = false
      /\ String.eqb (JsMore.toLowerCase baseType) "action" = false
      /\ String.eqb (JsMore.toLowerCase baseType) "song" = false).
Proof.
  unfold DeckUtils.resolveCardType. cbv zeta.
  destruct (DeckUtils.is_empty _); [left; reflexivity |].
  destruct (String.eqb _ "character"); [right; left; simpl; auto |].
  destruct (String.eqb _ "action"); [right; left; simpl; auto |].
  destruct (String.eqb _ "song"); [right; left; simpl; auto |].
  right; right. auto.
Qed.

(** X13.  [resolveCardType] returns a name that is not empty and has no
    white space around it, and it is a normal form: the type resolved once
    more is the same. *)
Theorem resolveCardType_normalizes (card : Card) :
  DeckUtils.resolveCardType card <> EmptyString
  /\ Js.trim (DeckUtils.resolveCardType card) = DeckUtils.resolveCardType card
  /\ DeckUtils.resolveCardType (with_type card (DeckUtils.resolveCardType card))
     = DeckUtils.resolveCardType card.
Proof.
  destruct (resolveCardType_cases card) as [-> | [Hin | (-> & Hempty & H1 & H2 & H3)]].
  - split; [discriminate |]. split; reflexivity.
  - destruct Hin as [<- | [<- | [<- | []]]]; (split; [discriminate |]; split; reflexivity).
  - set (baseType := Js.trim (default EmptyString (card_type card))) in *.
    assert (Htrim : Js.trim baseType = baseType) by apply trim_idempotent.
    split; [intros E; rewrite E in Hempty; discriminate |].
    split; [exact Htrim |].
    unfold DeckUtils.resolveCardType, with_type. cbn [card_type default from_option id].
    rewrite Htrim, Hempty, H1, H2, H3. reflexivity.
Qed.

Lemma includes_string_In (l : list string) (x : string) :
  JsMore.includes_string l x = true <-> In x l.
Proof.
  unfold JsMore.includes_string. rewrite existsb_exists. split.
  - intros (y & Hy & Heq). apply String.eqb_eq in Heq. subst. exact Hy.
  - intros H. exists x. split; [exact H | apply String.eqb_refl].
Qed.

Lemma includes_number_In (l : list Z) (x : Z) :
  JsMore.includes_number l x = true <-> In x l.
Proof.
  unfold JsMore.includes_number. rewrite existsb_exists. split.
  - intros (y & Hy & Heq). apply Z.eqb_eq in Heq. subst. exact Hy.
  - intros H. exists x. split; [exact H | apply Z.eqb_refl].
Qed.

Lemma criterion_spec {A} (l : list A) (found : bool) (P : Prop) :
  (found = true <-> P) ->
  (Z.of_nat (length l) >? 0) && negb found = false <-> (l = [] \/ P).
Proof.
  intros Hfound. destruct l as [| x l].
  - simpl. split; auto.
  - replace (Z.of_nat (length (x :: l)) >? 0) with true
      by (symmetry; apply Z.gtb_lt; simpl; lia).
    destruct found; simpl.
    + split; [intros _; right; apply Hfound; reflexivity | reflexivity].
    + split; [discriminate |].
      intros [H | H]; [discriminate | apply Hfound in H; discriminate].
Qed.

Lemma hasKeyword_spec (card : Card) (keyword : string) :
  DeckUtils.hasKeyword card keyword = true <->
  exists k, In k (default [] (keywordAbilities card))
            /\ JsMore.toLowerCase k = JsMore.toLowerCase keyword.
Proof.
  unfold DeckUtils.hasKeyword. destruct (keywordAbilities card) as [ks |]; cbn.
  - destruct ks as [| k0 ks]; [cbn; split; [discriminate | intros (k & [] & _)] |].
    replace (Z.of_nat (length (k0 :: ks)) =? 0) with false
      by (symmetry; apply Z.eqb_neq; simpl; lia).
    rewrite existsb_exists. split.
    + intros (k & Hk & Heq). apply String.eqb_eq in Heq. eauto.
    + intros (k & Hk & Heq). exists k. split; [exact Hk |]. apply String.eqb_eq, Heq.
  - split; [discriminate | intros (k & [] & _)].
Qed.

(** What the four criteria of [matchesFilters] are. *)
Lemma matchesFilters_spec (card : Card) (filters : DeckUtils.CardFilters) :
  DeckUtils.matchesFilters card filters = true <->
  (default [] (DeckUtils.filter_colors filters) = []
   \/ In (color card) (default [] (DeckUtils.filter_colors filters)))
  /\ (default [] (DeckUtils.filter_costs filters) = []
      \/ In (default (-1) (cost card)) (default [] (DeckUtils.filter_costs filters)))
  /\ (default [] (DeckUtils.filter_types filters) = []
      \/ In (DeckUtils.resolveCardType card) (default [] (DeckUtils.filter_types filters)))
  /\ (default false (DeckUtils.evasiveOnly filters) = false
      \/ exists k, In k (default [] (keywordAbilities card))
                   /\ JsMore.toLowerCase k = "evasive"%string).
Proof.
  unfold DeckUtils.matchesFilters. cbv zeta.
  rewrite <- (criterion_spec _ _ _ (includes_string_In _ (color card))).
  rewrite <- (criterion_spec _ _ _ (includes_number_In _ (default (-1) (cost card)))).
  rewrite <- (criterion_spec _ _ _ (includes_string_In _ (DeckUtils.resolveCardType card))).
  replace (match cost card with Some n => n | None => -1 end) with (default (-1) (cost card))
    by (destruct (cost card); reflexivity).
  destruct (_ && negb (JsMore.includes_string _ (color card))); [intuition discriminate |].
  destruct (_ && negb (JsMore.includes_number _ _)); [intuition discriminate |].
  destruct (_ && negb (JsMore.includes_string _ _)); [intuition discriminate |].
  pose proof (hasKeyword_spec card "Evasive") as Hk.
  change (JsMore.toLowerCase "Evasive") with "evasive"%string in Hk.
  destruct (default false (DeckUtils.evasiveOnly filters)); cbn [andb].
  - destruct (DeckUtils.hasKeyword card "Evasive"); cbn [negb].
    + split; [| reflexivity]. intros _. repeat split; try reflexivity.
      right. apply Hk. reflexivity.
    + split; [discriminate |]. intros (_ & _ & _ & [H | H]); [discriminate |].
      apply Hk in H. discriminate.
  - split; [| reflexivity]. intros _. repeat split; try reflexivity. left. reflexivity.
Qed.

(** X14.  [filterCards] keeps, in their order, exactly the cards that meet
    every criterion that is set: the color is one of the colors, the cost
    (-1 for a card without one) is one of the costs, the resolved type is
    one of the types, and with [evasiveOnly] some keyword of the card reads
    evasive in any letter case.  A criterion that is left out or empty
    excludes nothing, so that no filters keep every card; and filtering
    what is filtered changes nothing. *)
Theorem filterCards_keeps_the_matching_cards (cards : list Card)
    (filters : DeckUtils.CardFilters) :
  DeckUtils.filterCards cards filters `sublist_of` cards
  /\ (forall card,
        In card (DeckUtils.filterCards cards filters) <->
        In card cards
        /\ (default [] (DeckUtils.filter_colors filters) = []
            \/ In (color card) (default [] (DeckUtils.filter_colors filters)))
        /\ (default [] (DeckUtils.filter_costs filters) = []
            \/ In (default (-1) (cost card)) (default [] (DeckUtils.filter_costs filters)))
        /\ (default [] (DeckUtils.filter_types filters) = []
            \/ In (DeckUtils.resolveCardType card)
                 (default [] (DeckUtils.filter_types filters)))
        /\ (default false (DeckUtils.evasiveOnly filters) = false
            \/ exists k, In k (default [] (keywordAbilities card))
                         /\ JsMore.toLowerCase k = "evasive"%string))
  /\ DeckUtils.filterCards cards DeckUtils.no_filters = cards
  /\ DeckUtils.filterCards (DeckUtils.filterCards cards filters) filters
     = DeckUtils.filterCards cards filters.
Proof.
  unfold DeckUtils.filterCards. split; [| split; [| split]].
  - induction cards as [| c cards IH]; [constructor |]. cbn.
    destruct (DeckUtils.matchesFilters c filters); [apply sublist_skip | apply sublist_cons];
      exact IH.
  - intros card. rewrite filter_In, matchesFilters_spec. reflexivity.
  - induction cards as [| c cards IH]; [reflexivity |]. cbn. rewrite IH. reflexivity.
  - induction cards as [| c cards IH]; [reflexivity |]. cbn.
    destruct (DeckUtils.matchesFilters c filters) eqn:Hc; [| exact IH].
    cbn. rewrite Hc, IH. reflexivity.
Qed.

Arguments DeckUtils.MAX_SAFE_INTEGER : simpl never.

Section SortCardsFacts.
Import DeckUtils.

Variable localeCompare : string -> string -> Z.
Hypothesis localeCompare_consistent : consistent localeCompare.

Lemma localeCompare_total (a b : string) : localeCompare a b > 0 -> localeCompare b a <= 0.
Proof.
  destruct localeCompare_consistent as [Hanti _]. intros H.
  pose proof (proj2 (Hanti b a) H). lia.
Qed.

Lemma localeCompare_zero (a b : string) : localeCompare a b = 0 -> localeCompare b a = 0.
Proof.
  destruct localeCompare_consistent as [Hanti _]. intros H.
  pose proof (Hanti a b) as H1. pose proof (Hanti b a) as H2. lia.
Qed.

Lemma localeCompare_strict (a b c : string) :
  localeCompare a b <= 0 -> localeCompare b c <= 0 ->
  localeCompare a c = 0 -> localeCompare a b = 0 /\ localeCompare b c = 0.
Proof.
  destruct localeCompare_consistent as [Hanti Htrans]. intros Hab Hbc Hac.
  apply localeCompare_zero in Hac.
  assert (Hca : localeCompare c a <= 0) by lia.
  pose proof (Htrans _ _ _ Hbc Hca) as Hba.
  pose proof (Htrans _ _ _ Hca Hab) as Hcb.
  pose proof (Hanti a b). pose proof (Hanti b c). lia.
Qed.

Lemma getSortComparator_order (sortOption : SortOption) (a b : Card) :
  getSortComparator localeCompare sortOption a b <= 0
  <-> sort_order localeCompare sortOption a b.
Proof.
  destruct sortOption; cbn [getSortComparator sort_order];
    unfold compare_color, compare_cost_asc, compare_cost_desc, compare_name,
      by_cost_then_name; cbv zeta.
  - destruct (Z.eqb_spec (getCost a - getCost b) 0); cbn [negb]; lia.
  - destruct (Z.eqb_spec (getCost a - getCost b) 0); cbn [negb]; lia.
  - destruct (Z.eqb_spec (getCost b - getCost a) 0); cbn [negb]; lia.
  - reflexivity.
  - destruct (Z.eqb_spec (localeCompare (color a) (color b)) 0); cbn [negb]; [| lia].
    destruct (Z.eqb_spec (getCost a - getCost b) 0); cbn [negb]; lia.
Qed.

Lemma getSortComparator_total (sortOption : SortOption) (a b : Card) :
  getSortComparator localeCompare sortOption a b > 0 ->
  getSortComparator localeCompare sortOption b a <= 0.
Proof.
  pose proof (localeCompare_total (fullName a) (fullName b)) as Hname.
  pose proof (localeCompare_total (color a) (color b)) as Hcolor.
  pose proof (localeCompare_zero (color a) (color b)) as Hzero.
  destruct localeCompare_consistent as [Hanti _].
  pose proof (Hanti (color b) (color a)) as Hc.
  destruct sortOption; cbn [getSortComparator];
    unfold compare_color, compare_cost_asc, compare_cost_desc, compare_name; cbv zeta;
    repeat match goal with |- context [negb (?x =? 0)] =>
      destruct (Z.eqb_spec x 0); cbn [negb] end; lia.
Qed.

Lemma getSortComparator_trans (sortOption : SortOption) (a b c : Card) :
  getSortComparator localeCompare sortOption a b <= 0 ->
  getSortComparator localeCompare sortOption b c <= 0 ->
  getSortComparator localeCompare sortOption a c <= 0.
Proof.
  rewrite !getSortComparator_order.
  destruct localeCompare_consistent as [Hanti Htrans].
  pose proof (Htrans (fullName a) (fullName b) (fullName c)) as Hname.
  pose proof (Htrans (color a) (color b) (color c)) as Hcolor.
  pose proof (localeCompare_strict (color a) (color b) (color c)) as Hstrict.
  destruct sortOption; cbn [sort_order]; unfold by_cost_then_name; lia.
Qed.

End SortCardsFacts.

Lemma code_unit_compare_consistent : consistent code_unit_compare.
Proof.
  split; [| apply code_unit_compare_trans].
  intros a b. unfold code_unit_compare. rewrite (String.compare_antisym a b).
  destruct (String.compare b a); simpl; lia.
Qed.

(** X15.  Under a collation that is a consistent order, [sortCards]
    returns the same cards, rearranged into the order of the sort option:
    by cost with the cards without a cost last and then by name (the
    default and cost-asc), by cost descending and then by name, by name, or
    by color and then by cost and name. *)
Theorem sortCards_sorts_in_the_chosen_order (localeCompare : string -> string -> Z)
    (cards : list Card) (sortOption : DeckUtils.SortOption) :
  consistent localeCompare ->
  DeckUtils.sortCards localeCompare cards sortOption ≡ₚ cards
  /\ StronglySorted (sort_order localeCompare sortOption)
       (DeckUtils.sortCards localeCompare cards sortOption).
Proof.
  intros Hlc. unfold DeckUtils.sortCards. split; [apply sort_perm |].
  eapply StronglySorted_impl;
    [| apply (sort_sorted (DeckUtils.getSortComparator localeCompare sortOption));
       [apply getSortComparator_total, Hlc | apply getSortComparator_trans, Hlc]].
  intros a b. apply getSortComparator_order.
Qed.

Lemma sortCards_sorts_in_the_chosen_order_witness :
  DeckUtils.sortCards code_unit_compare demo_pool DeckUtils.ByColor ≡ₚ demo_pool
  /\ StronglySorted (sort_order code_unit_compare DeckUtils.ByColor)
       (DeckUtils.sortCards code_unit_compare demo_pool DeckUtils.ByColor).
Proof.
  apply (sortCards_sorts_in_the_chosen_order code_unit_compare demo_pool DeckUtils.ByColor).
  exact code_unit_compare_consistent.
Defined.

Section GroupFacts.
Import DeckUtils.

Variable localeCompare : string -> string -> Z.
Variable sortOption : SortOption.
Implicit Types (b : Buckets) (t k : string) (cards : list Card).

Lemma bucket_get_push t t' (c : Card) b :
  bucket_get t (bucket_push t' c b) =
  if String.eqb t' t then Some (default [] (bucket_get t b) ++ [c]) else bucket_get t b.
Proof.
  induction b as [| [k cs] rest IH]; cbn [bucket_push bucket_get].
  - destruct (String.eqb t' t); reflexivity.
  - destruct (String.eqb_spec k t') as [-> | Hk]; cbn [bucket_get].
    + destruct (String.eqb t' t); reflexivity.
    + rewrite IH. destruct (String.eqb_spec k t) as [-> | Hkt]; [| reflexivity].
      destruct (String.eqb_spec t' t); [congruence | reflexivity].
Qed.

Lemma fill_buckets_snoc cards (c : Card) :
  fill_buckets (cards ++ [c]) = bucket_push (resolveCardType c) c (fill_buckets cards).
Proof. unfold fill_buckets. rewrite fold_left_app. reflexivity. Qed.

(** The bucket of a type holds the cards of the type, in their order. *)
Lemma bucket_get_fill t cards :
  bucket_get t (fill_buckets cards) =
  match List.filter (of_type t) cards with
  | [] => None
  | cs => Some cs
  end.
Proof.
  induction cards as [| c cards IH] using rev_ind; [reflexivity |].
  rewrite fill_buckets_snoc, bucket_get_push, IH, List.filter_app. cbn [List.filter].
  change (of_type t c) with (String.eqb (resolveCardType c) t).
  destruct (String.eqb (resolveCardType c) t).
  - destruct (List.filter (of_type t) cards); reflexivity.
  - rewrite app_nil_r. reflexivity.
Qed.

Lemma bucket_push_keys t (c : Card) b k :
  In k (map fst (bucket_push t c b)) <-> k = t \/ In k (map fst b).
Proof.
  induction b as [| [k0 cs] rest IH]; cbn [bucket_push].
  - simpl. intuition.
  - destruct (String.eqb_spec k0 t) as [-> | Hk]; cbn [map fst In].
    + intuition.
    + rewrite IH. intuition.
Qed.

Lemma bucket_push_NoDup t (c : Card) b :
  List.NoDup (map fst b) -> List.NoDup (map fst (bucket_push t c b)).
Proof.
  induction b as [| [k0 cs] rest IH]; cbn [bucket_push]; intros Hnd.
  - simpl. constructor; [intros [] | constructor].
  - cbn [map fst] in Hnd. apply List.NoDup_cons_iff in Hnd as [Hk0 Hnd].
    destruct (String.eqb_spec k0 t) as [-> | Hk]; cbn [map fst].
    + constructor; assumption.
    + constructor; [| apply IH, Hnd].
      rewrite bucket_push_keys. intros [-> | Hin]; [congruence | contradiction].
Qed.

Lemma fill_buckets_NoDup cards : List.NoDup (map fst (fill_buckets cards)).
Proof.
  induction cards as [| c cards IH] using rev_ind; [constructor |].
  rewrite fill_buckets_snoc. apply bucket_push_NoDup, IH.
Qed.

Lemma bucket_get_keys t b : bucket_get t b <> None <-> In t (map fst b).
Proof.
  induction b as [| [k cs] rest IH]; cbn [bucket_get map fst In]; [intuition |].
  destruct (String.eqb_spec k t) as [-> | Hk].
  - split; [auto | discriminate].
  - rewrite IH. intuition.
Qed.

Lemma bucket_delete_keys t b k :
  List.NoDup (map fst b) ->
  In k (map fst (bucket_delete t b)) <-> k <> t /\ In k (map fst b).
Proof.
  induction b as [| [k0 cs] rest IH]; cbn [bucket_delete map fst]; intros Hnd.
  - simpl. intuition.
  - apply List.NoDup_cons_iff in Hnd as [Hk0 Hnd].
    destruct (String.eqb_spec k0 t) as [-> | Hk]; cbn [map fst In].
    + split; [intros Hin; split; [intros ->; contradiction | auto] |].
      intros [Hne [-> | Hin]]; [contradiction | exact Hin].
    + rewrite (IH Hnd). split; [intros [-> | [? ?]]; auto | intuition].
Qed.

Lemma bucket_delete_NoDup t b :
  List.NoDup (map fst b) -> List.NoDup (map fst (bucket_delete t b)).
Proof.
  induction b as [| [k0 cs] rest IH]; cbn [bucket_delete map fst]; intros Hnd;
    [constructor |].
  pose proof Hnd as Hnd0. apply List.NoDup_cons_iff in Hnd as [Hk0 Hnd].
  destruct (String.eqb k0 t); [exact Hnd |].
  cbn [map fst]. constructor; [| apply IH, Hnd].
  rewrite (bucket_delete_keys _ _ _ Hnd). tauto.
Qed.

Lemma bucket_get_delete t t' b :
  List.NoDup (map fst b) ->
  bucket_get t (bucket_delete t' b) = if String.eqb t' t then None else bucket_get t b.
Proof.
  induction b as [| [k0 cs] rest IH]; cbn [bucket_delete bucket_get map fst]; intros Hnd.
  - destruct (String.eqb t' t); reflexivity.
  - apply List.NoDup_cons_iff in Hnd as [Hk0 Hnd].
    destruct (String.eqb_spec k0 t') as [-> | Hk].
    + destruct (String.eqb_spec t' t) as [-> | Hne]; [| reflexivity].
      destruct (bucket_get t rest) eqn:E; [| reflexivity].
      exfalso. apply Hk0, bucket_get_keys. congruence.
    + cbn [bucket_get]. rewrite (IH Hnd).
      destruct (String.eqb_spec k0 t) as [-> | Hkt]; [| reflexivity].
      destruct (String.eqb_spec t' t); [congruence | reflexivity].
Qed.

Lemma bucket_delete_absent t b : bucket_get t b = None -> bucket_delete t b = b.
Proof.
  induction b as [| [k cs] rest IH]; [reflexivity |]. cbn [bucket_get bucket_delete].
  destruct (String.eqb k t); [discriminate |]. intros E. f_equal. apply IH, E.
Qed.

Lemma flat_map_ext_on {A B} (f g : A -> list B) (l : list A) :
  (forall x, In x l -> f x = g x) -> flat_map f l = flat_map g l.
Proof.
  induction l as [| x l IH]; intros H; [reflexivity |].
  cbn [flat_map]. rewrite (H x) by (left; reflexivity).
  f_equal. apply IH. intros y Hy. apply H. right. exact Hy.
Qed.

Lemma take_primary_run (ts : list string) :
  forall (acc : list Group) b,
    List.NoDup ts -> List.NoDup (map fst b) ->
    let out := fold_left (take_primary localeCompare sortOption) ts (acc, b) in
    fst out = acc ++ flat_map (bucket_groups localeCompare sortOption b) ts
    /\ List.NoDup (map fst (snd out))
    /\ (forall k, In k (map fst (snd out)) <-> ~ In k ts /\ In k (map fst b))
    /\ (forall k, ~ In k ts -> bucket_get k (snd out) = bucket_get k b).
Proof.
  induction ts as [| t ts IH]; intros acc b Hts Hb; cbn [fold_left flat_map].
  - rewrite app_nil_r. cbn. intuition.
  - apply List.NoDup_cons_iff in Hts as [Ht Hts].
    assert (Hstep : take_primary localeCompare sortOption (acc, b) t
                    = (acc ++ bucket_groups localeCompare sortOption b t, bucket_delete t b)).
    { unfold take_primary, bucket_groups. cbn [fst snd].
      destruct (bucket_get t b) eqn:E; [reflexivity |]. rewrite app_nil_r. f_equal.
      symmetry. apply bucket_delete_absent, E. }
    rewrite Hstep.
    destruct (IH (acc ++ bucket_groups localeCompare sortOption b t) (bucket_delete t b)
                Hts (bucket_delete_NoDup t b Hb)) as (H1 & H2 & H3 & H4).
    cbv zeta. split; [| split; [exact H2 | split]].
    + rewrite H1, <- app_assoc. f_equal. f_equal.
      apply flat_map_ext_on. intros k Hk. unfold bucket_groups.
      rewrite (bucket_get_delete _ _ _ Hb).
      destruct (String.eqb_spec t k); [subst; contradiction | reflexivity].
    + intros k. rewrite H3, (bucket_delete_keys _ _ _ Hb). cbn [In]. intuition.
    + intros k Hk. rewrite H4 by (cbn [In] in Hk; tauto).
      rewrite (bucket_get_delete _ _ _ Hb).
      destruct (String.eqb_spec t k); [subst; exfalso; apply Hk; left; reflexivity |].
      reflexivity.
Qed.

Lemma take_remaining_run b (ts : list string) :
  forall acc : list Group,
    fold_left (take_remaining localeCompare sortOption b) ts acc
    = acc ++ flat_map (bucket_groups localeCompare sortOption b) ts.
Proof.
  induction ts as [| t ts IH]; intros acc; cbn [fold_left flat_map].
  - rewrite app_nil_r. reflexivity.
  - rewrite IH, app_assoc. f_equal. unfold take_remaining, bucket_groups.
    destruct (bucket_get t b); [reflexivity | rewrite app_nil_r; reflexivity].
Qed.

Lemma bucket_group_fill cards t :
  bucket_groups localeCompare sortOption (fill_buckets cards) t =
  if existsb (of_type t) cards then [type_group localeCompare cards sortOption t] else [].
Proof.
  unfold bucket_groups, type_group. rewrite bucket_get_fill.
  induction cards as [| c cards IH]; [reflexivity |].
  cbn [List.filter existsb]. destruct (of_type t c); [reflexivity |]. exact IH.
Qed.

Lemma fill_buckets_keys cards t :
  In t (map fst (fill_buckets cards)) <-> exists c, In c cards /\ resolveCardType c = t.
Proof.
  rewrite <- bucket_get_keys, bucket_get_fill. split.
  - destruct (List.filter (of_type t) cards) as [| c cs] eqn:E; [congruence |]. intros _.
    assert (Hc : In c (List.filter (of_type t) cards)) by (rewrite E; left; reflexivity).
    apply filter_In in Hc as [Hc Ht]. exists c. split; [exact Hc |].
    apply String.eqb_eq, Ht.
  - intros (c & Hc & Ht).
    assert (Hin : In c (List.filter (of_type t) cards)).
    { apply filter_In. split; [exact Hc |]. apply String.eqb_eq, Ht. }
    destruct (List.filter (of_type t) cards); [destruct Hin | discriminate].
Qed.

(** The groups are the groups of the primary types that occur, then those
    of the other types in the sorted order of their names. *)
Lemma groupCardsByType_run cards :
  exists others,
    groupCardsByType localeCompare cards sortOption
    = map (type_group localeCompare cards sortOption) (primary_types cards ++ others)
    /\ List.NoDup others
    /\ (forall t, In t others <->
          ~ In t TYPE_ORDER /\ exists c, In c cards /\ resolveCardType c = t)
    /\ exists keys, others = Js.sort localeCompare keys.
Proof.
  unfold groupCardsByType. cbv zeta.
  destruct (take_primary_run TYPE_ORDER [] (fill_buckets cards)) as (H1 & H2 & H3 & H4).
  { unfold TYPE_ORDER. repeat constructor; simpl; intuition discriminate. }
  { apply fill_buckets_NoDup. }
  set (out := fold_left (take_primary localeCompare sortOption) TYPE_ORDER
                ([], fill_buckets cards)) in *.
  set (others := Js.sort localeCompare (map fst (snd out))).
  assert (Hperm : others ≡ₚ map fst (snd out)) by apply sort_perm.
  assert (Hin : forall t, In t others <->
            ~ In t TYPE_ORDER /\ exists c, In c cards /\ resolveCardType c = t).
  { intros t. rewrite <- fill_buckets_keys, <- H3, <- !list_elem_of_In, Hperm.
    reflexivity. }
  exists others. split; [| split; [| split; [exact Hin | eexists; reflexivity]]].
  - rewrite take_remaining_run, H1, map_app. cbn [app]. f_equal.
    + unfold primary_types. generalize TYPE_ORDER. intros ts.
      induction ts as [| t ts IH]; [reflexivity |].
      cbn [flat_map List.filter]. rewrite bucket_group_fill, IH.
      destruct (existsb (of_type t) cards); reflexivity.
    + assert (Hall : forall t, In t others ->
                bucket_groups localeCompare sortOption (snd out) t
                = [type_group localeCompare cards sortOption t]).
      { intros t Ht. apply Hin in Ht as [Hprim Hocc].
        unfold bucket_groups. rewrite (H4 t Hprim).
        fold (bucket_groups localeCompare sortOption (fill_buckets cards) t).
        rewrite bucket_group_fill.
        destruct Hocc as (c & Hc & Htype).
        replace (existsb (of_type t) cards) with true; [reflexivity |].
        symmetry. apply existsb_exists. exists c. split; [exact Hc |].
        apply String.eqb_eq, Htype. }
      revert Hall. generalize others. intros l Hall.
      induction l as [| t l IH]; [reflexivity |].
      cbn [flat_map map]. rewrite (Hall t) by (left; reflexivity).
      cbn [app]. f_equal. apply IH. intros t' Ht'. apply Hall. right. exact Ht'.
  - apply NoDup_ListNoDup. rewrite Hperm. apply NoDup_ListNoDup. exact H2.
Qed.

End GroupFacts.

Lemma filter_of_type_cons (t : string) (c : Card) (cards : list Card) :
  List.filter (of_type t) (c :: cards) =
  if String.eqb (DeckUtils.resolveCardType c) t
  then c :: List.filter (of_type t) cards
  else List.filter (of_type t) cards.
Proof. reflexivity. Qed.

(** Cards sorted by type: every card falls under one type of a list of
    distinct types that holds the type of every card. *)
Lemma cards_by_type_Permutation (ts : list string) (cards : list Card) :
  List.NoDup ts -> (forall c, In c cards -> In (DeckUtils.resolveCardType c) ts) ->
  concat (map (fun t => List.filter (of_type t) cards) ts) ≡ₚ cards.
Proof.
  intros Hts. induction cards as [| c cards IH]; intros Hall.
  - clear. induction ts as [| t ts IHts]; [reflexivity | exact IHts].
  - transitivity (c :: concat (map (fun t => List.filter (of_type t) cards) ts));
      [| apply perm_skip, IH; intros c' Hc'; apply Hall; right; exact Hc'].
    assert (Hc : In (DeckUtils.resolveCardType c) ts) by (apply Hall; left; reflexivity).
    clear IH Hall.
    assert (Hout : forall l, ~ In (DeckUtils.resolveCardType c) l ->
              concat (map (fun t => List.filter (of_type t) (c :: cards)) l)
              = concat (map (fun t => List.filter (of_type t) cards) l)).
    { induction l as [| t l IHl]; intros Hl; [reflexivity |].
      cbn [map concat]. rewrite (filter_of_type_cons t c cards).
      destruct (String.eqb_spec (DeckUtils.resolveCardType c) t) as [E | E].
      - exfalso. apply Hl. left. symmetry. exact E.
      - rewrite IHl; [reflexivity |]. intros H. apply Hl. right. exact H. }
    induction ts as [| t ts IHts]; [destruct Hc |].
    apply List.NoDup_cons_iff in Hts as [Ht Hts].
    cbn [map concat]. rewrite (filter_of_type_cons t c cards).
    destruct (String.eqb_spec (DeckUtils.resolveCardType c) t) as [E | E].
    + rewrite Hout by (rewrite E; exact Ht). reflexivity.
    + destruct Hc as [Hc | Hc]; [congruence |].
      rewrite (IHts Hts Hc). symmetry. apply Permutation_middle.
Qed.

Lemma concat_Permutation {A} (l l' : list (list A)) :
  Forall2 (fun x y => x ≡ₚ y) l l' -> concat l ≡ₚ concat l'.
Proof.
  induction 1 as [| x y l l' Hxy _ IH]; [reflexivity |].
  cbn [concat]. rewrite Hxy, IH. reflexivity.
Qed.

(** X16.  [groupCardsByType] sorts the cards by type.  There is one group
    for every resolved type that occurs and none for a type that does not;
    the group of a type holds the cards of that type, sorted with the sort
    option; the groups of Character, Action and Song come first and in this
    order, and those of the other types follow in the sorted order of their
    names.  Together the groups hold the cards given, each once. *)
Theorem groupCardsByType_partitions_the_cards (localeCompare : string -> string -> Z)
    (cards : list Card) (sortOption : DeckUtils.SortOption) :
  consistent localeCompare ->
  exists others,
    DeckUtils.groupCardsByType localeCompare cards sortOption
    = map (type_group localeCompare cards sortOption) (primary_types cards ++ others)
    /\ List.NoDup (primary_types cards ++ others)
    /\ (forall t, In t (primary_types cards ++ others) <->
          exists c, In c cards /\ DeckUtils.resolveCardType c = t)
    /\ Forall (fun t => ~ In t DeckUtils.TYPE_ORDER) others
    /\ StronglySorted (fun a b => localeCompare a b <= 0) others
    /\ concat (map DeckUtils.group_cards
                 (DeckUtils.groupCardsByType localeCompare cards sortOption)) ≡ₚ cards.
Proof.
  intros Hlc.
  destruct (groupCardsByType_run localeCompare sortOption cards)
    as (others & Hrun & Hnd & Hin & keys & Hkeys).
  assert (Hprim : forall t, In t (primary_types cards) <->
            In t DeckUtils.TYPE_ORDER
            /\ exists c, In c cards /\ DeckUtils.resolveCardType c = t).
  { intros t. unfold primary_types. rewrite filter_In, existsb_exists.
    split; intros [Ht (c & Hc & Hct)]; (split; [exact Ht |]); exists c;
      (split; [exact Hc |]); apply String.eqb_eq, Hct. }
  assert (Hall : forall t, In t (primary_types cards ++ others) <->
            exists c, In c cards /\ DeckUtils.resolveCardType c = t).
  { intros t. rewrite in_app_iff, Hprim, Hin.
    destruct (in_dec string_dec t DeckUtils.TYPE_ORDER); tauto. }
  assert (Hnd2 : List.NoDup (primary_types cards ++ others)).
  { apply NoDup_ListNoDup, NoDup_app. split; [| split].
    - apply NoDup_ListNoDup. unfold primary_types. apply List.NoDup_filter.
      unfold DeckUtils.TYPE_ORDER. repeat constructor; simpl; intuition discriminate.
    - intros t Ht Ht'. apply list_elem_of_In in Ht, Ht'.
      apply Hprim in Ht. apply Hin in Ht'. tauto.
    - apply NoDup_ListNoDup, Hnd. }
  exists others. split; [exact Hrun |]. split; [exact Hnd2 |]. split; [exact Hall |].
  split; [| split].
  - apply List.Forall_forall. intros t Ht. apply Hin in Ht. tauto.
  - rewrite Hkeys. destruct Hlc as [Hanti Htrans].
    apply sort_sorted; [| exact Htrans].
    intros a b Hab. pose proof (proj2 (Hanti b a) Hab). lia.
  - rewrite Hrun, map_map. cbn [type_group DeckUtils.group_cards].
    etransitivity; [| apply (cards_by_type_Permutation _ cards Hnd2)].
    + apply concat_Permutation. generalize (primary_types cards ++ others).
      intros l. induction l as [| t l IH]; [constructor |].
      constructor; [apply sort_perm | exact IH].
    + intros c Hc. apply Hall. eauto.
Qed.

Lemma groupCardsByType_partitions_the_cards_witness :
  exists others,
    DeckUtils.groupCardsByType code_unit_compare demo_pool DeckUtils.CostDesc
    = map (type_group code_unit_compare demo_pool DeckUtils.CostDesc)
        (primary_types demo_pool ++ others)
    /\ List.NoDup (primary_types demo_pool ++ others)
    /\ (forall t, In t (primary_types demo_pool ++ others) <->
          exists c, In c demo_pool /\ DeckUtils.resolveCardType c = t)
    /\ Forall (fun t => ~ In t DeckUtils.TYPE_ORDER) others
    /\ StronglySorted (fun a b => code_unit_compare a b <= 0) others
    /\ concat (map DeckUtils.group_cards
                 (DeckUtils.groupCardsByType code_unit_compare demo_pool DeckUtils.CostDesc))
       ≡ₚ demo_pool.
Proof.
  apply (groupCardsByType_partitions_the_cards code_unit_compare demo_pool DeckUtils.CostDesc).
  exact code_unit_compare_consistent.
Defined.

(** X17.  [buildDisplayGroups] returns the filtered cards, and groups
    that together hold exactly these: no card that fails the filters is in
    a group, and every card that meets them is in the group of its type. *)
Theorem buildDisplayGroups_groups_the_filtered_cards (localeCompare : string -> string -> Z)
    (cards : list Card) (filters : DeckUtils.CardFilters)
    (sortOption : DeckUtils.SortOption) :
  let out := DeckUtils.buildDisplayGroups localeCompare cards filters sortOption in
  DeckUtils.filteredCards out = DeckUtils.filterCards cards filters
  /\ concat (map DeckUtils.group_cards (DeckUtils.groups out))
     ≡ₚ DeckUtils.filterCards cards filters
  /\ (forall g card,
        In g (DeckUtils.groups out) -> In card (DeckUtils.group_cards g) ->
        In card cards /\ DeckUtils.matchesFilters card filters = true
        /\ DeckUtils.resolveCardType card = DeckUtils.group_type g)
  /\ (forall card,
        In card cards -> DeckUtils.matchesFilters card filters = true ->
        exists g, In g (DeckUtils.groups out) /\ In card (DeckUtils.group_cards g)
                  /\ DeckUtils.group_type g = DeckUtils.resolveCardType card).
Proof.
  cbv zeta. unfold DeckUtils.buildDisplayGroups.
  cbn [DeckUtils.filteredCards DeckUtils.groups].
  set (filtered := DeckUtils.filterCards cards filters).
  destruct (groupCardsByType_run localeCompare sortOption filtered)
    as (others & Hrun & Hnd & Hin & _).
  assert (Hmember : forall g card,
            In g (DeckUtils.groupCardsByType localeCompare filtered sortOption) ->
            (In card (DeckUtils.group_cards g) <->
             In card filtered /\ DeckUtils.resolveCardType card = DeckUtils.group_type g)).
  { intros g card Hg. rewrite Hrun in Hg. apply in_map_iff in Hg as (t & <- & _).
    cbn [type_group DeckUtils.group_cards DeckUtils.group_type].
    unfold DeckUtils.sortCards.
    rewrite <- !list_elem_of_In, sort_perm, !list_elem_of_In, filter_In.
    unfold of_type. rewrite String.eqb_eq. reflexivity. }
  assert (Hfiltered : forall card,
            In card filtered <-> In card cards /\ DeckUtils.matchesFilters card filters = true).
  { intros card. unfold filtered, DeckUtils.filterCards. apply filter_In. }
  split; [reflexivity |]. split; [| split].
  - rewrite Hrun, map_map. cbn [type_group DeckUtils.group_cards].
    assert (Hprim : forall t, In t (primary_types filtered) <->
              In t DeckUtils.TYPE_ORDER
              /\ exists c, In c filtered /\ DeckUtils.resolveCardType c = t).
    { intros t. unfold primary_types. rewrite filter_In, existsb_exists.
      split; intros [Ht (c & Hc & Hct)]; (split; [exact Ht |]); exists c;
        (split; [exact Hc |]); apply String.eqb_eq, Hct. }
    etransitivity; [| apply (cards_by_type_Permutation (primary_types filtered ++ others))].
    + apply concat_Permutation. generalize (primary_types filtered ++ others).
      intros l. induction l as [| t l IH]; [constructor |].
      constructor; [apply sort_perm | exact IH].
    + apply NoDup_ListNoDup, NoDup_app. split; [| split].
      * apply NoDup_ListNoDup. unfold primary_types. apply List.NoDup_filter.
        unfold DeckUtils.TYPE_ORDER. repeat constructor; simpl; intuition discriminate.
      * intros t Ht Ht'. apply list_elem_of_In in Ht, Ht'.
        apply Hprim in Ht. apply Hin in Ht'. tauto.
      * apply NoDup_ListNoDup, Hnd.
    + intros c Hc. rewrite in_app_iff, Hprim, Hin.
      destruct (in_dec string_dec (DeckUtils.resolveCardType c) DeckUtils.TYPE_ORDER);
        [left | right]; eauto.
  - intros g card Hg Hcard. apply (Hmember g card Hg) in Hcard as [Hc Ht].
    apply Hfiltered in Hc. tauto.
  - intros card Hc Hm.
    assert (Hf : In card filtered) by (apply Hfiltered; auto).
    assert (Ht : In (DeckUtils.resolveCardType card) (primary_types filtered ++ others)).
    { rewrite in_app_iff, Hin. unfold primary_types. rewrite filter_In, existsb_exists.
      destruct (in_dec string_dec (DeckUtils.resolveCardType card) DeckUtils.TYPE_ORDER).
      - left. split; [assumption |]. exists card. split; [exact Hf |].
        apply String.eqb_refl.
      - right. eauto. }
    exists (type_group localeCompare filtered sortOption (DeckUtils.resolveCardType card)).
    assert (Hg : In (type_group localeCompare filtered sortOption
                       (DeckUtils.resolveCardType card))
                   (DeckUtils.groupCardsByType localeCompare filtered sortOption)).
    { rewrite Hrun. apply in_map, Ht. }
    split; [exact Hg |]. split; [| reflexivity].
    apply (Hmember _ card Hg). split; [exact Hf | reflexivity].
Qed.

(** The assertions of the unit tests of the repository
    (utest_deck_utils.mjs) hold of the definitions above. *)
Example deck_utils_unit_tests :
  map DeckUtils.resolveCardType sampleCards
    = ["Character"; "Action"; "Song"; "Character"; "Item"]%string
  /\ DeckUtils.resolveCardType
       (mkCard (IdNumber 6) "Nameless" "Steel" None (Some (mkImages None)) None None None None)
     = "Other"%string
  /\ map (fun c => DeckUtils.hasKeyword c "eVaSiVe") sampleCards
     = [false; false; false; true; false]
  /\ map card_id (DeckUtils.filterCards sampleCards
                    (DeckUtils.mkCardFilters (Some ["Ruby"%string]) None None None))
     = [IdNumber 2]
  /\ map card_id (DeckUtils.filterCards sampleCards
                    (DeckUtils.mkCardFilters None (Some [2; 4]) None None))
     = [IdNumber 1; IdNumber 4]
  /\ map card_id (DeckUtils.filterCards sampleCards
                    (DeckUtils.mkCardFilters None None (Some ["Song"%string]) None))
     = [IdNumber 3]
  /\ map card_id (DeckUtils.filterCards sampleCards
                    (DeckUtils.mkCardFilters None None None (Some true)))
     = [IdNumber 4]
  /\ map (fun g => (DeckUtils.group_type g, map card_id (DeckUtils.group_cards g)))
       (DeckUtils.groupCardsByType code_unit_compare sampleCards DeckUtils.SortDefault)
     = [("Character", [IdNumber 1; IdNumber 4]); ("Action", [IdNumber 2]);
        ("Song", [IdNumber 3]); ("Item", [IdNumber 5])]%string
  /\ map (fun g => map cost (DeckUtils.group_cards g))
       (DeckUtils.groups
          (DeckUtils.buildDisplayGroups code_unit_compare sampleCards
             (DeckUtils.mkCardFilters (Some ["Amber"; "Amethyst"]%string) None None None)
             DeckUtils.CostDesc))
     = [[Some 4; Some 2]]
  /\ head (map fullName (DeckUtils.sortCards code_unit_compare sampleCards DeckUtils.ByName))
     = Some "Anna - Friendly Face"%string.
Proof. vm_compute. repeat split; reflexivity. Qed.

(** ** components/SavedDecks.tsx: the deck text *)

Section ParseFacts.
Import SavedDecks.

Lemma positive_count_Some (c : option Z) (n : Z) : positive_count c = Some n -> 1 <= n.
Proof.
  unfold positive_count. destruct c as [m |]; [| discriminate].
  destruct (Z.gtb_spec m 0); [| discriminate]. intros [= <-]. lia.
Qed.

Lemma is_empty_false (s : string) : is_empty s = false -> s <> EmptyString.
Proof. destruct s; [discriminate | discriminate]. Qed.

Lemma parse_without_color_ok (parts : list string) :
  Forall entry_ok (parse_without_color parts) /\ (length (parse_without_color parts) <= 1)%nat.
Proof.
  unfold parse_without_color. destruct (_ >=? 2); [| split; [constructor | simpl; lia]].
  destruct (positive_count _) as [n |] eqn:Hn; [| split; [constructor | simpl; lia]].
  destruct (is_empty _) eqn:Hname; [split; [constructor | simpl; lia] |].
  split; [| simpl; lia]. constructor; [| constructor].
  split; [eapply positive_count_Some, Hn |]. cbn.
  split; [apply is_empty_false, Hname |]. split; [apply trim_idempotent | exact I].
Qed.

Lemma parse_old_format_ok (line : string) :
  Forall entry_ok (parse_old_format line) /\ (length (parse_old_format line) <= 1)%nat.
Proof.
  unfold parse_old_format. cbv zeta.
  destruct (_ >=? 3); [| apply parse_without_color_ok].
  destruct (positive_count _) as [n |] eqn:Hn; [| split; [constructor | simpl; lia]].
  destruct (includes colors _) eqn:Hcol; [| apply parse_without_color_ok].
  destruct (is_empty _) eqn:Hname; [apply parse_without_color_ok |].
  split; [| simpl; lia]. constructor; [| constructor].
  split; [eapply positive_count_Some, Hn |]. cbn.
  split; [apply is_empty_false, Hname |]. split; [apply trim_idempotent |].
  unfold includes in Hcol. apply existsb_exists in Hcol as (c & Hc & Heq).
  apply String.eqb_eq in Heq. rewrite Heq. exact Hc.
Qed.

Lemma parse_line_ok (line : string) :
  Forall entry_ok (parse_line line) /\ (length (parse_line line) <= 1)%nat.
Proof.
  unfold parse_line. destruct (match_new_format line) as [[g1 g2] |];
    [| apply parse_old_format_ok].
  destruct (positive_count _) as [n |] eqn:Hn; [| apply parse_old_format_ok].
  destruct (is_empty _) eqn:Hname; [apply parse_old_format_ok |].
  split; [| simpl; lia]. constructor; [| constructor].
  split; [eapply positive_count_Some, Hn |]. cbn.
  split; [apply is_empty_false, Hname |]. split; [apply trim_idempotent | exact I].
Qed.

Lemma parse_lines_ok (lines : list string) :
  Forall entry_ok (concat (map parse_line lines))
  /\ (length (concat (map parse_line lines)) <= length lines)%nat.
Proof.
  induction lines as [| line lines [IH1 IH2]]; [split; [constructor | simpl; lia] |].
  destruct (parse_line_ok line) as [H1 H2]. cbn [map concat].
  split; [apply Forall_app; auto |]. rewrite length_app. simpl. lia.
Qed.

End ParseFacts.

(** X18.  Whatever the text, [parseDeckText] returns only well-formed
    entries: a count of at least 1, a name that is not empty and has no
    white space around it, and no color or one of the six colors.  Every
    line gives at most one entry. *)
Theorem parseDeckText_returns_well_formed_entries (text : string) :
  Forall entry_ok (SavedDecks.parseDeckText text)
  /\ (length (SavedDecks.parseDeckText text)
      <= length (Js.split Tally.newline (Js.trim text)))%nat.
Proof.
  unfold SavedDecks.parseDeckText. cbv zeta.
  set (lines := filter _ _).
  destruct (parse_lines_ok lines) as [H1 H2]. split; [exact H1 |].
  etransitivity; [exact H2 |]. unfold lines. apply length_filter.
Qed.

Section RoundTripFacts.
Import SavedDecks.

Lemma solid_trim (s : string) : solid s -> Js.trim s = s /\ is_empty (Js.trim s) = false.
Proof.
  intros [(c & rest & -> & Hc) Hend].
  assert (Htrim : Js.trim (String c rest) = String c rest).
  { unfold Js.trim. cbn [Js.trimStart]. rewrite Hc. exact Hend. }
  rewrite Htrim. split; reflexivity.
Qed.

Lemma solid_append (a b : string) :
  solid a -> solid b -> forall mid, solid (String.append a (String.append mid b)).
Proof.
  intros [(c & rest & -> & Hc) _] [(d & rest' & -> & Hd) Hend] mid. split.
  - rewrite append_cons. eauto.
  - rewrite <- append_assoc. rewrite trimEnd_append; rewrite Hend; [reflexivity | discriminate].
Qed.

Lemma plain_name_solid (s : string) :
  plain_name s = true -> solid s /\ no_line_terminator s = true.
Proof.
  unfold plain_name. intros H. apply andb_true_iff in H as [H Hnlt].
  apply andb_true_iff in H as [Hne Htrim]. apply String.eqb_eq in Htrim.
  split; [| exact Hnlt].
  pose proof (trim_head s) as Hhead. rewrite Htrim in Hhead.
  destruct s as [| c rest]; [discriminate |]. split; [eauto |].
  unfold Js.trim in Htrim. cbn [Js.trimStart] in Htrim. rewrite Hhead in Htrim. exact Htrim.
Qed.

Lemma tally_line_solid (n : Z) (name : string) :
  1 <= n -> plain_name name = true ->
  let line := String.append (Js.number_to_string n) (String.append " " name) in
  solid line /\ no_line_terminator line = true.
Proof.
  intros Hn Hname. destruct (plain_name_solid name Hname) as [Hsolid Hnlt].
  destruct (number_to_string_digits n Hn) as (c & ds & -> & Hdig & _).
  cbv zeta. split.
  - split.
    + rewrite append_cons. exists c. eexists. split; [reflexivity |].
      cbn [all_digits] in Hdig. apply andb_true_iff in Hdig as [Hc _].
      apply digit_not_whitespace, Hc.
    + destruct Hsolid as [(d & rest' & -> & Hd) Hend].
      rewrite <- append_assoc.
      rewrite trimEnd_append; rewrite Hend; [reflexivity | discriminate].
  - rewrite !no_line_terminator_append, Hnlt, (all_digits_no_line_terminator _ Hdig).
    reflexivity.
Qed.

(** The import reads the line of a tally entry as the entry. *)
Lemma tally_line_parse (n : Z) (name : string) :
  1 <= n -> plain_name name = true ->
  parse_line (String.append (Js.number_to_string n) (String.append " " name))
  = [mkParsedEntry n name None].
Proof.
  intros Hn Hname. destruct (plain_name_solid name Hname) as [Hsolid Hnlt].
  destruct (solid_trim name Hsolid) as [Htrim Hne].
  destruct Hsolid as [(c0 & rest & -> & Hc0) _].
  destruct (number_to_string_digits n Hn) as (c & ds & -> & Hdig & Hval).
  unfold parse_line, match_new_format.
  change (String.append " " (String c0 rest)) with (String " " (String c0 rest)).
  rewrite (match_digits_then_space (String c ds) EmptyString c0 rest Hdig);
    [| discriminate | exact Hc0 | exact Hnlt].
  rewrite append_nil_l, (parseInt_digits c ds Hdig), Hval.
  unfold positive_count. destruct (Z.gtb_spec n 0); [| lia].
  rewrite Htrim. reflexivity.
Qed.

Lemma split_line_then (a : string) :
  forall (cur s : string), no_line_terminator a = true ->
    Js.split_from Tally.newline (String.append a (String "010" s)) 0 cur
    = String.append cur a :: Js.split_from Tally.newline s 0 EmptyString.
Proof.
  induction a as [| c a IH]; intros cur s Ha.
  - rewrite append_nil_l, append_nil_r. cbn [Js.split_from].
    unfold Tally.newline. cbn [String.prefix].
    destruct (ascii_dec "010" "010"); [| congruence].
    destruct s; reflexivity.
  - cbn [no_line_terminator] in Ha. apply andb_true_iff in Ha as [Hc Ha].
    rewrite append_cons. cbn [Js.split_from].
    assert (Hprefix : String.prefix Tally.newline
                        (String c (String.append a (String "010" s))) = false).
    { unfold Tally.newline. cbn [String.prefix].
      destruct (ascii_dec "010" c) as [<- | _]; [discriminate Hc | reflexivity]. }
    rewrite Hprefix, (IH _ _ Ha), append_assoc. reflexivity.
Qed.

Lemma join_cons (sep p q : string) (rest : list string) :
  Js.join sep (p :: q :: rest) = String.append p (String.append sep (Js.join sep (q :: rest))).
Proof. reflexivity. Qed.

(** Lines without a line feed, joined and split, are the lines. *)
Lemma split_join (lines : list string) :
  forall (line cur : string),
    Forall (fun l => no_line_terminator l = true) (line :: lines) ->
    Js.split_from Tally.newline (Js.join Tally.newline (line :: lines)) 0 cur
    = String.append cur line :: lines.
Proof.
  induction lines as [| l2 lines IH]; intros line cur Hall;
    apply Forall_cons in Hall as [Hline Hall].
  - cbn [Js.join]. apply split_one_line, Hline.
  - rewrite join_cons.
    change (String.append Tally.newline (Js.join Tally.newline (l2 :: lines)))
      with (String "010" (Js.join Tally.newline (l2 :: lines))).
    rewrite (split_line_then line cur _ Hline), (IH l2 EmptyString Hall).
    reflexivity.
Qed.

Lemma join_solid (lines : list string) :
  forall line, Forall solid (line :: lines) -> solid (Js.join Tally.newline (line :: lines)).
Proof.
  induction lines as [| l2 lines IH]; intros line Hall;
    apply Forall_cons in Hall as [Hline Hall]; [exact Hline |].
  rewrite join_cons. apply solid_append; [exact Hline | apply IH, Hall].
Qed.

Lemma filter_solid (lines : list string) :
  Forall solid lines ->
  filter (fun line => negb (is_empty (Js.trim line))) lines = lines.
Proof.
  induction 1 as [| line lines Hline _ IH]; [reflexivity |].
  rewrite filter_cons_True, IH; [reflexivity |].
  destruct (solid_trim line Hline) as [_ ->]. exact I.
Qed.

(** The text of solid lines without line feeds parses line by line. *)
Lemma parseDeckText_lines (lines : list string) :
  Forall solid lines -> Forall (fun l => no_line_terminator l = true) lines ->
  parseDeckText (Js.join Tally.newline lines) = concat (map parse_line lines).
Proof.
  intros Hsolid Hnlt. destruct lines as [| line lines]; [reflexivity |].
  unfold parseDeckText. cbv zeta.
  destruct (solid_trim _ (join_solid lines line Hsolid)) as [-> _].
  unfold Js.split. rewrite (split_join lines line EmptyString Hnlt), append_nil_l.
  rewrite (filter_solid _ Hsolid). reflexivity.
Qed.

End RoundTripFacts.

(** The entries of the tally: each has a count of at least 1 and the name
    and color of a pick. *)
Lemma getTally_entries (localeCompare : string -> string -> Z) (picks : list Card)
    (t : TallyEntry) :
  In t (Tally.getTally localeCompare picks) ->
  1 <= count t
  /\ exists c, In c picks /\ tally_fullName t = fullName c /\ tally_color t = color c.
Proof.
  intros Ht.
  assert (Hin : In t (map snd (Tally.tally_map picks))).
  { unfold Tally.getTally in Ht. apply list_elem_of_In. apply list_elem_of_In in Ht.
    rewrite sort_perm in Ht. exact Ht. }
  apply tally_map_entries in Hin as [k Hk].
  apply entry_for_key in Hk as (c0 & rest & _ & Hc0 & _ & ->).
  cbn [count tally_fullName tally_color]. split; [simpl; lia |]. eauto.
Qed.

Lemma export_entries_plain (localeCompare : string -> string -> Z) (picks : list Card) :
  Forall (fun c => plain_name (fullName c) = true) picks ->
  Forall (fun t => 1 <= count t /\ plain_name (tally_fullName t) = true)
    (Tally.getTally localeCompare picks).
Proof.
  intros Hplain. apply List.Forall_forall. intros t Ht.
  apply getTally_entries in Ht as (Hcount & c & Hc & -> & _).
  split; [exact Hcount |]. rewrite List.Forall_forall in Hplain. apply Hplain, Hc.
Qed.

Lemma export_lines_solid (tally : list TallyEntry) :
  Forall (fun t => 1 <= count t /\ plain_name (tally_fullName t) = true) tally ->
  Forall solid (map Tally.tally_line tally)
  /\ Forall (fun l => SavedDecks.no_line_terminator l = true) (map Tally.tally_line tally).
Proof.
  induction 1 as [| t tally [Hcount Hname] _ [IH1 IH2]]; [split; constructor |].
  cbn [map]. destruct (tally_line_solid _ _ Hcount Hname) as [H1 H2].
  split; constructor; assumption.
Qed.

Lemma parseDeckText_export (localeCompare : string -> string -> Z) (picks : list Card) :
  Forall (fun c => plain_name (fullName c) = true) picks ->
  SavedDecks.parseDeckText (Tally.generateCopyTextWithoutColor localeCompare picks)
  = map parsed_entry (Tally.getTally localeCompare picks).
Proof.
  intros Hplain. unfold Tally.generateCopyTextWithoutColor.
  pose proof (export_entries_plain localeCompare picks Hplain) as Hentries.
  revert Hentries. generalize (Tally.getTally localeCompare picks). intros tally Hentries.
  destruct (export_lines_solid tally Hentries) as [Hsolid Hnlt].
  rewrite (parseDeckText_lines _ Hsolid Hnlt).
  induction Hentries as [| t tally [Hcount Hname] _ IH]; [reflexivity |].
  cbn [map concat]. unfold Tally.tally_line at 1.
  apply Forall_cons in Hsolid as [_ Hsolid]. apply Forall_cons in Hnlt as [_ Hnlt].
  rewrite (tally_line_parse _ _ Hcount Hname), (IH Hsolid Hnlt). reflexivity.
Qed.

(** X19.  Export and import agree on the text.  When the names of the
    picks are not empty and have no white space around them and no line
    terminator in them, [parseDeckText] reads from the text that
    [generateCopyTextWithoutColor] writes one entry for every entry of the
    tally, in the same order, with the same count and name and without a
    color. *)
Theorem export_text_parses_back (localeCompare : string -> string -> Z)
    (picks : list Card) :
  Forall (fun c => plain_name (fullName c) = true) picks ->
  SavedDecks.parseDeckText (Tally.generateCopyTextWithoutColor localeCompare picks)
  = map parsed_entry (Tally.getTally localeCompare picks).
Proof. apply parseDeckText_export. Qed.

Lemma export_text_parses_back_witness :
  SavedDecks.parseDeckText (Tally.generateCopyTextWithoutColor code_unit_compare scenario_E_picks)
  = map parsed_entry (Tally.getTally code_unit_compare scenario_E_picks).
Proof.
  apply (export_text_parses_back code_unit_compare scenario_E_picks).
  repeat constructor.
Defined.

(** ** components/SavedDecks.tsx: importing a deck *)

Section ImportFacts.
Import SavedDecks ImportDeck.

Lemma find_Some {A} (p : A -> bool) (l : list A) (x : A) :
  JsMore.find p l = Some x ->
  exists front back, l = front ++ x :: back /\ p x = true /\ Forall (fun y => p y = false) front.
Proof.
  induction l as [| y l IH]; [discriminate |]. cbn [JsMore.find].
  destruct (p y) eqn:Hy.
  - intros [= ->]. exists [], l. auto.
  - intros H. destruct (IH H) as (front & back & -> & Hx & Hfront).
    exists (y :: front), back. auto.
Qed.

Lemma find_None {A} (p : A -> bool) (l : list A) :
  JsMore.find p l = None <-> existsb p l = false.
Proof.
  induction l as [| y l IH]; [simpl; tauto |]. cbn [JsMore.find existsb].
  destruct (p y); [split; discriminate | exact IH].
Qed.

Lemma find_match_find (master : list Card) (e : ParsedEntry) :
  find_match master (parsed_fullName e) (parsed_color e)
  = JsMore.find (entry_matches e) master.
Proof.
  unfold find_match, entry_matches. destruct (parsed_color e) as [col |].
  - destruct (is_empty col); cbn [orb].
    + induction master as [| c master IH]; [reflexivity |]. cbn [JsMore.find].
      rewrite andb_true_r, IH. reflexivity.
    + reflexivity.
  - induction master as [| c master IH]; [reflexivity |]. cbn [JsMore.find].
    rewrite andb_true_r, IH. reflexivity.
Qed.

Lemma match_cards_run (master : list Card) (parsed : list ParsedEntry) :
  forall acc : list Card * list string,
    fold_left (match_entry master) parsed acc
    = (fst acc ++ flat_map (fun e => match JsMore.find (entry_matches e) master with
                                     | Some c => replicate (Z.to_nat (parsed_count e)) c
                                     | None => []
                                     end) parsed,
       snd acc ++ flat_map (fun e => match JsMore.find (entry_matches e) master with
                                     | Some _ => []
                                     | None => [unmatched_line e]
                                     end) parsed).
Proof.
  induction parsed as [| e parsed IH]; intros [cs us]; cbn [fold_left flat_map fst snd].
  - rewrite !app_nil_r. reflexivity.
  - rewrite IH. unfold match_entry. rewrite find_match_find. cbn [fst snd].
    destruct (JsMore.find (entry_matches e) master); cbn [fst snd app];
      rewrite <- ?app_assoc; reflexivity.
Qed.

End ImportFacts.

Lemma find_first {A} (p : A -> bool) (front back : list A) (x : A) :
  p x = true -> Forall (fun y => p y = false) front ->
  JsMore.find p (front ++ x :: back) = Some x.
Proof.
  intros Hx. induction 1 as [| y front Hy _ IH]; cbn [app JsMore.find].
  - rewrite Hx. reflexivity.
  - rewrite Hy. exact IH.
Qed.

(** X20.  The matching of an import.  Every card that is imported is a
    card of the master list that matches an entry of the text: by name,
    and by color when the entry has one.  For an entry it is the first such
    card of the list, taken as often as the count of the entry says.  An
    entry is reported as unmatched exactly when no card of the list matches
    it. *)
Theorem import_takes_matching_master_cards (masterCards : list Card)
    (parsed : list SavedDecks.ParsedEntry) :
  let out := ImportDeck.match_cards masterCards parsed in
  Forall (fun c => In c masterCards
                   /\ exists e, In e parsed /\ entry_matches e c = true) (fst out)
  /\ length (fst out)
     = list_sum (map (fun e => Z.to_nat (SavedDecks.parsed_count e))
                   (List.filter (has_match masterCards) parsed))
  /\ snd out = map ImportDeck.unmatched_line
                 (List.filter (fun e => negb (has_match masterCards e)) parsed)
  /\ (forall e front c back,
        masterCards = front ++ c :: back -> entry_matches e c = true ->
        Forall (fun y => entry_matches e y = false) front ->
        fst (ImportDeck.match_cards masterCards [e])
        = replicate (Z.to_nat (SavedDecks.parsed_count e)) c).
Proof.
  cbv zeta. unfold ImportDeck.match_cards. rewrite !match_cards_run. cbn [fst snd app].
  split; [| split; [| split]].
  - induction parsed as [| e parsed IH]; [constructor |]. cbn [flat_map].
    apply Forall_app. split.
    + destruct (JsMore.find (entry_matches e) masterCards) as [c |] eqn:E; [| constructor].
      apply find_Some in E as (front & back & -> & Hc & _).
      apply Forall_replicate. split.
      * apply in_or_app. right. left. reflexivity.
      * exists e. split; [left; reflexivity | exact Hc].
    + eapply Forall_impl; [exact IH |]. intros c (Hc & e' & He' & Hm).
      split; [exact Hc |]. exists e'. split; [right; exact He' | exact Hm].
  - induction parsed as [| e parsed IH]; [reflexivity |]. cbn [flat_map List.filter].
    rewrite length_app, IH. unfold has_match at 2.
    destruct (JsMore.find (entry_matches e) masterCards) as [c |] eqn:E.
    + apply find_Some in E as (front & back & -> & Hc & _).
      rewrite existsb_app. cbn [existsb]. rewrite Hc, orb_true_r. cbn [map list_sum].
      rewrite length_replicate. reflexivity.
    + apply find_None in E. rewrite E. reflexivity.
  - induction parsed as [| e parsed IH]; [reflexivity |]. cbn [flat_map List.filter].
    rewrite IH. unfold has_match at 2.
    destruct (JsMore.find (entry_matches e) masterCards) as [c |] eqn:E.
    + apply find_Some in E as (front & back & -> & Hc & _).
      rewrite existsb_app. cbn [existsb]. rewrite Hc, orb_true_r. reflexivity.
    + apply find_None in E. rewrite E. reflexivity.
  - intros e front c back -> Hc Hfront. rewrite match_cards_run. cbn [fst flat_map app].
    rewrite (find_first _ _ _ _ Hc Hfront), app_nil_r. reflexivity.
Qed.

Section ImportRoundTrip.
Import Tally.

Lemma tally_names_count_up (key : string) (m : list (string * TallyEntry)) (e : TallyEntry) :
  map_get key m = Some e -> 0 <= count e ->
  tally_names (map snd (count_up key m)) ≡ₚ tally_fullName e :: tally_names (map snd m).
Proof.
  unfold tally_names. induction m as [| [k0 e0] m IH]; [discriminate |].
  cbn [map_get count_up]. destruct (String.eqb k0 key).
  - intros [= ->] Hcount. cbn [map snd flat_map count tally_fullName].
    replace (Z.to_nat (count e + 1)) with (S (Z.to_nat (count e))) by lia. reflexivity.
  - intros He Hcount. cbn [map snd flat_map]. rewrite (IH He Hcount).
    symmetry. apply Permutation_middle.
Qed.

(** The names of the tally are the names of the picks. *)
Lemma tally_names_picks (picks : list Card) :
  Forall (fun c => bar_free (color c) = true) picks ->
  tally_names (map snd (tally_map picks)) ≡ₚ map fullName picks.
Proof.
  induction picks as [| c picks IH] using rev_ind; intros Hfree; [reflexivity |].
  apply Forall_app in Hfree as [Hfree Hc]. apply Forall_cons in Hc as [Hc _].
  rewrite tally_map_snoc, map_app. cbn [map]. unfold tally_step.
  destruct (map_get (tally_key c) (tally_map picks)) as [e |] eqn:E.
  - pose proof E as E'. rewrite map_get_tally_map in E'.
    apply entry_for_key in E' as (c0 & rest & _ & Hc0 & Hkey & ->).
    rewrite (tally_names_count_up _ _ _ E) by (cbn; lia).
    cbn [tally_fullName]. rewrite (IH Hfree).
    rewrite !tally_key_unfold in Hkey.
    apply tally_key_injective in Hkey as [-> _];
      [apply Permutation_cons_append | | exact Hc].
    rewrite Forall_forall in Hfree. apply Hfree, list_elem_of_In, Hc0.
  - rewrite map_app. unfold tally_names. rewrite flat_map_app.
    fold (tally_names (map snd (tally_map picks))). rewrite (IH Hfree). reflexivity.
Qed.

End ImportRoundTrip.

Lemma map_eq_on {A B} (f : A -> B) (l : list A) :
  forall l', (forall x y, In x l -> In y l' -> f x = f y -> x = y) ->
    map f l = map f l' -> l = l'.
Proof.
  induction l as [| x l IH]; intros [| y l'] Hinj Heq; try discriminate; [reflexivity |].
  injection Heq as Hxy Heq. f_equal.
  - apply Hinj; [left; reflexivity | left; reflexivity | exact Hxy].
  - apply IH; [| exact Heq]. intros a b Ha Hb. apply Hinj; right; assumption.
Qed.

Lemma Permutation_map_on {A B} (f : A -> B) (l l' : list A) :
  (forall x y, In x l -> In y l' -> f x = f y -> x = y) ->
  map f l ≡ₚ map f l' -> l ≡ₚ l'.
Proof.
  intros Hinj Hperm.
  apply Permutation_map_inv in Hperm as (l3 & Heq & Hperm).
  rewrite Hperm. apply map_eq_on in Heq; [rewrite Heq; reflexivity |].
  intros x y Hx Hy. apply Hinj; [exact Hx |].
  eapply Permutation_in; [symmetry; exact Hperm | exact Hy].
Qed.

Section ImportExport.
Import SavedDecks ImportDeck.

Variable localeCompare : string -> string -> Z.

Lemma find_by_name (master : list Card) (t : TallyEntry) :
  (exists m, In m master /\ fullName m = tally_fullName t) ->
  exists m, JsMore.find (entry_matches (parsed_entry t)) master = Some m
            /\ In m master /\ fullName m = tally_fullName t.
Proof.
  intros (m0 & Hm0 & Hname).
  destruct (JsMore.find (entry_matches (parsed_entry t)) master) as [m |] eqn:E.
  - exists m. split; [reflexivity |].
    apply find_Some in E as (front & back & -> & Hm & _).
    split; [apply in_or_app; right; left; reflexivity |].
    unfold entry_matches in Hm. cbn in Hm. rewrite andb_true_r in Hm.
    apply String.eqb_eq, Hm.
  - exfalso. apply find_None in E.
    assert (Hex : existsb (entry_matches (parsed_entry t)) master = true).
    { apply existsb_exists. exists m0. split; [exact Hm0 |].
      unfold entry_matches. cbn. rewrite andb_true_r. apply String.eqb_eq, Hname. }
    congruence.
Qed.

(** The cards matched for the entries of a tally whose names all occur in
    the master list: none is unmatched, and the names of the cards are the
    names of the tally. *)
Lemma match_cards_tally (master : list Card) (tally : list TallyEntry) :
  Forall (fun t => exists m, In m master /\ fullName m = tally_fullName t) tally ->
  let out := match_cards master (map parsed_entry tally) in
  snd out = []
  /\ Forall (fun c => In c master) (fst out)
  /\ map fullName (fst out) = tally_names tally.
Proof.
  intros Hall. cbv zeta. unfold match_cards. rewrite match_cards_run. cbn [fst snd app].
  induction Hall as [| t tally Ht _ (IH1 & IH2 & IH3)]; [repeat split; constructor |].
  destruct (find_by_name master t Ht) as (m & Hfind & Hm & Hname).
  cbn [map flat_map]. rewrite Hfind. cbn [app parsed_entry parsed_count].
  split; [exact IH1 |]. split.
  - apply Forall_app. split; [apply Forall_replicate, Hm | exact IH2].
  - rewrite map_app, IH3. unfold tally_names at 2. cbn [flat_map]. f_equal.
    generalize (Z.to_nat (count t)). intros n.
    induction n as [| n IHn]; [reflexivity |]. cbn. rewrite Hname. f_equal. exact IHn.
Qed.

Lemma handleImportDeck_export (masterCards picks : list Card) (answer : string) :
  picks <> [] ->
  Forall (fun c => plain_name (fullName c) = true) picks ->
  Forall (fun c => bar_free (color c) = true) picks ->
  Forall (fun c => exists m, In m masterCards /\ fullName m = fullName c) picks ->
  Js.trim answer <> EmptyString ->
  exists cards,
    handleImportDeck (Some masterCards)
      (Tally.generateCopyTextWithoutColor localeCompare picks) (Some answer)
    = SaveDraft (Js.trim answer)
        (mkDraftState masterCards [] 6 13 (map Some cards) [] true None) []
    /\ Forall (fun c => In c masterCards) cards
    /\ map fullName cards ≡ₚ map fullName picks.
Proof.
  intros Hne Hplain Hfree Hknown Hanswer.
  set (tally := Tally.getTally localeCompare picks).
  assert (Hperm : tally ≡ₚ map snd (Tally.tally_map picks)) by apply sort_perm.
  assert (Hnames : tally_names tally ≡ₚ map fullName picks).
  { rewrite <- (tally_names_picks picks Hfree). unfold tally_names.
    apply Permutation_flat_map, Hperm. }
  assert (Htally : Forall (fun t => exists m, In m masterCards
                                              /\ fullName m = tally_fullName t) tally).
  { apply List.Forall_forall. intros t Ht.
    apply getTally_entries in Ht as (_ & c & Hc & -> & _).
    rewrite List.Forall_forall in Hknown. apply Hknown, Hc. }
  destruct (match_cards_tally masterCards tally Htally) as (Hun & Hin & Hmap).
  exists (fst (match_cards masterCards (map parsed_entry tally))).
  split; [| split; [exact Hin | rewrite Hmap; exact Hnames]].
  unfold handleImportDeck.
  assert (Hmaster : (Z.of_nat (length masterCards) =? 0) = false).
  { apply Z.eqb_neq. destruct picks as [| c picks]; [contradiction |].
    apply Forall_cons in Hknown as [(m & Hm & _) _].
    destruct masterCards; [destruct Hm | simpl; lia]. }
  rewrite Hmaster.
  assert (Htally_ne : tally <> []).
  { intros E. rewrite E in Hnames. apply Permutation_nil in Hnames.
    destruct picks; [contradiction | discriminate]. }
  pose proof (export_entries_plain localeCompare picks Hplain) as Hentries.
  fold tally in Hentries.
  destruct (export_lines_solid tally Hentries) as [Hsolid _].
  assert (Htext : is_empty (Js.trim (Tally.generateCopyTextWithoutColor localeCompare picks))
                  = false).
  { unfold Tally.generateCopyTextWithoutColor. fold tally.
    destruct tally as [| t tally']; [contradiction |]. cbn [map] in *.
    apply (solid_trim _ (join_solid _ _ Hsolid)). }
  rewrite Htext. cbv zeta. rewrite (parseDeckText_export localeCompare picks Hplain).
  fold tally.
  assert (Hparsed : (Z.of_nat (length (map parsed_entry tally)) =? 0) = false).
  { apply Z.eqb_neq. rewrite length_map. destruct tally; [contradiction | simpl; lia]. }
  rewrite Hparsed.
  assert (Hcards : (Z.of_nat (length (fst (match_cards masterCards (map parsed_entry tally))))
                    =? 0) = false).
  { apply Z.eqb_neq. rewrite <- (length_map fullName), Hmap.
    rewrite (Permutation_length Hnames), length_map.
    destruct picks; [contradiction | simpl; lia]. }
  rewrite Hcards, Hun.
  assert (Hname : (is_empty answer || is_empty (Js.trim answer)) = false).
  { destruct answer; [exfalso; apply Hanswer; reflexivity |].
    destruct (Js.trim _); [contradiction | reflexivity]. }
  rewrite Hname. reflexivity.
Qed.

End ImportExport.

(** X21.  A deck that is exported is imported back.  For picks that are
    not none, with plain names (not empty, no white space around them, no
    line terminator), colors without a "|", and names that all occur in the
    master list, and for a draft name that is not blank: importing the text
    that [generateCopyTextWithoutColor] writes saves, under the trimmed
    name, a complete draft with no round, whose picks are cards of the
    master list with the names of the picks exported, each name as often as
    before; no line is reported as unmatched.  When the names of the master
    list are distinct and the picks are cards of it, the picks saved are
    the picks exported, rearranged. *)
Theorem exported_deck_imports_back (localeCompare : string -> string -> Z)
    (masterCards picks : list Card) (answer : string) :
  picks <> [] ->
  Forall (fun c => plain_name (fullName c) = true) picks ->
  Forall (fun c => bar_free (color c) = true) picks ->
  Forall (fun c => exists m, In m masterCards /\ fullName m = fullName c) picks ->
  Js.trim answer <> EmptyString ->
  exists cards,
    ImportDeck.handleImportDeck (Some masterCards)
      (Tally.generateCopyTextWithoutColor localeCompare picks) (Some answer)
    = ImportDeck.SaveDraft (Js.trim answer)
        (mkDraftState masterCards [] 6 13 (map Some cards) [] true None) []
    /\ Forall (fun c => In c masterCards) cards
    /\ map fullName cards ≡ₚ map fullName picks
    /\ (List.NoDup (map fullName masterCards) ->
        Forall (fun c => In c masterCards) picks -> cards ≡ₚ picks).
Proof.
  intros Hne Hplain Hfree Hknown Hanswer.
  destruct (handleImportDeck_export localeCompare masterCards picks answer
              Hne Hplain Hfree Hknown Hanswer) as (cards & Hrun & Hin & Hnames).
  exists cards. split; [exact Hrun |]. split; [exact Hin |]. split; [exact Hnames |].
  intros Hnd Hpicks. apply (Permutation_map_on fullName); [| exact Hnames].
  intros x y Hx Hy Hxy. rewrite List.Forall_forall in Hin, Hpicks.
  apply Hin in Hx. apply Hpicks in Hy.
  clear -Hnd Hx Hy Hxy. induction masterCards as [| m master IH]; [destruct Hx |].
  cbn [map] in Hnd. apply List.NoDup_cons_iff in Hnd as [Hm Hnd].
  destruct Hx as [-> | Hx], Hy as [-> | Hy].
  - reflexivity.
  - exfalso. apply Hm. rewrite Hxy. apply in_map, Hy.
  - exfalso. apply Hm. rewrite <- Hxy. apply in_map, Hx.
  - apply IH; assumption.
Qed.

Lemma exported_deck_imports_back_witness :
  exists cards,
    ImportDeck.handleImportDeck (Some demo_pool)
      (Tally.generateCopyTextWithoutColor code_unit_compare
         [demo_card 3; demo_card 1; demo_card 3]) (Some " my deck "%string)
    = ImportDeck.SaveDraft "my deck"
        (mkDraftState demo_pool [] 6 13 (map Some cards) [] true None) []
    /\ Forall (fun c => In c demo_pool) cards
    /\ map fullName cards ≡ₚ map fullName [demo_card 3; demo_card 1; demo_card 3]
    /\ (List.NoDup (map fullName demo_pool) ->
        Forall (fun c => In c demo_pool) [demo_card 3; demo_card 1; demo_card 3] ->
        cards ≡ₚ [demo_card 3; demo_card 1; demo_card 3]).
Proof.
  apply (exported_deck_imports_back code_unit_compare demo_pool
           [demo_card 3; demo_card 1; demo_card 3] " my deck ").
  - discriminate.
  - repeat constructor.
  - repeat constructor.
  - repeat (constructor; [eexists; split; [| reflexivity]; vm_compute; tauto |]).
    constructor.
  - vm_compute. discriminate.
Defined.

(** ** components/SavedDecks.tsx: building a deck *)

Section DeckBuilderFacts.
Import DeckBuilder.

Lemma handleToggleCard_bounded (prev : list Z) (index : Z) :
  List.NoDup prev -> (length prev <= 40)%nat ->
  List.NoDup (fst (handleToggleCard prev index))
  /\ (length (fst (handleToggleCard prev index)) <= 40)%nat
  /\ (forall i, In i (fst (handleToggleCard prev index)) -> i = index \/ In i prev).
Proof.
  intros Hnd Hlen. unfold handleToggleCard.
  destruct (JsMore.includes_number prev index) eqn:Hin; cbn [fst].
  - split; [apply List.NoDup_filter, Hnd |].
    split; [pose proof (List.filter_length_le (fun i => negb (i =? index)) prev); lia |].
    intros i Hi. apply filter_In in Hi. tauto.
  - destruct (Z.geb_spec (Z.of_nat (length prev)) MAX_DECK_SIZE) as [Hfull | Hroom];
      cbn [fst].
    + auto.
    + unfold MAX_DECK_SIZE in Hroom. split; [| split].
      * apply NoDup_ListNoDup, NoDup_app. split; [apply NoDup_ListNoDup, Hnd |].
        split; [| apply NoDup_ListNoDup; constructor; [intros [] | constructor]].
        intros i Hi Hi'. apply list_elem_of_In in Hi, Hi'. destruct Hi' as [<- | []].
        apply includes_number_In in Hi. congruence.
      * rewrite length_app. simpl. lia.
      * intros i Hi. apply in_app_or in Hi as [Hi | [<- | []]]; auto.
Qed.

Lemma toggle_run_bounded (indices : list Z) :
  forall start : list Z,
    List.NoDup start -> (length start <= 40)%nat ->
    let sel := fold_left (fun prev index => fst (handleToggleCard prev index)) indices start in
    List.NoDup sel /\ (length sel <= 40)%nat
    /\ (forall i, In i sel -> In i indices \/ In i start).
Proof.
  induction indices as [| index indices IH]; intros start Hnd Hlen; cbn [fold_left].
  - auto.
  - destruct (handleToggleCard_bounded start index Hnd Hlen) as (H1 & H2 & H3).
    destruct (IH _ H1 H2) as (I1 & I2 & I3). cbv zeta.
    split; [exact I1 |]. split; [exact I2 |].
    intros i Hi. apply I3 in Hi as [Hi | Hi]; [left; right; exact Hi |].
    apply H3 in Hi as [-> | Hi]; [left; left; reflexivity | right; exact Hi].
Qed.

Lemma selectedCards_length (cards : list (option Card)) (sel : list Z) :
  (length (selectedCards cards sel) <= length sel)%nat.
Proof.
  unfold selectedCards. induction sel as [| i sel IH]; [simpl; lia |].
  cbn [omap list_omap]. destruct (Js.index cards i) as [[c |] |]; simpl; lia.
Qed.

End DeckBuilderFacts.

(** X22.  The selection of a deck in [SavedDraftDetail].  Whatever cards
    are toggled, from the empty selection on, the selection holds no index
    twice and at most 40 indices, all of them indices that were toggled;
    so the deck never has more than 40 cards.  Toggling an index that is
    not selected, with room left, and toggling it again gives the
    selection back; with 40 indices selected, toggling one that is not
    among them changes nothing and sets the error status. *)
Theorem deck_selection_stays_within_forty (indices : list Z) (cards : list (option Card)) :
  let sel := toggle_all indices in
  List.NoDup sel
  /\ (length sel <= 40)%nat
  /\ (length (DeckBuilder.selectedCards cards sel) <= 40)%nat
  /\ (forall i, In i sel -> In i indices)
  /\ (forall index, ~ In index sel ->
        if (length sel <? 40)%nat
        then fst (DeckBuilder.handleToggleCard
                    (fst (DeckBuilder.handleToggleCard sel index)) index) = sel
        else fst (DeckBuilder.handleToggleCard sel index) = sel
             /\ snd (DeckBuilder.handleToggleCard sel index) <> None).
Proof.
  cbv zeta. unfold toggle_all.
  destruct (toggle_run_bounded indices []) as (H1 & H2 & H3);
    [constructor | simpl; lia |].
  set (sel := fold_left _ indices []) in *.
  split; [exact H1 |]. split; [exact H2 |].
  split; [pose proof (selectedCards_length cards sel); lia |].
  split; [intros i Hi; apply H3 in Hi as [Hi | []]; exact Hi |].
  intros index Hout.
  assert (Hnot : JsMore.includes_number sel index = false).
  { destruct (JsMore.includes_number sel index) eqn:E; [| reflexivity].
    apply includes_number_In in E. contradiction. }
  unfold DeckBuilder.handleToggleCard at 2 3 4. rewrite Hnot.
  destruct (Nat.ltb_spec (length sel) 40) as [Hroom | Hfull].
  - destruct (Z.geb_spec (Z.of_nat (length sel)) DeckBuilder.MAX_DECK_SIZE) as [Hge | _];
      [unfold DeckBuilder.MAX_DECK_SIZE in Hge; lia |].
    cbn [fst]. unfold DeckBuilder.handleToggleCard.
    assert (Hin : JsMore.includes_number (sel ++ [index]) index = true).
    { apply includes_number_In, in_or_app. right. left. reflexivity. }
    rewrite Hin. cbn [fst]. rewrite List.filter_app. cbn [List.filter].
    rewrite Z.eqb_refl. cbn [negb]. rewrite app_nil_r.
    clear -Hout. induction sel as [| i sel IH]; [reflexivity |].
    cbn [List.filter]. destruct (Z.eqb_spec i index) as [-> | Hne].
    + exfalso. apply Hout. left. reflexivity.
    + cbn [negb]. f_equal. apply IH. intros H. apply Hout. right. exact H.
  - destruct (Z.geb_spec (Z.of_nat (length sel)) DeckBuilder.MAX_DECK_SIZE) as [_ | Hlt];
      [| unfold DeckBuilder.MAX_DECK_SIZE in Hlt; lia].
    cbn [fst snd]. split; [reflexivity | discriminate].
Qed.

Section EditDeckFacts.
Import DeckBuilder.

Lemma initial_step_run (available : list Card) (deck : list Card) :
  forall acc : list Z,
    fold_left (initial_step available) deck acc
    = acc ++ flat_map (fun d => if negb (Js.findIndex (same_card d) available =? -1)
                                then [Js.findIndex (same_card d) available] else []) deck.
Proof.
  induction deck as [| d deck IH]; intros acc; cbn [fold_left flat_map].
  - rewrite app_nil_r. reflexivity.
  - rewrite IH. unfold initial_step. cbv zeta.
    fold (same_card d). destruct (negb _); rewrite <- ?app_assoc; reflexivity.
Qed.

Lemma findIndex_first (available : list Card) (d : Card) :
  let k := Js.findIndex (same_card d) available in
  (k = -1 /\ Forall (fun c => same_card d c = false) available)
  \/ (0 <= k /\ exists c, Js.index available k = Some c /\ same_card d c = true
                        /\ Forall (fun c' => same_card d c' = false)
                             (take (Z.to_nat k) available)).
Proof.
  cbv zeta. unfold Js.findIndex.
  destruct (findIndex_from_spec (same_card d) available 0) as [Hrange Hspec].
  destruct Hspec as [Hnone Hsome]; [lia |].
  destruct (Z.eq_dec (Js.findIndex_from (same_card d) available 0) (-1)) as [E | E].
  - left. auto.
  - right. destruct Hrange as [? | Hrange]; [contradiction |]. split; [exact Hrange |].
    destruct (Hsome E) as (c & Hc & Hm & Hbefore). rewrite Z.sub_0_r in Hc, Hbefore.
    exists c. split; [| auto]. unfold Js.index.
    destruct (Z.ltb_spec (Js.findIndex_from (same_card d) available 0) 0); [lia | exact Hc].
Qed.

End EditDeckFacts.

(** X23.  The selection that [EditDeckCards] starts from.  For every card
    of the deck that some pick stands for (the same name and color) the
    effect selects the index of the first such pick, and for the others
    none; so two cards of the deck with the same name and color are given
    the same index, and the selection holds this index twice. *)
Theorem edit_deck_selects_first_matching_picks (availableCards currentDeckCards : list Card) :
  availableCards <> [] ->
  exists indices,
    DeckBuilder.initial_indices availableCards currentDeckCards = Some indices
    /\ (length indices <= length currentDeckCards)%nat
    /\ Forall (fun i => exists d c,
                 In d currentDeckCards /\ Js.index availableCards i = Some c
                 /\ same_card d c = true
                 /\ Forall (fun c' => same_card d c' = false)
                      (take (Z.to_nat i) availableCards)) indices
    /\ (forall d c, In d currentDeckCards -> In c availableCards -> same_card d c = true ->
          exists i c', In i indices /\ Js.index availableCards i = Some c'
                       /\ same_card d c' = true)
    /\ (forall front d1 middle d2 back c,
          currentDeckCards = front ++ d1 :: middle ++ d2 :: back ->
          fullName d1 = fullName d2 -> color d1 = color d2 ->
          In c availableCards -> same_card d1 c = true ->
          ~ List.NoDup indices).
Proof.
  intros Hne. unfold DeckBuilder.initial_indices.
  assert (Hlen : (Z.of_nat (length availableCards) =? 0) = false).
  { apply Z.eqb_neq. destruct availableCards; [contradiction | simpl; lia]. }
  rewrite Hlen, initial_step_run. cbn [app]. eexists. split; [reflexivity |].
  assert (Hfound : forall d c, In c availableCards -> same_card d c = true ->
            Js.findIndex (same_card d) availableCards <> -1).
  { intros d c Hc Hm. destruct (findIndex_first availableCards d) as [[_ Hall] | [Hk _]];
      [| lia].
    rewrite List.Forall_forall in Hall. rewrite (Hall c Hc) in Hm. discriminate. }
  split; [| split; [| split]].
  - induction currentDeckCards as [| d deck IH]; [simpl; lia |].
    cbn [flat_map]. rewrite length_app. destruct (negb _); simpl; lia.
  - induction currentDeckCards as [| d deck IH]; [constructor |].
    cbn [flat_map]. apply Forall_app. split.
    + destruct (findIndex_first availableCards d) as [[-> _] | (Hk & c & Hc & Hm & Hfirst)].
      * constructor.
      * destruct (negb _); [| constructor]. constructor; [| constructor].
        exists d, c. split; [left; reflexivity | auto].
    + eapply Forall_impl; [exact IH |]. intros i (d' & c & Hd' & H).
      exists d', c. split; [right; exact Hd' | exact H].
  - intros d c Hd Hc Hm. pose proof (Hfound d c Hc Hm) as Hk.
    destruct (findIndex_first availableCards d) as [[E _] | (_ & c' & Hc' & Hm' & _)];
      [contradiction |].
    exists (Js.findIndex (same_card d) availableCards), c'.
    split; [| auto]. apply in_flat_map. exists d. split; [exact Hd |].
    destruct (Z.eqb_spec (Js.findIndex (same_card d) availableCards) (-1));
      [contradiction | left; reflexivity].
  - intros front d1 middle d2 back c -> Hname Hcolor Hc Hm.
    assert (Hsame : same_card d2 = same_card d1).
    { unfold same_card. rewrite Hname, Hcolor. reflexivity. }
    pose proof (Hfound d1 c Hc Hm) as Hk.
    rewrite flat_map_app. cbn [flat_map]. rewrite flat_map_app. cbn [flat_map].
    rewrite Hsame.
    destruct (Z.eqb_spec (Js.findIndex (same_card d1) availableCards) (-1));
      [contradiction |].
    cbn [negb app]. intros Hnd.
    apply List.NoDup_remove_2 in Hnd. apply Hnd.
    apply in_or_app. right. apply in_or_app. right. left. reflexivity.
Qed.

Lemma edit_deck_selects_first_matching_picks_witness :
  exists indices,
    DeckBuilder.initial_indices scenario_E_picks [tally_card "Card A" "Amber";
                                                  tally_card "Card A" "Amber"]
    = Some indices
    /\ ~ List.NoDup indices.
Proof.
  destruct (edit_deck_selects_first_matching_picks scenario_E_picks
              [tally_card "Card A" "Amber"; tally_card "Card A" "Amber"])
    as (indices & Hrun & _ & _ & _ & Hdup); [discriminate |].
  exists indices. split; [exact Hrun |].
  apply (Hdup [] (tally_card "Card A" "Amber") [] (tally_card "Card A" "Amber") []
           (tally_card "Card A" "Amber")); try reflexivity.
  right. left. reflexivity.
Defined.

(** ** lib/draft.ts: what a pick leaves alone *)

Lemma removal_loop_shrinks (packIndex : Z) (packs : list Pack) :
  forall (i c : Z) (r : Rng),
    Forall2 pack_shrinks packs (fst (fst (removal_loop packIndex i packs c r))).
Proof.
  induction packs as [| pack rest IH]; intros i c r; [constructor |].
  rewrite removal_loop_cons. destruct (i =? packIndex); cbn.
  - constructor; [| apply IH]. repeat split; try reflexivity. lia.
  - constructor; [| apply IH].
    destruct (removeFromPack_spec pack r) as (Hid & Hlog & Hrem & Hlen & _).
    repeat split; [exact Hid | exact Hlog | eapply mixed_removal_sublist, Hrem | lia].
Qed.

Lemma splice1_shrinks (ap : Pack) (i : Z) :
  pack_shrinks ap (set_cards ap (snd (Js.splice1 (cards ap) i))).
Proof.
  repeat split; [apply splice1_sublist |]. cbn [set_cards cards].
  pose proof (splice1_lengths (cards ap) i).
  assert (length (fst (Js.splice1 (cards ap) i)) <= 1)%nat; [| lia].
  unfold Js.splice1. cbn [fst]. rewrite length_take. lia.
Qed.

(** X24.  What a pick does to the packs.  It leaves the pool and the
    earlier rounds as they are and at most opens one new round.  In the
    current round every pack keeps its id and its place, and its cards
    afterwards are cards it held before, in the same order, and at most one
    fewer: a pick never adds a card to a pack and never reorders one.  The
    active pack loses the card at the index, and nothing else. *)
Theorem pick_only_removes_cards (s : DraftState) (i : Z) (r : Rng) (s' : DraftState)
    (r' : Rng) (done : list RoundState) (cur : RoundState) :
  rounds s = done ++ [cur] -> pickCard s i r = inr (s', r') ->
  masterCards s' = masterCards s
  /\ exists cur' next,
       rounds s' = done ++ cur' :: next
       /\ (length next <= 1)%nat
       /\ roundNumber cur' = roundNumber cur
       /\ Forall2 pack_shrinks (packs cur) (packs cur')
       /\ exists ap ap',
            active_pack s = Some ap
            /\ Js.index (packs cur') (getActivePackIndex (currentTurn s)) = Some ap'
            /\ cards ap' = snd (Js.splice1 (cards ap) i).
Proof.
  intros Hrounds Hpick.
  assert (Hlast : last (rounds s) = Some cur) by (rewrite Hrounds; apply last_snoc).
  destruct (Js.index (packs cur) (getActivePackIndex (currentTurn s))) as [ap |] eqn:Hap.
  2: { unfold pickCard in Hpick. rewrite !deepClone_id, Hlast, Hap in Hpick. discriminate. }
  rewrite (pickCard_run s i r cur ap Hlast Hap) in Hpick. cbv zeta in Hpick.
  injection Hpick as Hpick.
  set (a := getActivePackIndex (currentTurn s)) in *.
  set (before := packs_after_pick i cur ap a) in *.
  set (loop := removal_loop a 0 before 0 r) in *.
  set (mid := picked_state s i cur ap (fst loop)) in *.
  destruct (advance_frame mid (snd loop)) as (Hmaster & _).
  pose proof (advance_rounds mid (snd loop)) as Hadv.
  rewrite Hpick in Hmaster, Hadv. cbn [fst] in Hmaster, Hadv.
  split; [exact Hmaster |].
  assert (Hmid : rounds mid
                 = done ++ [mkRoundState (roundNumber cur) (fst (fst loop)) (turn cur)]).
  { unfold mid, picked_state. cbn [rounds]. rewrite Hrounds, set_last_snoc. reflexivity. }
  apply index_Some in Hap as Hap'. destruct Hap' as [Ha Hlookup].
  set (picked_pack := set_cards ap (snd (Js.splice1 (cards ap) i))) in *.
  assert (Hbefore : before !! Z.to_nat a = Some picked_pack).
  { unfold before, packs_after_pick. apply list_lookup_insert_eq.
    eapply lookup_lt_Some, Hlookup. }
  destruct (removal_loop_each a before 0 0 r (Z.to_nat a) picked_pack Hbefore)
    as (ap' & Hap' & _ & _ & Hsame & _).
  fold loop in Hap'. rewrite Hsame in Hap' by lia.
  pose proof (removal_loop_shrinks a before 0 0 r) as Hloop. fold loop in Hloop.
  assert (Hpacks : Forall2 pack_shrinks (packs cur) (fst (fst loop))).
  { apply Forall2_same_length_lookup_2.
    - rewrite <- (Forall2_length _ _ _ Hloop). unfold before, packs_after_pick.
      rewrite length_insert. reflexivity.
    - intros j p p' Hp Hp'. destruct (Nat.eq_dec j (Z.to_nat a)) as [-> | Hj].
      + rewrite Hlookup in Hp. injection Hp as <-.
        rewrite Hap' in Hp'. injection Hp' as <-. apply splice1_shrinks.
      + apply (Forall2_lookup_lr _ _ _ j p p' Hloop); [| exact Hp'].
        unfold before, packs_after_pick. rewrite list_lookup_insert_ne by auto. exact Hp. }
  exists (mkRoundState (roundNumber cur) (fst (fst loop)) (turn cur)).
  assert (Hrest : exists ap0 ap1,
            active_pack s = Some ap0
            /\ Js.index (fst (fst loop)) a = Some ap1
            /\ cards ap1 = snd (Js.splice1 (cards ap0) i)).
  { exists ap, picked_pack. unfold active_pack. rewrite Hlast. fold a.
    split; [exact Hap |]. split; [| reflexivity].
    unfold Js.index. destruct (Z.ltb_spec a 0); [lia | exact Hap']. }
  destruct Hadv as [Hadv | [next Hadv]]; rewrite Hmid in Hadv.
  - exists []. rewrite Hadv. cbn [roundNumber packs length]. auto 10.
  - exists [next]. rewrite Hadv, <- app_assoc. cbn [roundNumber packs length app]. auto 10.
Qed.

Lemma pick_only_removes_cards_witness :
  match demo_after [3] with
  | Some s' =>
      masterCards s' = demo_pool
      /\ exists cur cur' next,
           rounds demo_start = [cur] /\ rounds s' = cur' :: next
           /\ Forall2 pack_shrinks (packs cur) (packs cur')
  | None => False
  end.
Proof.
  unfold demo_after. cbn [demo_picks].
  destruct (pickCard demo_start 3 demo_start_rng) as [e | [s' r']] eqn:E;
    [vm_compute in E; discriminate |].
  destruct (rounds demo_start) as [| cur [| ? ?]] eqn:Hrounds;
    [vm_compute in Hrounds; discriminate | | vm_compute in Hrounds; discriminate].
  destruct (pick_only_removes_cards demo_start 3 demo_start_rng s' r' [] cur Hrounds E)
    as (Hmaster & cur' & next & Hrounds' & _ & _ & Hpacks & _).
  split; [exact Hmaster |]. exists cur, cur', next. auto.
Defined.

(** ** lib/draft.ts: the tally accounts for every pick *)

Lemma total_count_Permutation (l l' : list TallyEntry) :
  l ≡ₚ l' -> total_count l = total_count l'.
Proof.
  unfold total_count.
  induction 1 as [| x l l' _ IH | x y l | l l' l'' _ IH1 _ IH2]; cbn; lia.
Qed.

Lemma total_count_count_up (key : string) (m : list (string * TallyEntry)) (e : TallyEntry) :
  Tally.map_get key m = Some e ->
  total_count (map snd (Tally.count_up key m)) = total_count (map snd m) + 1.
Proof.
  induction m as [| [k0 e0] m IH]; [discriminate |].
  cbn [Tally.map_get Tally.count_up]. destruct (String.eqb k0 key).
  - intros _. unfold total_count. cbn. lia.
  - intros He. unfold total_count in *. cbn. rewrite (IH He). lia.
Qed.

Lemma total_count_app (l l' : list TallyEntry) :
  total_count (l ++ l') = total_count l + total_count l'.
Proof.
  unfold total_count. induction l as [| t l IH]; cbn; [reflexivity |]. rewrite IH. lia.
Qed.

Lemma total_count_tally_map (picks : list Card) :
  total_count (map snd (Tally.tally_map picks)) = Z.of_nat (length picks).
Proof.
  induction picks as [| c picks IH] using rev_ind; [reflexivity |].
  rewrite tally_map_snoc, length_app, Nat2Z.inj_add. cbn [length]. unfold Tally.tally_step.
  destruct (Tally.map_get (Tally.tally_key c) (Tally.tally_map picks)) as [e |] eqn:E.
  - rewrite (total_count_count_up _ _ _ E), IH. reflexivity.
  - rewrite map_app, total_count_app, IH. reflexivity.
Qed.

(** X25.  The tally accounts for every pick, whatever the names and
    colors: the counts of its entries add up to the number of picks, every
    entry has a count of at least 1 and the name and color of a pick, and
    so there are at most as many entries as picks. *)
Theorem tally_counts_add_up (localeCompare : string -> string -> Z) (picks : list Card) :
  let tally := Tally.getTally localeCompare picks in
  total_count tally = Z.of_nat (length picks)
  /\ Forall (fun t => 1 <= count t
                      /\ exists c, In c picks /\ tally_fullName t = fullName c
                                   /\ tally_color t = color c) tally
  /\ (length tally <= length picks)%nat.
Proof.
  cbv zeta.
  assert (Hperm : Tally.getTally localeCompare picks ≡ₚ map snd (Tally.tally_map picks))
    by apply sort_perm.
  assert (Htotal : total_count (Tally.getTally localeCompare picks) = Z.of_nat (length picks)).
  { rewrite (total_count_Permutation _ _ Hperm). apply total_count_tally_map. }
  assert (Hall : Forall (fun t => 1 <= count t
                      /\ exists c, In c picks /\ tally_fullName t = fullName c
                                   /\ tally_color t = color c)
                   (Tally.getTally localeCompare picks)).
  { apply List.Forall_forall. intros t Ht.
    apply (getTally_entries localeCompare picks t Ht). }
  split; [exact Htotal |]. split; [exact Hall |].
  assert (Hle : Z.of_nat (length (Tally.getTally localeCompare picks))
                <= total_count (Tally.getTally localeCompare picks)); [| lia].
  clear Htotal Hperm. induction Hall as [| t l [Ht _] _ IH]; [reflexivity |].
  unfold total_count in *. cbn [length fold_right]. lia.
Qed.

(** ** lib/random.ts: sampling *)

(** X26.  [sampleWithoutReplacement] draws [k] items, or all when there
    are fewer, and none when [k] is not positive.  What it draws is part of
    the array: no item more often than the array holds it, so items that
    are distinct in the array are distinct in the sample; and a [k] of at
    least the length gives a rearrangement of the whole array. *)
Theorem sample_is_part_of_the_array {T} (arr : list T) (k : Z) (r : Rng) :
  let result := fst (sampleWithoutReplacement arr k r) in
  Z.of_nat (length result) = Z.max 0 (Z.min k (Z.of_nat (length arr)))
  /\ result ⊆+ arr
  /\ (List.NoDup arr -> List.NoDup result)
  /\ (Z.of_nat (length arr) <= k -> result ≡ₚ arr)
  /\ (k <= 0 -> result = []).
Proof.
  cbv zeta. destruct (sampleWithoutReplacement_spec arr k r) as [Hlen [rest Hperm]].
  revert Hlen Hperm. generalize (fst (sampleWithoutReplacement arr k r)).
  intros result Hlen Hperm.
  assert (Hsub : result ⊆+ arr).
  { rewrite <- Hperm. apply submseteq_inserts_r. reflexivity. }
  split; [exact Hlen |]. split; [exact Hsub |]. split; [| split].
  - intros Hnd. apply NoDup_ListNoDup. apply NoDup_ListNoDup in Hnd.
    rewrite <- Hperm in Hnd. apply NoDup_app in Hnd. tauto.
  - intros Hk. apply submseteq_length_Permutation; [exact Hsub |]. lia.
  - intros Hk. destruct result; [reflexivity |]. simpl in Hlen. lia.
Qed.

(** ** clean_duplicates.js *)

Section CleanFacts.
Import CleanDuplicates.
Implicit Types (m : Groups) (e : Entry) (es : list Entry) (name k : string).

Lemma group_get_push name k e m :
  group_get name (group_push k e m) =
  if String.eqb k name then Some (default [] (group_get name m) ++ [e]) else group_get name m.
Proof.
  induction m as [| [k0 es] rest IH]; cbn [group_push group_get].
  - destruct (String.eqb k name); reflexivity.
  - destruct (String.eqb_spec k0 k) as [-> | Hk]; cbn [group_get].
    + destruct (String.eqb k name); reflexivity.
    + rewrite IH. destruct (String.eqb_spec k0 name) as [-> | Hkt]; [| reflexivity].
      destruct (String.eqb_spec k name); [congruence | reflexivity].
Qed.

Lemma group_push_keys name e m k :
  In k (map fst (group_push name e m)) <-> k = name \/ In k (map fst m).
Proof.
  induction m as [| [k0 es] rest IH]; cbn [group_push].
  - simpl. intuition.
  - destruct (String.eqb_spec k0 name) as [-> | Hk]; cbn [map fst In].
    + intuition.
    + rewrite IH. intuition.
Qed.

Lemma group_push_NoDup name e m :
  List.NoDup (map fst m) -> List.NoDup (map fst (group_push name e m)).
Proof.
  induction m as [| [k0 es] rest IH]; cbn [group_push]; intros Hnd.
  - simpl. constructor; [intros [] | constructor].
  - cbn [map fst] in Hnd. apply List.NoDup_cons_iff in Hnd as [Hk0 Hnd].
    destruct (String.eqb_spec k0 name) as [-> | Hk]; cbn [map fst].
    + constructor; assumption.
    + constructor; [| apply IH, Hnd].
      rewrite group_push_keys. intros [-> | Hin]; [congruence | contradiction].
Qed.

Lemma group_get_In name es m :
  List.NoDup (map fst m) -> In (name, es) m -> group_get name m = Some es.
Proof.
  induction m as [| [k0 es0] rest IH]; cbn [group_get map fst]; intros Hnd Hin;
    [destruct Hin |].
  apply List.NoDup_cons_iff in Hnd as [Hk0 Hnd].
  destruct Hin as [[= -> ->] | Hin]; [rewrite String.eqb_refl; reflexivity |].
  destruct (String.eqb_spec k0 name) as [-> | _]; [| apply IH; assumption].
  exfalso. apply Hk0. apply in_map_iff. exists (name, es). auto.
Qed.

Lemma groups_snoc (entries : list Entry) e :
  fold_left group_step (entries ++ [e]) [] = group_step (fold_left group_step entries []) e.
Proof. rewrite fold_left_app. reflexivity. Qed.

(** The map holds, under every name that is not empty, the entries of
    that name in their order. *)
Lemma groups_spec (entries : list Entry) :
  let m := fold_left group_step entries [] in
  List.NoDup (map fst m)
  /\ forall name,
       group_get name m =
       match List.filter (name_is name) (List.filter named entries) with
       | [] => None
       | es => Some es
       end.
Proof.
  induction entries as [| e entries [IH1 IH2]] using rev_ind; [split; [constructor | reflexivity] |].
  rewrite groups_snoc, List.filter_app. cbn [List.filter]. unfold group_step. cbv zeta.
  change (named e) with (negb (is_empty (fullName (entry_card e)))).
  destruct (is_empty (fullName (entry_card e))); cbn [negb].
  - rewrite app_nil_r. split; [exact IH1 | exact IH2].
  - split; [apply group_push_NoDup, IH1 |]. intros name.
    rewrite group_get_push, IH2, List.filter_app. cbn [List.filter].
    change (name_is name e) with (String.eqb (fullName (entry_card e)) name).
    destruct (String.eqb (fullName (entry_card e)) name).
    + destruct (List.filter (name_is name) (List.filter named entries)); reflexivity.
    + rewrite app_nil_r. reflexivity.
Qed.

Lemma entries_from_In (cards : list Card) :
  forall (start : nat) e,
    In e (entries_from start cards) <->
    (start <= entry_index e)%nat /\ cards !! (entry_index e - start)%nat = Some (entry_card e).
Proof.
  induction cards as [| c cards IH]; intros start e; cbn [entries_from In].
  - split; [intros [] | intros [_ H]; discriminate].
  - rewrite IH. split.
    + intros [<- | [Hle Hlook]]; cbn [entry_index entry_card].
      * rewrite Nat.sub_diag. split; [lia | reflexivity].
      * split; [lia |]. replace (entry_index e - start)%nat
          with (S (entry_index e - S start)) by lia. exact Hlook.
    + intros [Hle Hlook]. destruct (Nat.eq_dec (entry_index e) start) as [E | E].
      * left. rewrite E, Nat.sub_diag in Hlook. injection Hlook as ->.
        destruct e. cbn in *. congruence.
      * right. split; [lia |]. replace (entry_index e - start)%nat
          with (S (entry_index e - S start)) in Hlook by lia. exact Hlook.
Qed.

Lemma entries_from_sorted (cards : list Card) :
  forall start,
    StronglySorted (fun a b => (entry_index a < entry_index b)%nat) (entries_from start cards).
Proof.
  induction cards as [| c cards IH]; intros start; cbn [entries_from]; constructor.
  - apply IH.
  - apply List.Forall_forall. intros e He. apply entries_from_In in He. cbn. lia.
Qed.

Lemma filter_sorted {A} (R : A -> A -> Prop) (p : A -> bool) (l : list A) :
  StronglySorted R l -> StronglySorted R (List.filter p l).
Proof.
  induction 1 as [| x l _ IH Hx]; cbn [List.filter]; [constructor |].
  destruct (p x); [| exact IH]. constructor; [exact IH |].
  rewrite List.Forall_forall in *. intros y Hy. apply Hx. apply filter_In in Hy. tauto.
Qed.

(** The head of the sorted array: the new element when it is at most the
    head of the rest, else the head of the rest. *)
Lemma sort_head_cons {A} (cmp : A -> A -> Z) (x : A) (l : list A) :
  head (Js.sort cmp (x :: l)) =
  match head (Js.sort cmp l) with
  | Some y => if cmp x y <=? 0 then Some x else Some y
  | None => Some x
  end.
Proof.
  unfold Js.sort. cbn [foldr]. destruct (foldr (Js.sort_insert cmp) [] l) as [| y rest];
    [reflexivity |].
  cbn [Js.sort_insert head]. destruct (cmp x y <=? 0); reflexivity.
Qed.

(** In a group in the order of the indices, the head of the sorted group
    leads it. *)
Lemma sort_compare_plain (x y : Entry) :
  plain_rarity (entry_card x) -> plain_rarity (entry_card y) ->
  sort_compare x y = entry_value x - entry_value y.
Proof.
  unfold plain_rarity, sort_compare, compare_entries, compareRarity, entry_value,
    rarity_value, getRarityValue.
  intros Hx Hy.
  destruct (RARITY_ORDER !! rarity_or_common (entry_card x)),
    (RARITY_ORDER !! rarity_or_common (entry_card y));
    rewrite ?(bool_decide_eq_false_2 _ Hx), ?(bool_decide_eq_false_2 _ Hy); reflexivity.
Qed.

Lemma sort_head_leads es :
  StronglySorted (fun a b => (entry_index a < entry_index b)%nat) es -> plain_entries es ->
  match head (Js.sort sort_compare es) with
  | Some m => leads es m
  | None => es = []
  end.
Proof.
  unfold plain_entries.
  induction 1 as [| x l _ IH Hx]; intros Hplain; [reflexivity |].
  apply Forall_cons in Hplain as [Hplain_x Hplain]. specialize (IH Hplain).
  rewrite sort_head_cons. rewrite List.Forall_forall in Hx.
  destruct (head (Js.sort sort_compare l)) as [y |].
  - destruct IH as [Hy Hmin].
    assert (Hcmp : sort_compare x y = entry_value x - entry_value y).
    { apply sort_compare_plain; [exact Hplain_x |].
      rewrite Forall_forall in Hplain. apply Hplain, list_elem_of_In, Hy. }
    destruct (Z.leb_spec (sort_compare x y) 0) as [Hle | Hgt].
    + split; [left; reflexivity |]. intros e [<- | He]; [right; split; [reflexivity | lia] |].
      pose proof (Hx e He). destruct (Hmin e He) as [Hlt | [Heq Hidx]]; [left; lia |].
      destruct (Z.eq_dec (entry_value x) (entry_value e)); [right; split; [assumption | lia] |].
      left. lia.
    + split; [right; exact Hy |]. intros e [<- | He]; [left; lia | apply Hmin, He].
  - subst l. split; [left; reflexivity |].
    intros e [<- | []]. right. split; [reflexivity | lia].
Qed.

Lemma leads_unique es (m m' : Entry) :
  StronglySorted (fun a b => (entry_index a < entry_index b)%nat) es ->
  leads es m -> leads es m' -> m = m'.
Proof.
  intros Hsorted [Hm Hmin] [Hm' Hmin'].
  assert (Hidx : entry_index m = entry_index m').
  { destruct (Hmin m' Hm') as [? | [? ?]], (Hmin' m Hm) as [? | [? ?]]; lia. }
  clear Hmin Hmin'. induction Hsorted as [| x l _ IH Hx]; [destruct Hm |].
  rewrite List.Forall_forall in Hx.
  destruct Hm as [<- | Hm], Hm' as [<- | Hm'].
  - reflexivity.
  - pose proof (Hx _ Hm'). lia.
  - pose proof (Hx _ Hm). lia.
  - apply IH; assumption.
Qed.

Lemma fold_left_map {A B C} (f : A -> B -> A) (g : C -> B) (l : list C) :
  forall a, fold_left f (map g l) a = fold_left (fun a x => f a (g x)) l a.
Proof. induction l as [| x l IH]; intros a; [reflexivity | apply IH]. Qed.

Lemma mark_group_marks (processed : list Card) (group : string * list Entry) :
  mark_group processed group = apply_marks (group_marks (snd group)) processed.
Proof.
  unfold mark_group, group_marks, apply_marks. cbv zeta.
  destruct (Z.gtb_spec (Z.of_nat (length (snd group))) 1) as [Hmany | Hfew].
  - destruct (Js.sort sort_compare (snd group)) as [| first others]; [reflexivity |].
    cbn [fold_left fst snd]. rewrite fold_left_map. reflexivity.
  - destruct (snd group) as [| e [| e' es]]; [reflexivity | reflexivity |].
    simpl in Hfew. lia.
Qed.

Lemma processedCards_marks (cards : list Card) :
  processedCards cards
  = apply_marks (flat_map (fun g => group_marks (snd g)) (cardsByFullName cards)) cards.
Proof.
  unfold processedCards. generalize (cardsByFullName cards). intros m.
  generalize cards. induction m as [| g m IH]; intros p; [reflexivity |].
  cbn [fold_left flat_map]. rewrite IH, mark_group_marks. unfold apply_marks.
  rewrite fold_left_app. reflexivity.
Qed.

(** The flags set at an index, when all that are set there agree. *)
Lemma apply_marks_lookup (marks : list (nat * bool)) (i : nat) (flag : bool) :
  (forall b, In (i, b) marks -> b = flag) ->
  forall processed,
    length (apply_marks marks processed) = length processed
    /\ apply_marks marks processed !! i =
       if existsb (fun mark => (fst mark =? i)%nat) marks
       then (fun c => Enrich.set_baseCard c (Some flag)) <$> processed !! i
       else processed !! i.
Proof.
  intros Hall. induction marks as [| [j b] marks IH]; intros p; [split; reflexivity |].
  assert (Hall' : forall b', In (i, b') marks -> b' = flag)
    by (intros b' H; apply Hall; right; exact H).
  destruct (IH Hall' (set_flag b j p)) as [IHlen IHlook].
  change (apply_marks ((j, b) :: marks) p) with (apply_marks marks (set_flag b j p)).
  split; [rewrite IHlen; unfold set_flag; apply length_alter |].
  rewrite IHlook. cbn [existsb fst]. unfold set_flag.
  destruct (Nat.eqb_spec j i) as [-> | Hne]; cbn [orb].
  - assert (b = flag) as -> by (apply Hall; left; reflexivity).
    rewrite list_lookup_alter_eq.
    destruct (p !! i) as [c |]; cbn; destruct (existsb _ marks); reflexivity.
  - rewrite list_lookup_alter_ne by exact Hne. reflexivity.
Qed.

End CleanFacts.

Section CleanMarks.
Import CleanDuplicates.

Variable cards : list Card.

Lemma group_entries (name : string) (e : Entry) :
  name <> EmptyString ->
  In e (List.filter (name_is name) (List.filter named (entries_from 0 cards))) <->
  cards !! entry_index e = Some (entry_card e) /\ fullName (entry_card e) = name.
Proof.
  intros Hname. rewrite !filter_In, entries_from_In, Nat.sub_0_r.
  unfold name_is, named. rewrite String.eqb_eq. split.
  - intros [[[_ Hlook] _] Heq]. auto.
  - intros [Hlook Heq]. split; [split; [split; [lia | exact Hlook] |] | exact Heq].
    rewrite Heq. destruct name; [contradiction | reflexivity].
Qed.

Lemma group_get_Some_In (name : string) (es : list Entry) (m : Groups) :
  group_get name m = Some es -> In (name, es) m.
Proof.
  induction m as [| [k es0] rest IH]; [discriminate |]. cbn [group_get].
  destruct (String.eqb_spec k name) as [-> | _].
  - intros [= ->]. left. reflexivity.
  - intros H. right. apply IH, H.
Qed.

(** The groups of the map: under a name the entries of the name, which are
    in the order of their indices. *)
Lemma plain_groups (name : string) (es : list Entry) :
  Forall plain_rarity cards ->
  es = List.filter (name_is name) (List.filter named (entries_from 0 cards)) ->
  plain_entries es.
Proof.
  intros Hplain ->. apply Forall_forall. intros e He.
  apply list_elem_of_In, filter_In in He as [He _]. apply filter_In in He as [He _].
  apply entries_from_In in He as [_ Hlook].
  rewrite Forall_forall in Hplain. apply Hplain. eapply list_elem_of_lookup_2, Hlook.
Qed.

Lemma cardsByFullName_groups (name : string) (es : list Entry) :
  In (name, es) (cardsByFullName cards) ->
  es = List.filter (name_is name) (List.filter named (entries_from 0 cards))
  /\ es <> []
  /\ StronglySorted (fun a b => (entry_index a < entry_index b)%nat) es.
Proof.
  intros Hin. destruct (groups_spec (entries_from 0 cards)) as [Hnd Hget].
  apply (group_get_In _ _ _ Hnd) in Hin. unfold cardsByFullName in Hin.
  rewrite Hget in Hin.
  destruct (List.filter (name_is name) _) as [| e0 es0] eqn:E; [discriminate |].
  injection Hin as <-. split; [reflexivity |]. split; [discriminate |].
  rewrite <- E. apply filter_sorted, filter_sorted, entries_from_sorted.
Qed.

Lemma cardsByFullName_group (c : Card) (i : nat) :
  cards !! i = Some c -> fullName c <> EmptyString ->
  exists es, In (fullName c, es) (cardsByFullName cards) /\ In (mkEntry c i) es.
Proof.
  intros Hc Hname. destruct (groups_spec (entries_from 0 cards)) as [_ Hget].
  specialize (Hget (fullName c)).
  assert (Hin : In (mkEntry c i)
                  (List.filter (name_is (fullName c))
                     (List.filter named (entries_from 0 cards)))).
  { apply (group_entries _ _ Hname). cbn. auto. }
  destruct (List.filter (name_is (fullName c)) _) as [| e0 es0] eqn:E; [destruct Hin |].
  exists (e0 :: es0). split; [apply group_get_Some_In, Hget | exact Hin].
Qed.

(** The marks of a group: one for every entry, [true] for the entry that
    leads the group and [false] for the others. *)
Lemma group_marks_spec (es : list Entry) :
  StronglySorted (fun a b => (entry_index a < entry_index b)%nat) es -> plain_entries es ->
  forall (i : nat) (b : bool),
    In (i, b) (group_marks es) <->
    exists e, In e es /\ entry_index e = i /\ (b = true <-> leads es e).
Proof.
  intros Hsorted Hplain i b. unfold group_marks.
  pose proof (sort_head_leads es Hsorted Hplain) as Hhead.
  pose proof (sort_perm sort_compare es) as Hperm.
  assert (Hnd : List.NoDup (map entry_index es)).
  { clear -Hsorted. induction Hsorted as [| x l _ IH Hx]; [constructor |].
    cbn [map]. constructor; [| exact IH]. rewrite List.Forall_forall in Hx.
    intros Hin. apply in_map_iff in Hin as (y & Hy & Hin). pose proof (Hx y Hin). lia. }
  destruct (Js.sort sort_compare es) as [| first others] eqn:E.
  - apply Permutation_nil in Hperm. subst es. split; [intros [] | intros (e & [] & _)].
  - cbn [head] in Hhead.
    assert (Hnd' : List.NoDup (map entry_index (first :: others))).
    { eapply Permutation_NoDup; [| exact Hnd]. apply Permutation_map. symmetry. exact Hperm. }
    cbn [map] in Hnd'. apply List.NoDup_cons_iff in Hnd' as [Hfirst _].
    assert (Hin : forall e, In e es <-> e = first \/ In e others).
    { intros e. rewrite <- !list_elem_of_In, <- Hperm, !list_elem_of_In.
      cbn [In]. intuition. }
    cbn [In]. rewrite in_map_iff. split.
    + intros [[= <- <-] | (e & [= <- <-] & He)].
      * exists first. split; [apply Hin; left; reflexivity |]. split; [reflexivity |].
        split; [intros _; exact Hhead | reflexivity].
      * exists e. split; [apply Hin; right; exact He |]. split; [reflexivity |].
        split; [discriminate |]. intros Hlead. exfalso.
        apply (leads_unique es _ _ Hsorted Hhead) in Hlead. subst e.
        apply Hfirst, in_map, He.
    + intros (e & He & <- & Hb). apply Hin in He as [-> | He].
      * left. f_equal. symmetry. apply Hb, Hhead.
      * right. exists e. split; [| exact He]. f_equal. destruct b; [| reflexivity].
        exfalso. assert (Hlead : leads es e) by (apply Hb; reflexivity).
        apply (leads_unique es _ _ Hsorted Hhead) in Hlead. subst e.
        apply Hfirst, in_map, He.
Qed.

Lemma sorted_index_inj (es : list Entry) (a b : Entry) :
  StronglySorted (fun x y => (entry_index x < entry_index y)%nat) es ->
  In a es -> In b es -> entry_index a = entry_index b -> a = b.
Proof.
  induction 1 as [| x l _ IH Hx]; [intros [] |]. rewrite List.Forall_forall in Hx.
  intros [<- | Ha] [<- | Hb] Heq.
  - reflexivity.
  - pose proof (Hx _ Hb). lia.
  - pose proof (Hx _ Ha). lia.
  - apply IH; assumption.
Qed.

Lemma group_marks_total (es : list Entry) (e : Entry) :
  StronglySorted (fun a b => (entry_index a < entry_index b)%nat) es -> plain_entries es ->
  In e es ->
  exists b, In (entry_index e, b) (group_marks es) /\ (b = true <-> leads es e).
Proof.
  intros Hsorted Hplain He. pose proof (sort_head_leads es Hsorted Hplain) as Hhead.
  destruct (head (Js.sort sort_compare es)) as [first |]; [| subst es; destruct He].
  destruct (Nat.eq_dec (entry_index e) (entry_index first)) as [Heq | Hne].
  - assert (e = first) as -> by (apply (sorted_index_inj es); [| | apply Hhead |]; assumption).
    exists true. split; [| tauto]. apply (group_marks_spec es Hsorted Hplain).
    exists first. tauto.
  - exists false. assert (Hnot : ~ leads es e).
    { intros Hlead. apply Hne. f_equal. apply (leads_unique es _ _ Hsorted Hlead Hhead). }
    split; [| split; [discriminate | contradiction]].
    apply (group_marks_spec es Hsorted Hplain). exists e.
    split; [exact He |]. split; [reflexivity |]. split; [discriminate | contradiction].
Qed.

Lemma leads_is_base (c : Card) (i : nat) (es : list Entry) :
  cards !! i = Some c -> fullName c <> EmptyString ->
  es = List.filter (name_is (fullName c)) (List.filter named (entries_from 0 cards)) ->
  leads es (mkEntry c i) <-> is_base cards i c.
Proof.
  intros Hc Hname ->. unfold leads, is_base. split.
  - intros [_ Hmin] j c' Hc' Hsame.
    apply (Hmin (mkEntry c' j)), (group_entries _ _ Hname). cbn. auto.
  - intros Hbase. split; [apply (group_entries _ _ Hname); cbn; auto |].
    intros e He. apply (group_entries _ _ Hname) in He as [Hlook Hsame].
    apply (Hbase (entry_index e) (entry_card e) Hlook Hsame).
Qed.

(** What the script makes of the card at an index. *)
Lemma processedCards_lookup (i : nat) (c : Card) :
  Forall plain_rarity cards -> cards !! i = Some c ->
  (fullName c = EmptyString /\ processedCards cards !! i = Some c)
  \/ (fullName c <> EmptyString
      /\ exists b, processedCards cards !! i = Some (Enrich.set_baseCard c (Some b))
                   /\ (b = true <-> is_base cards i c)).
Proof.
  intros Hplain Hc. rewrite processedCards_marks.
  set (marks := flat_map (fun g => group_marks (snd g)) (cardsByFullName cards)).
  assert (Hmark : forall j b, In (j, b) marks ->
            exists c' es, cards !! j = Some c' /\ fullName c' <> EmptyString
              /\ In (fullName c', es) (cardsByFullName cards)
              /\ In (mkEntry c' j) es /\ (b = true <-> leads es (mkEntry c' j))).
  { intros j b Hin. apply in_flat_map in Hin as ([name es] & Hg & Hin). cbn [snd] in Hin.
    destruct (cardsByFullName_groups name es Hg) as (Hes & Hne & Hsorted).
    apply (group_marks_spec es Hsorted (plain_groups name es Hplain Hes)) in Hin
      as (e & He & <- & Hb).
    assert (Hname : name <> EmptyString).
    { intros ->. rewrite Hes in He. apply filter_In in He as [He Hn].
      apply filter_In in He as [_ Hnamed]. unfold name_is, named in *.
      apply String.eqb_eq in Hn. rewrite Hn in Hnamed. discriminate. }
    pose proof He as He'. rewrite Hes in He'.
    apply (group_entries _ _ Hname) in He' as [Hlook Hsame].
    exists (entry_card e), es. destruct e as [c' j]. cbn in *. subst name. auto 10. }
  destruct (SavedDecks.is_empty (fullName c)) eqn:Hempty.
  - left. assert (Hname : fullName c = EmptyString)
      by (destruct (fullName c); [reflexivity | discriminate]).
    split; [exact Hname |].
    assert (Hagree : forall b, In (i, b) marks -> b = true).
    { intros b Hin. apply Hmark in Hin as (c' & es & Hc' & Hne & _).
      rewrite Hc in Hc'. injection Hc' as <-. contradiction. }
    destruct (apply_marks_lookup marks i true Hagree cards) as [_ Hlook].
    rewrite Hlook.
    destruct (existsb (fun mark => (fst mark =? i)%nat) marks) eqn:E; [| exact Hc].
    apply existsb_exists in E as ([j b] & Hin & Hj). cbn in Hj.
    apply Nat.eqb_eq in Hj. subst j.
    apply Hmark in Hin as (c' & es & Hc' & Hne & _).
    rewrite Hc in Hc'. injection Hc' as <-. contradiction.
  - right. assert (Hname : fullName c <> EmptyString)
      by (intros E; rewrite E in Hempty; discriminate).
    split; [exact Hname |].
    destruct (cardsByFullName_group c i Hc Hname) as (es & Hg & He).
    destruct (cardsByFullName_groups _ es Hg) as (Hes & _ & Hsorted).
    destruct (groups_spec (entries_from 0 cards)) as [Hnd _].
    assert (Hmine : exists b, In (i, b) marks /\ (b = true <-> leads es (mkEntry c i))).
    { destruct (group_marks_total es (mkEntry c i) Hsorted
                  (plain_groups _ es Hplain Hes) He) as (b & Hin & Hb).
      exists b. split; [| exact Hb]. apply in_flat_map. exists (fullName c, es).
      split; [exact Hg | exact Hin]. }
    destruct Hmine as (b & Hin & Hb). exists b.
    assert (Hagree : forall b', In (i, b') marks -> b' = b).
    { intros b' Hin'. apply Hmark in Hin' as (c' & es' & Hc' & _ & Hg' & _ & Hb').
      rewrite Hc in Hc'. injection Hc' as <-.
      assert (es' = es) as ->.
      { apply (group_get_In _ _ _ Hnd) in Hg, Hg'. unfold cardsByFullName in *. congruence. }
      destruct b, b'; try reflexivity;
        [apply Hb', Hb; reflexivity | symmetry; apply Hb, Hb'; reflexivity]. }
    destruct (apply_marks_lookup marks i b Hagree cards) as [_ Hlook].
    rewrite Hlook, Hc.
    assert (E : existsb (fun mark => (fst mark =? i)%nat) marks = true).
    { apply existsb_exists. exists (i, b). split; [exact Hin | apply Nat.eqb_refl]. }
    rewrite E. split; [reflexivity |].
    rewrite Hb. apply (leads_is_base c i es Hc Hname Hes).
Qed.

End CleanMarks.

Lemma apply_marks_length (marks : list (nat * bool)) :
  forall processed, length (apply_marks marks processed) = length processed.
Proof.
  induction marks as [| [j b] marks IH]; intros p; [reflexivity |].
  change (apply_marks ((j, b) :: marks) p)
    with (apply_marks marks (CleanDuplicates.set_flag b j p)).
  rewrite IH. unfold CleanDuplicates.set_flag. apply length_alter.
Qed.

Lemma is_base_unique (cards : list Card) (i j : nat) (c c' : Card) :
  cards !! i = Some c -> cards !! j = Some c' -> fullName c = fullName c' ->
  is_base cards i c -> is_base cards j c' -> i = j.
Proof.
  intros Hc Hc' Hname Hi Hj.
  destruct (Hi j c' Hc' (eq_sym Hname)) as [? | [? ?]],
    (Hj i c Hc Hname) as [? | [? ?]]; lia.
Qed.

(** X27.  The cleaning script marks one base card for every name.  For
    cards whose rarity is not a name that an object inherits (such as
    [constructor]), the array that the script writes has the cards of the
    array it reads, in their places and changed in the [baseCard] flag
    only; a card without a name is left as it is; a card with a name is
    flagged, [true] when no card of its name has a lower rarity value
    (Common 1 to Legendary 5, 999 for any other rarity, Common for a
    missing one) and none before it has the same, and [false] otherwise.
    So among the cards of a name exactly one is the base card. *)
Theorem one_base_card_for_every_name (cards : list Card) :
  Forall plain_rarity cards ->
  let processed := CleanDuplicates.processedCards cards in
  length processed = length cards
  /\ (forall i c, cards !! i = Some c ->
        exists c',
          processed !! i = Some c'
          /\ without_flag c' = without_flag c
          /\ (fullName c = EmptyString -> c' = c)
          /\ (fullName c <> EmptyString ->
              exists b, baseCard c' = Some b /\ (b = true <-> is_base cards i c)))
  /\ (forall name, name <> EmptyString -> (exists c, In c cards /\ fullName c = name) ->
        exists i c',
          processed !! i = Some c' /\ fullName c' = name /\ baseCard c' = Some true
          /\ forall j c'', processed !! j = Some c'' -> fullName c'' = name ->
               baseCard c'' = Some true -> j = i).
Proof.
  intros Hplain. cbv zeta.
  assert (Hlen : length (CleanDuplicates.processedCards cards) = length cards).
  { rewrite processedCards_marks. apply apply_marks_length. }
  split; [exact Hlen |]. split.
  - intros i c Hc.
    destruct (processedCards_lookup cards i c Hplain Hc)
      as [[Hname ->] | (Hname & b & -> & Hb)].
    + exists c. split; [reflexivity |]. split; [reflexivity |].
      split; [reflexivity | contradiction].
    + exists (Enrich.set_baseCard c (Some b)). split; [reflexivity |].
      split; [reflexivity |]. split; [contradiction |]. intros _. exists b. auto.
  - intros name Hname (c & Hc & Hcname).
    apply list_elem_of_In, list_elem_of_lookup_1 in Hc as [k Hk].
    rewrite <- Hcname in Hname.
    destruct (cardsByFullName_group cards c k Hk Hname) as (es & Hg & He).
    destruct (cardsByFullName_groups cards _ es Hg) as (Hes & Hne & Hsorted).
    pose proof (sort_head_leads es Hsorted (plain_groups cards _ es Hplain Hes)) as Hhead.
    destruct (head (Js.sort CleanDuplicates.sort_compare es)) as [[cm i] |];
      [| contradiction].
    pose proof Hhead as [Hin _]. rewrite Hes in Hin.
    apply (group_entries cards _ _ Hname) in Hin as [Hlook Hsame]. cbn in Hlook, Hsame.
    assert (Hbase : is_base cards i cm).
    { rewrite <- Hsame in Hes. rewrite <- Hsame in Hname.
      apply (leads_is_base cards cm i es Hlook Hname Hes), Hhead. }
    destruct (processedCards_lookup cards i cm Hplain Hlook)
      as [[Hnone _] | (_ & b & Hproc & Hb)]; [congruence |].
    exists i, (Enrich.set_baseCard cm (Some b)).
    split; [exact Hproc |]. split; [rewrite <- Hcname; exact Hsame |].
    split; [cbn; f_equal; apply Hb, Hbase |].
    intros j c'' Hj Hjname Hflag.
    assert (Hcj : exists cj, cards !! j = Some cj).
    { apply lookup_lt_is_Some. rewrite <- Hlen. eapply lookup_lt_Some, Hj. }
    destruct Hcj as [cj Hcj].
    destruct (processedCards_lookup cards j cj Hplain Hcj)
      as [[Hnone Hsame'] | (_ & b' & Hproc' & Hb')].
    + rewrite Hsame' in Hj. injection Hj as <-. congruence.
    + rewrite Hproc' in Hj. injection Hj as <-. cbn in Hjname, Hflag.
      injection Hflag as ->.
      apply (is_base_unique cards j i cj cm Hcj Hlook); [congruence | | exact Hbase].
      apply Hb'. reflexivity.
Qed.

Lemma one_base_card_for_every_name_witness :
  Forall plain_rarity printings
  /\ length (CleanDuplicates.processedCards printings) = length printings
  /\ exists i c',
       CleanDuplicates.processedCards printings !! i = Some c'
       /\ fullName c' = "Elsa - Snow Queen"%string /\ baseCard c' = Some true
       /\ forall j c'', CleanDuplicates.processedCards printings !! j = Some c'' ->
            fullName c'' = "Elsa - Snow Queen"%string -> baseCard c'' = Some true -> j = i.
Proof.
  assert (Hplain : Forall plain_rarity printings).
  { unfold printings.
    repeat (constructor;
            [unfold plain_rarity; refine (bool_decide_eq_true_1 _ _); vm_compute;
             reflexivity |]).
    constructor. }
  split; [exact Hplain |].
  destruct (one_base_card_for_every_name printings Hplain) as (Hlen & _ & Hone).
  split; [exact Hlen |]. apply Hone; [discriminate |].
  exists (printed 2 "Elsa - Snow Queen" (Some "Common"%string)).
  split; [right; left; reflexivity | reflexivity].
Defined.

(** ** Valid picks and the enrichment *)

Lemma pickCard_log (s : DraftState) (i : Z) (r : Rng) (s' : DraftState) (r' : Rng)
    (ap : Pack) :
  active_pack s = Some ap -> pickCard s i r = inr (s', r') ->
  exists e, log s' = log s ++ [e] /\ picked e = head (fst (Js.splice1 (cards ap) i)).
Proof.
  unfold active_pack. intros Hap Hpick.
  destruct (last (rounds s)) as [rd |] eqn:Hrd; [| discriminate].
  rewrite (pickCard_run s i r rd ap Hrd Hap) in Hpick. cbv zeta in Hpick.
  injection Hpick as Hpick.
  match type of Hpick with advance ?mid ?r1 = _ =>
    destruct (advance_frame mid r1) as (_ & _ & Hl & _); rewrite Hpick in Hl end.
  cbn [fst] in Hl. unfold picked_state in Hl. cbn [log] in Hl.
  eexists. split; [exact Hl | reflexivity].
Qed.

Lemma picks_defined_unfold (s : DraftState) :
  picks_defined s =
  forallb defined (picks s)
  && forallb (fun e => defined (picked e)) (log s)
  && match undoBuffer s with
     | Some b => picks_defined b
     | None => true
     end.
Proof. destruct s; reflexivity. Qed.

Lemma valid_pick_defined (s : DraftState) (i : Z) (r : Rng) (s' : DraftState) (r' : Rng) :
  picks_defined s = true -> valid_index s i = true -> pickCard s i r = inr (s', r') ->
  picks_defined s' = true.
Proof.
  intros Hs Hvalid Hpick. unfold valid_index in Hvalid.
  apply andb_true_iff in Hvalid as [_ Hvalid].
  destruct (active_pack s) as [ap |] eqn:Hap; [| discriminate].
  apply andb_true_iff in Hvalid as [Hlo Hhi]. apply Z.leb_le in Hlo. apply Z.ltb_lt in Hhi.
  destruct (index_in_range (cards ap) i) as [c Hc]; [lia |].
  pose proof (pickCard_picks s i r s' r' ap Hap Hpick) as Hpicks.
  destruct (pickCard_log s i r s' r' ap Hap Hpick) as (e & Hlog & He).
  destruct (pickCard_undo s i r s' r' Hpick) as [Hbuf _].
  rewrite (splice1_in_range _ _ _ Hc) in Hpicks, He. cbn [fst head] in Hpicks, He.
  pose proof Hs as Hall. rewrite picks_defined_unfold in Hs.
  apply andb_true_iff in Hs as [Hs _]. apply andb_true_iff in Hs as [Hp Hl].
  rewrite (picks_defined_unfold s'), Hpicks, Hlog, Hbuf, !forallb_app, Hp, Hl.
  cbn. rewrite He. cbn. exact Hall.
Qed.

(** X28.  A draft made of valid picks can be enriched.  When every pick
    of a state is a card, every pick of the state after a run of valid
    picks is a card as well, in its log and in its chain of undo buffers
    too, and [enrichDraftStateWithBaseCard] returns a state for it. *)
Theorem valid_picks_keep_the_draft_enrichable (s : DraftState) (indices : list Z) (r : Rng)
    (s' : DraftState) (r' : Rng) (masterCards : list Card) :
  picks_defined s = true -> pick_all s indices r = Some (s', r') ->
  picks_defined s' = true
  /\ exists enriched, Enrich.enrichDraftStateWithBaseCard s' masterCards = inr enriched.
Proof.
  intros Hs Hrun.
  assert (Hs' : picks_defined s' = true).
  { revert s r Hs Hrun. induction indices as [| i rest IH]; intros s r Hs Hrun.
    - cbn in Hrun. injection Hrun as <- _. exact Hs.
    - cbn [pick_all] in Hrun. destruct (valid_index s i) eqn:Hvalid; [| discriminate].
      destruct (pickCard s i r) as [e | [s1 r1]] eqn:Hpick; [discriminate |].
      apply (IH s1 r1); [| exact Hrun].
      apply (valid_pick_defined s i r s1 r1 Hs Hvalid Hpick). }
  split; [exact Hs' |].
  pose proof (enrich_state_run masterCards s') as Hrun'. rewrite Hs' in Hrun'.
  destruct Hrun' as (enriched & Henriched & _). eauto.
Qed.

Lemma valid_picks_keep_the_draft_enrichable_witness :
  match pick_all demo_start [0; 5; 2] demo_start_rng with
  | Some (s', _) =>
      picks_defined s' = true
      /\ exists enriched, Enrich.enrichDraftStateWithBaseCard s' demo_pool = inr enriched
  | None => False
  end.
Proof.
  destruct (pick_all demo_start [0; 5; 2] demo_start_rng) as [[s' r'] |] eqn:E;
    [| vm_compute in E; discriminate].
  apply (valid_picks_keep_the_draft_enrichable demo_start [0; 5; 2] demo_start_rng s' r'
           demo_pool); [reflexivity | exact E].
Defined.

(** ** Quick Sim comes to an end *)

Lemma advance_turns_left (s : DraftState) (r : Rng) :
  1 <= currentTurn s <= 12 -> 1 <= currentRound s <= 6 ->
  0 <= turns_left (fst (advance s r)) < turns_left s.
Proof.
  intros Hturn Hround. unfold turns_left.
  destruct (Z_le_gt_dec (currentTurn s + 1) 12) as [Hin | Hlast].
  - rewrite advance_within_round by exact Hin. cbn. lia.
  - destruct (Z_lt_ge_dec (currentRound s) 6) as [Hmore | Hfinal].
    + rewrite advance_next_round by lia. cbn. lia.
    + rewrite advance_complete by lia. cbn. lia.
Qed.

Lemma quick_sim_ends (pool : list Card) (fuel : nat) :
  forall (s : DraftState) (r : Rng),
    sound pool s -> Z.max 0 (turns_left s) < Z.of_nat fuel ->
    exists s' r',
      App.handleQuickSim fuel s r = Some (inr (s', r'))
      /\ sound pool s'
      /\ (isComplete s' = true
          \/ exists ap, active_pack s' = Some ap /\ cards ap = []).
Proof.
  induction fuel as [| fuel IH]; intros s r Hs Hfuel; [lia |].
  destruct (isComplete s) eqn:Hdone.
  { exists s, r. rewrite (handleQuickSim_done _ _ _ Hdone). auto. }
  destruct (sound_active pool s Hs) as (done & rd & ap & Hrounds & Hap & _).
  assert (Hactive : active_pack s = Some ap).
  { unfold active_pack. rewrite Hrounds, last_snoc. exact Hap. }
  destruct (cards ap) as [| c0 rest] eqn:Hcards.
  { exists s, r. rewrite (handleQuickSim_empty fuel s r ap Hdone Hactive)
      by (rewrite Hcards; reflexivity).
    split; [reflexivity |]. split; [exact Hs |]. right. exists ap. auto. }
  rewrite (handleQuickSim_pick fuel s r ap Hdone Hactive) by (rewrite Hcards; simpl; lia).
  destruct (pickCard_sound pool s 0 r Hs) as (s1 & r1 & Hpick & Hs1 & _).
  rewrite Hpick. apply IH; [exact Hs1 |].
  assert (Hturn : currentTurn s <= 12).
  { destruct (Z_le_gt_dec (currentTurn s) 12) as [H | H]; [exact H |].
    rewrite (sound_done _ _ Hs) in Hdone by lia. discriminate. }
  assert (Hlast : last (rounds s) = Some rd) by (rewrite Hrounds; apply last_snoc).
  rewrite (pickCard_run s 0 r rd ap Hlast Hap) in Hpick. cbv zeta in Hpick.
  injection Hpick as Hpick.
  match type of Hpick with advance ?mid ?r1 = _ =>
    pose proof (advance_turns_left mid r1) as Hless; rewrite Hpick in Hless end.
  cbn [fst] in Hless. unfold picked_state in Hless. cbn [currentTurn currentRound] in Hless.
  pose proof (sound_turn _ _ Hs) as Ht. pose proof (sound_round _ _ Hs) as Hr.
  specialize (Hless ltac:(lia) ltac:(lia)).
  unfold turns_left in Hless at 3. cbn [currentTurn currentRound] in Hless.
  fold (turns_left s) in Hless. lia.
Qed.

(** X29.  Quick Sim comes to an end in every draft.  Started in a state
    reached by picks at any index, undos and round resets, the loop neither
    throws nor goes on for ever: within 78 picks it stops, at a draft that
    is complete or at an active pack that is empty. *)
Theorem quick_sim_always_stops (pool : list Card) (s : DraftState) (r : Rng) (fuel : nat) :
  reachable pool s -> (78 < fuel)%nat ->
  exists s' r',
    App.handleQuickSim fuel s r = Some (inr (s', r'))
    /\ (isComplete s' = true \/ exists ap, active_pack s' = Some ap /\ cards ap = []).
Proof.
  intros Hreach Hfuel. pose proof (reachable_sound pool s Hreach) as Hs.
  destruct (quick_sim_ends pool fuel s r Hs) as (s' & r' & Hrun & _ & Hend).
  { pose proof (sound_turn _ _ Hs). pose proof (sound_round _ _ Hs).
    unfold turns_left. lia. }
  eauto.
Qed.

Lemma quick_sim_always_stops_witness :
  exists s' r',
    App.handleQuickSim 79 (fst (resetRound demo_start demo_rng)) demo_rng
      = Some (inr (s', r'))
    /\ (isComplete s' = true \/ exists ap, active_pack s' = Some ap /\ cards ap = []).
Proof.
  apply (quick_sim_always_stops demo_pool); [| lia].
  apply reach_reset. exact (reach_new demo_pool demo_rng).
Defined.
